(** * The YAML <-> Netlink transcoder of liblnetconfig_netlink.c

    A shallow embedding of the inbound transcoder (key tables and value
    batches rendered as YAML text), of the session callbacks that drive it,
    and of the outbound line classifier and write handler, followed by the
    properties established about them.

    Conventions of the embedding:
    - a [char *] buffer is a [list ascii]; a pointer into it is an offset in
      [Z]; a load or store outside the buffer is a [Fault];
    - schema nodes live in an arena ([list (option yaml_nl_node)]); a node
      pointer is an index, [None] is NULL, a freed slot holds [None];
    - functions that can dereference NULL or leave a buffer return a
      [result]; recursion through nested attributes is bounded by a fuel
      that the entry points compute from the nesting depth of their input,
      and the loops of the write handler by a fuel computed from the length
      of the text and the size of a message;
    - libnl, libc and libyaml are outside the repository: the little of them
      the code relies on is modelled next to its use. *)

From Stdlib Require Import ZArith Ascii String Lia Bool DecimalString.
From stdpp Require Import base option list sets strings.

Set Warnings "-register-all,-clear-no-such-hyp".

Local Open Scope Z_scope.

(* ================================================================== *)
(** ** Results of C code *)

Inductive fault : Type :=
| NullDeref      (* a NULL pointer is dereferenced *)
| NullChild      (* the NULL returned by get_next_child is dereferenced *)
| OutOfBounds    (* a load or store outside the addressed object *)
| UseAfterFree.  (* a freed schema node is accessed *)

Inductive result (A : Type) : Type :=
| Ok (a : A)
| Fault (f : fault)
| Timeout.
Arguments Ok {A} a.
Arguments Fault {A} f.
Arguments Timeout {A}.

#[global] Instance result_ret : MRet result := fun _ a => Ok a.
#[global] Instance result_bind : MBind result := fun _ _ k m =>
  match m with
  | Ok a => k a
  | Fault f => Fault f
  | Timeout => Timeout
  end.

Definition is_fault {A} (r : result A) : bool :=
  match r with Fault _ => true | _ => false end.

(* ================================================================== *)
(** ** Machine integers *)

Definition INT_MAX : Z := 2 ^ 31 - 1.

(** Conversion to an unsigned type of [w] bits, and to a signed one. *)
Definition wrap_unsigned (w : Z) (z : Z) : Z := z mod 2 ^ w.
Definition wrap_signed (w : Z) (z : Z) : Z :=
  let u := z mod 2 ^ w in
  if u <? 2 ^ (w - 1) then u else u - 2 ^ w.

Definition u16 := wrap_unsigned 16.
Definition u32 := wrap_unsigned 32.
Definition size_t := wrap_unsigned 64.

(* ================================================================== *)
(** ** Characters, C strings and the output buffer *)

Definition NUL : ascii := "000"%char.
Definition LF : ascii := "010"%char.
Definition SP : ascii := " "%char.

Definition bytes (s : string) : list ascii := list_ascii_of_string s.

(** The text between a pointer and the first NUL. *)
Fixpoint c_str (s : string) : string :=
  match s with
  | EmptyString => EmptyString
  | String c s' => if Ascii.eqb c NUL then EmptyString else String c (c_str s')
  end.

(** [strlen] on the bytes that start at a pointer; [None] when no NUL is
    found before the end of the buffer. *)
Fixpoint strlen (l : list ascii) : option nat :=
  match l with
  | [] => None
  | c :: l' => if Ascii.eqb c NUL then Some O else S <$> strlen l'
  end.

Definition in_buffer (m : list ascii) (p : Z) (n : nat) : bool :=
  (0 <=? p) && (p + Z.of_nat n <=? Z.of_nat (length m)).

(** memcpy into the buffer at offset [p]. *)
Definition store_bytes (m : list ascii) (p : Z) (bs : list ascii)
  : result (list ascii) :=
  if in_buffer m p (length bs)
  then Ok (take (Z.to_nat p) m ++ bs ++ drop (Z.to_nat p + length bs) m)
  else Fault OutOfBounds.

Definition memset (m : list ascii) (p : Z) (c : ascii) (n : Z)
  : result (list ascii) :=
  store_bytes m p (replicate (Z.to_nat n) c).

Definition strlen_at (m : list ascii) (p : Z) : result Z :=
  if in_buffer m p 0 then
    match strlen (drop (Z.to_nat p) m) with
    | Some n => Ok (Z.of_nat n)
    | None => Fault OutOfBounds
    end
  else Fault OutOfBounds.

(** strcat(dst, src): append at the terminating NUL of the string at [p]. *)
Definition strcat (m : list ascii) (p : Z) (s : string) : result (list ascii) :=
  n ← strlen_at m p;
  store_bytes m (p + n) (bytes s ++ [NUL]).

Section libc.
(** musl (and POSIX) make snprintf fail with EOVERFLOW when the size
    argument exceeds INT_MAX; glibc does not.  The code passes an [int]
    that may have become negative, which converts to such a size. *)
Variable libc_eoverflow : bool.

(** snprintf(buf, size, ...) for an already formatted text [s]: at most
    [size - 1] characters and a NUL are stored; the length of the whole
    text is returned. *)
Definition snprintf (m : list ascii) (p : Z) (size : Z) (s : string)
  : result (list ascii * Z) :=
  let n := size_t size in
  let len := Z.of_nat (String.length s) in
  if libc_eoverflow && (INT_MAX <? n) then Ok (m, -1)
  else if n =? 0 then Ok (m, len)
  else
    m' ← store_bytes m p (take (Z.to_nat (Z.min len (n - 1))) (bytes s) ++ [NUL]);
    Ok (m', len).
End libc.

(** printf conversions. *)
Definition fmt_unsigned (z : Z) : string :=
  NilEmpty.string_of_uint (N.to_uint (Z.to_N z)).
Definition fmt_signed (z : Z) : string :=
  if z <? 0 then String "-" (fmt_unsigned (- z)) else fmt_unsigned z.
(** "%*s" applied to the empty string. *)
Definition fmt_pad (width : Z) : string :=
  string_of_list_ascii (replicate (Z.to_nat width) SP).
(** "%s" of a possibly NULL pointer, as glibc and musl print it. *)
Definition fmt_str (s : option string) : string :=
  match s with Some s => s | None => "(null)" end.

(* ================================================================== *)
(** ** Netlink attributes (libnl) *)

(** An attribute is a type tag with a payload.  On the wire a container is
    an attribute whose payload is a stream of attributes; the embedding
    keeps that stream parsed. *)
Inductive nlattr : Type :=
| Nla (type : nat) (payload : string)
| NlaNested (type : nat) (attrs : list nlattr).

Definition nla_type (a : nlattr) : nat :=
  match a with Nla t _ | NlaNested t _ => t end.

(** The payload bytes of a leaf; the byte image of a container is not
    modelled. *)
Definition nla_data (a : nlattr) : string :=
  match a with Nla _ d => d | NlaNested _ _ => EmptyString end.

(** The attribute stream iterated by nla_for_each_nested. *)
Definition nla_nested_attrs (a : nlattr) : list nlattr :=
  match a with Nla _ _ => [] | NlaNested _ l => l end.

Fixpoint nla_depth (a : nlattr) : nat :=
  match a with
  | Nla _ _ => O
  | NlaNested _ l => S (foldr (fun x acc => Nat.max (nla_depth x) acc) O l)
  end.

Definition attrs_depth (l : list nlattr) : nat :=
  foldr (fun x acc => Nat.max (nla_depth x) acc) O l.

Definition tb_depth (tb : list (option nlattr)) : nat :=
  foldr (fun x acc => Nat.max (from_option nla_depth O x) acc) O tb.

(** Attribute data types. *)
Definition NLA_U16 : Z := 2.
Definition NLA_U32 : Z := 3.
Definition NLA_U64 : Z := 4.
Definition NLA_STRING : Z := 5.
Definition NLA_NESTED : Z := 8.
Definition NLA_NUL_STRING : Z := 10.
Definition NLA_S16 : Z := 13.
Definition NLA_S32 : Z := 14.
Definition NLA_S64 : Z := 15.

(** Little-endian integer in the first [w] bytes of a payload (a payload
    shorter than [w] reads as zero-extended). *)
Fixpoint le_uint (w : nat) (d : list ascii) : Z :=
  match w, d with
  | S w', c :: d' => Z.of_N (N_of_ascii c) + 256 * le_uint w' d'
  | _, _ => 0
  end.

Fixpoint le_bytes (w : nat) (v : Z) : list ascii :=
  match w with
  | O => []
  | S w' => ascii_of_N (Z.to_N (v mod 256)) :: le_bytes w' (v / 256)
  end.

Definition nla_len (a : nlattr) : nat := String.length (nla_data a).

Definition nla_get_u16 (a : nlattr) : Z := le_uint 2 (bytes (nla_data a)).
Definition nla_get_u32 (a : nlattr) : Z := le_uint 4 (bytes (nla_data a)).
Definition nla_get_u64 (a : nlattr) : Z := le_uint 8 (bytes (nla_data a)).
Definition nla_get_string (a : nlattr) : string := c_str (nla_data a).
Definition nla_strdup (a : nlattr) : string := c_str (nla_data a).

(** The two getters the file defines itself. *)
Definition nla_get_s32 (nla : nlattr) : Z :=
  wrap_signed 32 (le_uint 4 (bytes (nla_data nla))).

Definition nla_get_s64 (nla : option nlattr) : Z :=
  match nla with
  | Some a => if (8 <=? nla_len a)%nat
              then wrap_signed 64 (le_uint 8 (bytes (nla_data a)))
              else 0
  | None => 0
  end.

(** What a sender puts on the wire. *)
Definition nla_put_u16 (t : nat) (v : Z) : nlattr :=
  Nla t (string_of_list_ascii (le_bytes 2 v)).
Definition nla_put_u32 (t : nat) (v : Z) : nlattr :=
  Nla t (string_of_list_ascii (le_bytes 4 v)).
Definition nla_put_string (t : nat) (s : string) : nlattr :=
  Nla t (s +:+ String NUL EmptyString).

(** Policy validation of one attribute: the minimal payload length of the
    expected type, and the terminating NUL of an NLA_STRING.  A container
    is accepted where the expected type puts no constraint on the payload. *)
Definition nla_attr_minlen (pt : Z) : nat :=
  if pt =? NLA_U16 then 2
  else if pt =? NLA_U32 then 4
  else if pt =? NLA_U64 then 8
  else if pt =? NLA_STRING then 1
  else 0.

Definition validate_nla (pt : Z) (a : nlattr) : bool :=
  match a with
  | Nla _ d =>
      (nla_attr_minlen pt <=? String.length d)%nat &&
      (negb (pt =? NLA_STRING) ||
       match last (bytes d) with Some c => Ascii.eqb c NUL | None => false end)
  | NlaNested _ _ => (nla_attr_minlen pt =? 0)%nat
  end.

(** nla_parse: the table of the attributes of a stream, indexed by type.
    [policy] is the array of expected types and [len] the length of the
    table the caller declares; attributes of a type above [maxtype] are
    ignored, and storing an entry past the declared table is out of bounds.
    [None] is the error return of a failed validation.  (libnl clears
    [maxtype + 1] entries before it starts; where the caller declares only
    [maxtype] entries that store does not depend on the input and is left
    out of the model.) *)
Fixpoint nla_parse_attrs (maxtype : nat) (policy : list Z)
    (tb : list (option nlattr)) (l : list nlattr)
  : result (option (list (option nlattr))) :=
  match l with
  | [] => Ok (Some tb)
  | a :: l' =>
      if (maxtype <? nla_type a)%nat then nla_parse_attrs maxtype policy tb l'
      else if (length tb <=? nla_type a)%nat then Fault OutOfBounds
      else if validate_nla (default 0 (policy !! nla_type a)) a
           then nla_parse_attrs maxtype policy (<[nla_type a := Some a]> tb) l'
           else Ok None
  end.

Definition nla_parse (len maxtype : nat) (policy : list Z) (l : list nlattr)
  : result (option (list (option nlattr))) :=
  nla_parse_attrs maxtype policy (replicate len None) l.

Definition nla_parse_nested (len maxtype : nat) (nla : nlattr) (policy : list Z)
  : result (option (list (option nlattr))) :=
  nla_parse len maxtype policy (nla_nested_attrs nla).

(** A table entry; reading past the declared array is out of bounds. *)
Definition tb_get (tb : list (option nlattr)) (i : nat) : result (option nlattr) :=
  match tb !! i with
  | Some a => Ok a
  | None => Fault OutOfBounds
  end.

(** Callback verdicts of libnl. *)
Inductive nl_cb_action : Type := NL_OK | NL_SKIP | NL_STOP.

(* ================================================================== *)
(** ** The key table (linux/lnet/lnet-nl.h) *)

(** Modelled from the spec: the header lnet-nl.h is not part of the
    sources; the key format bits are those of the wire table of the spec
    (FLOW=1, SEQUENCE=2, MAPPING=4). *)
Definition LNKF_FLOW : Z := 1.
Definition LNKF_SEQUENCE : Z := 2.
Definition LNKF_MAPPING : Z := 4.

(** Modelled from the spec: the tags of a key record, numbered in the
    order of the wire table of the spec; 0 is the unspecified tag. *)
Definition LN_SCALAR_ATTR_LIST : nat := 1.
Definition LN_SCALAR_ATTR_LIST_SIZE : nat := 2.
Definition LN_SCALAR_ATTR_INDEX : nat := 3.
Definition LN_SCALAR_ATTR_NLA_TYPE : nat := 4.
Definition LN_SCALAR_ATTR_VALUE : nat := 5.
Definition LN_SCALAR_ATTR_KEY_FORMAT : nat := 6.
Definition LN_SCALAR_CNT : nat := 6.

Definition has_flag (v flag : Z) : bool := negb (Z.land v flag =? 0).

Record ln_key_props : Type := mk_key {
  lkp_values : option string;
  lkp_key_format : Z;
  lkp_data_type : Z;
}.

Record ln_key_list : Type := mk_key_list {
  lkl_maxattr : nat;
  lkl_list : list ln_key_props;
}.

(** struct yaml_nl_node.  The [list] link of the C struct is the position
    of the node in the [children] of its parent. *)
Record yaml_nl_node : Type := mk_node {
  children : list nat;
  keys : ln_key_list;
}.

Definition zero_key : ln_key_props := mk_key None 0 0.

(** calloc of a node with [cnt] key slots. *)
Definition calloc_node (cnt : nat) : yaml_nl_node :=
  mk_node [] (mk_key_list cnt (replicate cnt zero_key)).

Definition deref (heap : list (option yaml_nl_node)) (p : option nat)
  : result yaml_nl_node :=
  match p with
  | None => Fault NullDeref
  | Some a =>
      match heap !! a with
      | Some (Some n) => Ok n
      | Some None => Fault UseAfterFree
      | None => Fault OutOfBounds
      end
  end.

(** keys[i] of a node. *)
Definition key_at (n : yaml_nl_node) (i : nat) : result ln_key_props :=
  match lkl_list (keys n) !! i with
  | Some k => Ok k
  | None => Fault OutOfBounds
  end.

Definition set_key (n : yaml_nl_node) (i : nat) (k : ln_key_props) : yaml_nl_node :=
  mk_node (children n) (mk_key_list (lkl_maxattr (keys n)) (<[i := k]> (lkl_list (keys n)))).

Definition add_child (n : yaml_nl_node) (c : nat) : yaml_nl_node :=
  mk_node (children n ++ [c]) (keys n).

(** The attribute table policy of a key record.  *)
Definition scalar_attr_policy : list Z :=
  [0; NLA_NESTED; NLA_U16; NLA_U16; NLA_U16; NLA_STRING; NLA_U16].

(* ================================================================== *)
(** ** The reader session *)

Inductive yaml_error_type_t : Type :=
| YAML_NO_ERROR | YAML_MEMORY_ERROR | YAML_READER_ERROR | YAML_SCANNER_ERROR
| YAML_PARSER_ERROR | YAML_COMPOSER_ERROR | YAML_WRITER_ERROR | YAML_EMITTER_ERROR.

#[global] Instance yaml_error_eq_dec : EqDecision yaml_error_type_t.
Proof. solve_decision. Defined.

(** The fields of yaml_parser_t the code touches. *)
Record yaml_parser_t : Type := mk_parser {
  error : yaml_error_type_t;
  problem : option string;
  problem_offset : Z;
  problem_value : Z;
}.

(** A call of free(): a key string (node and slot) or a schema node. *)
Inductive free_event : Type :=
| FreeString (node : nat) (slot : nat)
| FreeNode (node : nat).

#[global] Instance free_event_eq_dec : EqDecision free_event.
Proof. solve_decision. Defined.

(** struct yaml_netlink_input.  [mem] is the memory between the pointer the
    YAML engine handed to the read handler and the end of its raw buffer;
    [buffer] is the write pointer as an offset into it.  [heap] is the
    arena the schema pointers [cur] and [root] refer to, and [freed] the
    calls of free() made on it so far, oldest first. *)
Record yaml_netlink_input : Type := mk_input {
  parser : yaml_parser_t;
  mem : list ascii;
  buffer : Z;
  errmsg : option string;
  complete : bool;
  indent : Z;
  cur : option nat;
  root : option nat;
  heap : list (option yaml_nl_node);
  freed : list free_event;
}.

Definition set_parser (d : yaml_netlink_input) (p : yaml_parser_t) :=
  mk_input p (mem d) (buffer d) (errmsg d) (complete d) (indent d) (cur d) (root d) (heap d) (freed d).
Definition set_mem (d : yaml_netlink_input) (m : list ascii) :=
  mk_input (parser d) m (buffer d) (errmsg d) (complete d) (indent d) (cur d) (root d) (heap d) (freed d).
Definition set_buffer (d : yaml_netlink_input) (b : Z) :=
  mk_input (parser d) (mem d) b (errmsg d) (complete d) (indent d) (cur d) (root d) (heap d) (freed d).
Definition set_errmsg (d : yaml_netlink_input) (e : option string) :=
  mk_input (parser d) (mem d) (buffer d) e (complete d) (indent d) (cur d) (root d) (heap d) (freed d).
Definition set_complete (d : yaml_netlink_input) (c : bool) :=
  mk_input (parser d) (mem d) (buffer d) (errmsg d) c (indent d) (cur d) (root d) (heap d) (freed d).
Definition set_indent (d : yaml_netlink_input) (i : Z) :=
  mk_input (parser d) (mem d) (buffer d) (errmsg d) (complete d) i (cur d) (root d) (heap d) (freed d).
Definition set_cur (d : yaml_netlink_input) (c : option nat) :=
  mk_input (parser d) (mem d) (buffer d) (errmsg d) (complete d) (indent d) c (root d) (heap d) (freed d).
Definition set_root (d : yaml_netlink_input) (r : option nat) :=
  mk_input (parser d) (mem d) (buffer d) (errmsg d) (complete d) (indent d) (cur d) r (heap d) (freed d).
Definition set_heap (d : yaml_netlink_input) (h : list (option yaml_nl_node)) :=
  mk_input (parser d) (mem d) (buffer d) (errmsg d) (complete d) (indent d) (cur d) (root d) h (freed d).
Definition set_freed (d : yaml_netlink_input) (l : list free_event) :=
  mk_input (parser d) (mem d) (buffer d) (errmsg d) (complete d) (indent d) (cur d) (root d) (heap d) l.

(** yaml_parser_set_reader_error *)
Definition yaml_parser_set_reader_error (parser : yaml_parser_t)
    (problem : string) (offset value : Z) : yaml_parser_t :=
  mk_parser YAML_READER_ERROR (Some problem) offset value.

(* ================================================================== *)
(** ** Schema intake: yaml_parse_key_list *)

Definition update_node (heap : list (option yaml_nl_node)) (p : nat)
    (f : yaml_nl_node -> yaml_nl_node) : result (list (option yaml_nl_node)) :=
  n ← deref heap (Some p);
  Ok (<[p := Some (f n)]> heap).

(** node->keys.lkl_list[index].field = value *)
Definition store_key (heap : list (option yaml_nl_node)) (p : nat) (i : nat)
    (f : ln_key_props -> ln_key_props) : result (list (option yaml_nl_node)) :=
  n ← deref heap (Some p);
  k ← key_at n i;
  Ok (<[p := Some (set_key n i (f k))]> heap).

Definition set_format (v : Z) (k : ln_key_props) : ln_key_props :=
  mk_key (lkp_values k) v (lkp_data_type k).
Definition set_data_type (v : Z) (k : ln_key_props) : ln_key_props :=
  mk_key (lkp_values k) (lkp_key_format k) v.
Definition set_values (v : option string) (k : ln_key_props) : ln_key_props :=
  mk_key v (lkp_key_format k) (lkp_data_type k).

(** How one pass through the body of the record loop ends. *)
Inductive key_step : Type :=
| KBreak (data : yaml_netlink_input)
| KReturn (rc : nl_cb_action) (data : yaml_netlink_input)
| KNext (node : option nat) (data : yaml_netlink_input).

Section key_list.
(** The recursive call on a nested LIST. *)
Variable rec : yaml_netlink_input -> option nat -> nlattr ->
               result (nl_cb_action * yaml_netlink_input).

(** The node allocation under LN_SCALAR_ATTR_LIST_SIZE. *)
Definition key_list_alloc (data : yaml_netlink_input) (parent : option nat)
    (cnt : nat) : result (nat * yaml_netlink_input) :=
  let node := length (heap data) in
  let data := set_heap data (heap data ++ [Some (calloc_node cnt)]) in
  let data := if root data is None then set_root data (Some node) else data in
  let data := if cur data is None then set_cur data (Some node) else data in
  match parent with
  | Some p =>
      h ← update_node (heap data) p (fun n => add_child n node);
      Ok (node, set_heap data h)
  | None => Ok (node, data)
  end.

Definition key_record (data : yaml_netlink_input) (parent : option nat)
    (node : option nat) (attr : nlattr) : result key_step :=
  tb ← nla_parse_nested (S LN_SCALAR_CNT) LN_SCALAR_CNT attr scalar_attr_policy;
  match tb with
  | None => Ok (KBreak data)
  | Some tbl_info =>
      list_size ← tb_get tbl_info LN_SCALAR_ATTR_LIST_SIZE;
      '(node, data) ←
        match list_size, node with
        | Some a, None =>
            let cnt := Z.to_nat (nla_get_u16 a + 1) in
            '(n, data) ← key_list_alloc data parent cnt;
            Ok (Some n, data)
        | _, _ => Ok (node, data)
        end;
      a_index ← tb_get tbl_info LN_SCALAR_ATTR_INDEX;
      let index := match a_index with Some a => nla_get_u16 a | None => 0 end in
      match node with
      | None => Ok (KReturn NL_STOP data)
      | Some n =>
          if index =? 0 then Ok (KReturn NL_STOP data)
          else
            a_format ← tb_get tbl_info LN_SCALAR_ATTR_KEY_FORMAT;
            h ← match a_format with
                | Some a => store_key (heap data) n (Z.to_nat index)
                              (set_format (nla_get_u16 a))
                | None => Ok (heap data)
                end;
            a_type ← tb_get tbl_info LN_SCALAR_ATTR_NLA_TYPE;
            h ← match a_type with
                | Some a => store_key h n (Z.to_nat index)
                              (set_data_type (nla_get_u16 a))
                | None => Ok h
                end;
            a_value ← tb_get tbl_info LN_SCALAR_ATTR_VALUE;
            h ← match a_value with
                | Some a => store_key h n (Z.to_nat index)
                              (set_values (Some (nla_strdup a)))
                | None => Ok h
                end;
            let data := set_heap data h in
            a_list ← tb_get tbl_info LN_SCALAR_ATTR_LIST;
            match a_list with
            | Some l =>
                '(rc, data) ← rec data (Some n) l;
                match rc with
                | NL_OK => Ok (KNext (Some n) data)
                | _ => Ok (KReturn rc data)
                end
            | None => Ok (KNext (Some n) data)
            end
      end
  end.

(** nla_for_each_nested(attr, list, rem) { ... }  return NL_OK; *)
Fixpoint key_records (data : yaml_netlink_input) (parent : option nat)
    (node : option nat) (l : list nlattr)
  : result (nl_cb_action * yaml_netlink_input) :=
  match l with
  | [] => Ok (NL_OK, data)
  | attr :: l' =>
      s ← key_record data parent node attr;
      match s with
      | KBreak data => Ok (NL_OK, data)
      | KReturn rc data => Ok (rc, data)
      | KNext node data => key_records data parent node l'
      end
  end.

Definition yaml_parse_key_list_body (data : yaml_netlink_input)
    (parent : option nat) (list : nlattr)
  : result (nl_cb_action * yaml_netlink_input) :=
  key_records data parent None (nla_nested_attrs list).
End key_list.

Fixpoint yaml_parse_key_list_fuel (fuel : nat) (data : yaml_netlink_input)
    (parent : option nat) (list : nlattr)
  : result (nl_cb_action * yaml_netlink_input) :=
  match fuel with
  | O => Timeout
  | S fuel' =>
      yaml_parse_key_list_body (yaml_parse_key_list_fuel fuel') data parent list
  end.

Definition yaml_parse_key_list (data : yaml_netlink_input)
    (parent : option nat) (list : nlattr)
  : result (nl_cb_action * yaml_netlink_input) :=
  yaml_parse_key_list_fuel (S (nla_depth list)) data parent list.

(** get_next_child: the [idx]-th entry of the children list, or NULL. *)
Fixpoint get_next_child_from (l : list nat) (idx i : nat) : option nat :=
  match l with
  | [] => None
  | child :: l' => if (idx =? i)%nat then Some child
                   else get_next_child_from l' idx (S i)
  end.

Definition get_next_child (node : yaml_nl_node) (idx : nat) : option nat :=
  get_next_child_from (children node) idx O.

(* ================================================================== *)
(** ** Value intake: yaml_parse_value_list *)

(** The locals of one activation that survive an iteration of the slot
    loop, with the caller's [*size] and the session. *)
Record vl_frame : Type := mk_frame {
  v_mapping : Z;
  v_child_idx : nat;
  v_len : Z;
  v_size : Z;
  v_data : yaml_netlink_input;
}.

Definition with_mapping (f : vl_frame) (m : Z) :=
  mk_frame m (v_child_idx f) (v_len f) (v_size f) (v_data f).
Definition with_child_idx (f : vl_frame) (c : nat) :=
  mk_frame (v_mapping f) c (v_len f) (v_size f) (v_data f).
Definition with_len (f : vl_frame) (l : Z) :=
  mk_frame (v_mapping f) (v_child_idx f) l (v_size f) (v_data f).
Definition with_size (f : vl_frame) (s : Z) :=
  mk_frame (v_mapping f) (v_child_idx f) (v_len f) s (v_data f).
Definition with_data (f : vl_frame) (d : yaml_netlink_input) :=
  mk_frame (v_mapping f) (v_child_idx f) (v_len f) (v_size f) d.

(** data->buffer += n; *size -= n; *)
Definition advance (f : vl_frame) (n : Z) : vl_frame :=
  with_size (with_data f (set_buffer (v_data f) (buffer (v_data f) + n)))
            (v_size f - n).

(** Where control goes after a part of the loop body. *)
Inductive ctl : Type :=
| Continue (f : vl_frame)      (* continue: next slot *)
| Fall (f : vl_frame)          (* fall through to the following statement *)
| GotoUnwind (f : vl_frame).   (* goto unwind *)

Section value_list.
Variable libc_eoverflow : bool.

(** The recursive call: session, [*size], attribute table, parent key
    (node and slot). *)
Variable rec : yaml_netlink_input -> Z -> list (option nlattr) -> nat * nat ->
               result (yaml_netlink_input * Z).

(** len = snprintf(data->buffer, *size, text) *)
Definition print (f : vl_frame) (text : string) : result vl_frame :=
  '(m, len) ← snprintf libc_eoverflow (mem (v_data f)) (buffer (v_data f))
                       (v_size f) text;
  Ok (with_len (with_data f (set_mem (v_data f) m)) len).

(** Lines 520-547: indentation and key of a scalar. *)
Definition scalar_prefix (k : ln_key_props) (attr : option nlattr)
    (f : vl_frame) : result ctl :=
  if negb (lkp_data_type k =? NLA_NUL_STRING) &&
     negb (lkp_data_type k =? NLA_NESTED) then
    match attr with
    | None => Ok (Continue f)
    | Some _ =>
        f ← (if negb (has_flag (v_mapping f) LNKF_FLOW) then
               let d := v_data f in
               let ind := if indent d =? 0 then 2 else indent d in
               m ← memset (mem d) (buffer d) SP ind;
               '(m, mapping) ←
                 (if has_flag (v_mapping f) LNKF_SEQUENCE then
                    m ← store_bytes m (buffer d + u32 (ind - 2)) ["-"%char];
                    Ok (m, if has_flag (v_mapping f) LNKF_MAPPING
                           then Z.land (v_mapping f) (Z.lnot LNKF_SEQUENCE)
                           else v_mapping f)
                  else Ok (m, v_mapping f));
               Ok (advance (with_mapping (with_data f (set_mem d m)) mapping)
                           ind)
             else Ok f);
        if has_flag (v_mapping f) LNKF_MAPPING then
          f ← print f (fmt_str (lkp_values k) +:+ ": ");
          if v_len f <? 0 then Ok (GotoUnwind f)
          else Ok (Fall (advance f (v_len f)))
        else Ok (Fall f)
    end
  else Ok (Fall f).

(** One element of a nested attribute (lines 569-623).  [ElemBreak] is
    the break out of nla_for_each_nested. *)
Inductive elem_step : Type :=
| ElemNext (f : vl_frame)
| ElemBreak (f : vl_frame)
| ElemUnwind (f : vl_frame).

Definition nested_elem (node i : nat) (num : nat) (nest_policy : list Z)
    (cnt_attr : nlattr) (f : vl_frame) : result elem_step :=
  tb ← nla_parse_nested num num cnt_attr nest_policy;
  match tb with
  | None => Ok (ElemBreak f)
  | Some nest_info =>
      n ← deref (heap (v_data f)) (Some node);
      k ← key_at n i;
      let flow := has_flag (lkp_key_format k) LNKF_FLOW in
      let ind :=
        if flow then 0
        else u16 ((if has_flag (lkp_key_format k) LNKF_MAPPING then 2 else 0) +
                  (if has_flag (lkp_key_format k) LNKF_SEQUENCE then 2 else 0)) in
      let text :=
        if flow then
          let brace := if has_flag (lkp_key_format k) LNKF_SEQUENCE
                       then "[" else "{" in
          fmt_pad (indent (v_data f)) +:+ fmt_str (lkp_values k) +:+ ": "
            +:+ brace +:+ " "
        else
          fmt_pad (indent (v_data f)) +:+ fmt_str (lkp_values k) +:+ ":"
            +:+ String LF EmptyString in
      f ← print f text;
      if v_len f <? 0 then Ok (ElemUnwind f)
      else
        let f := with_len (advance f (v_len f)) 0 in
        let d := v_data f in
        let d := set_indent d (u32 (indent d + ind)) in
        '(d, size) ← rec d (v_size f) nest_info (node, i);
        let d := set_indent d (u32 (indent d - ind)) in
        n ← deref (heap d) (Some node);
        k ← key_at n i;
        if has_flag (lkp_key_format k) LNKF_FLOW then
          let brace := if has_flag (lkp_key_format k) LNKF_SEQUENCE
                       then " ]" else " }" in
          m ← store_bytes (mem d) (buffer d - 2)
                (bytes (brace +:+ String LF EmptyString));
          let d := set_buffer (set_mem d m) (buffer d + 1) in
          Ok (ElemNext (with_size (with_data f d) (size - 1)))
        else Ok (ElemNext (with_size (with_data f d) size))
  end.

Fixpoint nested_elems (node i : nat) (num : nat) (nest_policy : list Z)
    (l : list nlattr) (f : vl_frame) : result elem_step :=
  match l with
  | [] => Ok (ElemNext f)
  | cnt_attr :: l' =>
      s ← nested_elem node i num nest_policy cnt_attr f;
      match s with
      | ElemNext f => nested_elems node i num nest_policy l' f
      | _ => Ok s
      end
  end.

(** case NLA_NESTED *)
Definition nested_case (node : nat) (n : yaml_nl_node) (i : nat)
    (attr : option nlattr) (f : vl_frame) : result ctl :=
  let next := get_next_child n (v_child_idx f) in
  let f := with_child_idx f (S (v_child_idx f)) in
  nx ← match next with
       | None => Fault NullChild
       | Some _ => deref (heap (v_data f)) next
       end;
  let num := lkl_maxattr (keys nx) in
  match attr with
  | None => Ok (Continue f)
  | Some a =>
      let nest_policy :=
        0 :: (lkp_data_type <$> drop 1 (take num (lkl_list (keys nx)))) in
      let old := cur (v_data f) in
      let f := with_data f (set_cur (v_data f) next) in
      s ← nested_elems node i num nest_policy (nla_nested_attrs a) f;
      match s with
      | ElemUnwind f => Ok (GotoUnwind f)
      | ElemNext f | ElemBreak f =>
          Ok (Fall (with_data f (set_cur (v_data f) old)))
      end
  end.

(** case NLA_NUL_STRING *)
Definition label_case (k : ln_key_props) (i : nat) (attr : option nlattr)
    (parent : nat * nat) (f : vl_frame) : result ctl :=
  if (i =? 1)%nat then
    c ← (if bool_decide (cur (v_data f) = root (v_data f)) then
           match lkp_values k with
           | None => Fault NullDeref
           | Some name =>
               c ← (if negb (String.length name =? 0)%nat then
                      f ← print f (name +:+ ":" +:+ String LF EmptyString);
                      if v_len f <? 0 then Ok (GotoUnwind f)
                      else Ok (Fall (with_len (advance f (v_len f)) 0))
                    else Ok (Fall f));
               match c with
               | Fall f =>
                   let m := v_mapping f in
                   let ind :=
                     if negb (has_flag m LNKF_FLOW) then
                       if has_flag m LNKF_SEQUENCE then 2
                       else if has_flag m LNKF_MAPPING then 2 else 0
                     else 0 in
                   Ok (Fall (with_data f (set_indent (v_data f) ind)))
               | _ => Ok c
               end
           end
         else Ok (Fall f));
    match c with
    | Fall f =>
        (* not_first: *)
        match attr with
        | None => Ok (Fall f)
        | Some a =>
            pn ← deref (heap (v_data f)) (Some parent.1);
            pk ← key_at pn parent.2;
            if lkp_values pk is Some _ then
              (* free(parent->lkp_values); parent->lkp_values = nla_strdup(attr) *)
              h ← store_key (heap (v_data f)) parent.1 parent.2
                    (set_values (Some (nla_strdup a)));
              let d := set_heap (v_data f) h in
              Ok (Fall (with_data f
                          (set_freed d (freed d ++ [FreeString parent.1 parent.2]))))
            else Ok (Fall f)
        end
    | _ => Ok c
    end
  else Ok (Fall f).

(** The scalar cases of the switch. *)
Definition scalar_text (type : Z) (attr : nlattr) : option string :=
  if type =? NLA_STRING then Some (nla_get_string attr)
  else if type =? NLA_U16 then Some (fmt_unsigned (u16 (nla_get_u16 attr)))
  else if type =? NLA_U32 then Some (fmt_unsigned (nla_get_u32 attr))
  else if type =? NLA_U64 then Some (fmt_unsigned (nla_get_u64 attr))
  else if type =? NLA_S16 then Some (fmt_signed (wrap_signed 16 (nla_get_u16 attr)))
  else if type =? NLA_S32 then Some (fmt_signed (nla_get_s32 attr))
  else if type =? NLA_S64 then Some (fmt_signed (nla_get_s64 (Some attr)))
  else None.

Definition scalar_case (k : ln_key_props) (attr : option nlattr)
    (f : vl_frame) : result ctl :=
  match attr with
  | None => Fault NullDeref
  | Some a =>
      match scalar_text (lkp_data_type k) a with
      | Some text => f ← print f text; Ok (Fall f)
      | None => Ok (Fall f)
      end
  end.

(** Lines 700-708: the separator after a value. *)
Definition separator (f : vl_frame) : result vl_frame :=
  if negb (v_len f =? 0) then
    let d := v_data f in
    '(m, len) ←
      (if has_flag (v_mapping f) LNKF_FLOW then
         m ← strcat (mem d) (buffer d) ", ";
         Ok (m, v_len f + 2)
       else
         m ← store_bytes (mem d) (buffer d + v_len f) [LF];
         Ok (m, v_len f + 1));
    Ok (mk_frame (v_mapping f) (v_child_idx f) len (v_size f + len)
                 (set_buffer (set_mem d m) (buffer d + len)))
  else Ok f.

(** Lines 710-712: unwind. *)
Definition unwind (f : vl_frame) : vl_frame :=
  let d := v_data f in
  mk_frame (v_mapping f) (v_child_idx f) (v_len f)
           (v_size f - u32 (indent d + 2))
           (set_buffer d (buffer d - u32 (indent d + 2))).

(** The body of the slot loop for slot [i]. *)
Definition value_slot (node : nat) (parent : nat * nat)
    (attr_array : list (option nlattr)) (i : nat) (f : vl_frame)
  : result vl_frame :=
  n ← deref (heap (v_data f)) (Some node);
  attr ← tb_get attr_array i;
  k ← key_at n i;
  if bool_decide (attr = None) && bool_decide (lkp_values k = None) then Ok f
  else
    c ← scalar_prefix k attr f;
    c ← match c with
        | Fall f =>
            if lkp_data_type k =? NLA_NESTED then nested_case node n i attr f
            else if lkp_data_type k =? NLA_NUL_STRING
                 then label_case k i attr parent f
                 else scalar_case k attr f
        | _ => Ok c
        end;
    match c with
    | Continue f => Ok f
    | Fall f => separator f
    | GotoUnwind f => Ok (unwind f)
    end.

(** for (i = 1; i < node->keys.lkl_maxattr; i++) *)
Fixpoint value_slots (node : nat) (parent : nat * nat)
    (attr_array : list (option nlattr)) (count : nat) (i : nat)
    (f : vl_frame) : result vl_frame :=
  match count with
  | O => Ok f
  | S count' =>
      f ← value_slot node parent attr_array i f;
      value_slots node parent attr_array count' (S i) f
  end.

Definition yaml_parse_value_list_body (data : yaml_netlink_input) (size : Z)
    (attr_array : list (option nlattr)) (parent : nat * nat)
  : result (yaml_netlink_input * Z) :=
  match cur data with
  | None => Fault NullDeref
  | Some node =>
      pn ← deref (heap data) (Some parent.1);
      pk ← key_at pn parent.2;
      n ← deref (heap data) (Some node);
      f ← value_slots node parent attr_array (lkl_maxattr (keys n) - 1)%nat 1
            (mk_frame (lkp_key_format pk) O 0 size data);
      Ok (v_data f, v_size f)
  end.
End value_list.

Fixpoint yaml_parse_value_list_fuel (libc_eoverflow : bool) (fuel : nat)
    (data : yaml_netlink_input) (size : Z) (attr_array : list (option nlattr))
    (parent : nat * nat) : result (yaml_netlink_input * Z) :=
  match fuel with
  | O => Timeout
  | S fuel' =>
      yaml_parse_value_list_body libc_eoverflow
        (yaml_parse_value_list_fuel libc_eoverflow fuel')
        data size attr_array parent
  end.

Definition yaml_parse_value_list (libc_eoverflow : bool)
    (data : yaml_netlink_input) (size : Z) (attr_array : list (option nlattr))
    (parent : nat * nat) : result (yaml_netlink_input * Z) :=
  yaml_parse_value_list_fuel libc_eoverflow (S (tb_depth attr_array))
    data size attr_array parent.

(* ================================================================== *)
(** ** Netlink messages and the callbacks of the reader *)

Definition NLMSG_ERROR : Z := 2.
Definition NLMSG_DONE : Z := 3.
Definition NLM_F_MULTI : Z := 2.
Definition NLM_F_ACK_TLVS : Z := 512.
Definition NLM_F_CREATE : Z := 1024.
Definition NLE_INTR : Z := 2.
Definition NLMSGERR_ATTR_MSG : nat := 1.
Definition NLMSGERR_ATTR_OFFS : nat := 2.
(** linux/netlink.h: the last extended-ack attribute type (3 in the headers
    that introduced extended acks; later headers count more). *)
Definition NLMSGERR_ATTR_MAX : nat := 3.
(** libnl: sizeof(struct nla_policy), a structure of three 16-bit fields. *)
Definition sizeof_nla_policy : nat := 6.

Record nlmsghdr : Type := mk_hdr {
  nlmsg_type : Z;
  nlmsg_flags : Z;
}.

(** A received message: its header, the attributes that follow the generic
    netlink header, and, for the completion callback, the [error] field of
    the struct nlmsgerr the payload is read as and the extended-ack
    attributes the kernel appended to that struct. *)
Record nl_msg : Type := mk_msg {
  nlmsg_hdr : nlmsghdr;
  genlmsg_attrs : list nlattr;
  nlmsgerr_error : Z;
  nlmsgerr_tlvs : list nlattr;
}.

(** genlmsg_parse on a well-formed generic netlink header. *)
Definition genlmsg_parse (msg : nl_msg) (len maxtype : nat) (policy : list Z)
  : result (option (list (option nlattr))) :=
  nla_parse len maxtype policy (genlmsg_attrs msg).

(** The clear of [maxtype + 1] table entries with which nla_parse starts,
    on a table declared with [len] entries.  A clear that ends one entry
    behind the table is the case of the note at [nla_parse]; one that runs
    further is a store outside the table. *)
Definition nla_clear (len maxtype : nat) : result unit :=
  if (len <? maxtype)%nat then Fault OutOfBounds else Ok ().

(** The attribute stream nlmsg_parse walks, [hdrlen] bytes into the payload
    of an error message.  The extended-ack attributes lie behind the struct
    nlmsgerr, so a header length that skips the struct reaches them; with
    [hdrlen] 0 the walk reads the struct itself as attributes, the first
    header being the error code, whose low 16 bits (those of a negative
    errno) announce more bytes than the message has: no attribute is
    found. *)
Definition nlmsg_attrdata (msg : nl_msg) (hdrlen : nat) : list nlattr :=
  if (hdrlen =? 0)%nat then [] else nlmsgerr_tlvs msg.

(** nlmsg_parse(nlh, hdrlen, tb, maxtype, policy), for a table [tb]
    declared with [len] entries. *)
Definition nlmsg_parse (msg : nl_msg) (hdrlen len maxtype : nat) (policy : list Z)
  : result (option (list (option nlattr))) :=
  _ ← nla_clear len maxtype;
  nla_parse len maxtype policy (nlmsg_attrdata msg hdrlen).

(** The policy array of the completion callback: NLMSGERR_ATTR_MAX + 1
    entries, with the types of the message and the offset attribute. *)
Definition extack_policy : list Z :=
  <[NLMSGERR_ATTR_OFFS := NLA_U32]>
    (<[NLMSGERR_ATTR_MSG := NLA_STRING]> (replicate (S NLMSGERR_ATTR_MAX) 0)).

Definition free (heap : list (option yaml_nl_node)) (p : nat)
  : result (list (option yaml_nl_node)) :=
  _ ← deref heap (Some p);
  Ok (<[p := None]> heap).

(** nl_list_del(&node->list): the node leaves the list it is linked in. *)
Definition nl_list_del (heap : list (option yaml_nl_node)) (p : nat)
  : list (option yaml_nl_node) :=
  (fun slot : option yaml_nl_node =>
     (fun n => mk_node (filter (fun c => c ≠ p) (children n)) (keys n)) <$> slot)
  <$> heap.

(** The free() calls of the key loop of cleanup_children. *)
Fixpoint free_key_strings (p : nat) (l : list ln_key_props) (i : nat)
  : list free_event :=
  match l with
  | [] => []
  | k :: l' =>
      (if lkp_values k is Some _ then [FreeString p i] else [])
      ++ free_key_strings p l' (S i)
  end.

Definition key_strings (p : nat) (n : yaml_nl_node) : list free_event :=
  free_key_strings p (drop 1 (take (lkl_maxattr (keys n)) (lkl_list (keys n)))) 1.

(** while ((child = get_next_child(parent, 0)) != NULL)
      if (cleanup_children(child)) free(child);
    with [rec] for the recursive call and a bound on the turns. *)
Fixpoint cleanup_while
    (rec : list (option yaml_nl_node) -> option nat ->
           result (bool * list (option yaml_nl_node) * list free_event))
    (parent : option nat) (turns : nat) (heap : list (option yaml_nl_node))
    (log : list free_event)
  : result (bool * list (option yaml_nl_node) * list free_event) :=
  match turns with
  | O => Timeout
  | S turns' =>
      n ← deref heap parent;
      match get_next_child n 0 with
      | None => Ok (false, heap, log)
      | Some child =>
          '(r, heap, log') ← rec heap (Some child);
          if (r : bool) then
            heap ← free heap child;
            cleanup_while rec parent turns' heap (log ++ log' ++ [FreeNode child])
          else cleanup_while rec parent turns' heap (log ++ log')
      end
  end.

(** cleanup_children.  The fuel bounds the depth of the recursion and the
    number of turns of the while loop. *)
Fixpoint cleanup_children_fuel (fuel : nat) (heap : list (option yaml_nl_node))
    (parent : option nat)
  : result (bool * list (option yaml_nl_node) * list free_event) :=
  match fuel with
  | O => Timeout
  | S fuel' =>
      n ← deref heap parent;
      match parent, children n with
      | Some p, [] => Ok (true, nl_list_del heap p, key_strings p n)
      | _, _ => cleanup_while (cleanup_children_fuel fuel') parent fuel' heap []
      end
  end.

Definition cleanup_children (heap : list (option yaml_nl_node))
    (parent : option nat)
  : result (bool * list (option yaml_nl_node) * list free_event) :=
  cleanup_children_fuel (2 * length heap + 2) heap parent.

Section session.
Variable libc_eoverflow : bool.
(** Whether the build defines HAVE_USRSPC_NLMSGERR. *)
Variable have_usrspc_nlmsgerr : bool.
(** libnl's translation of error codes. *)
Variable nl_syserr2nlerr : Z -> Z.
Variable nl_geterror : Z -> string.

(** The CB_VALID callback. *)
Definition yaml_netlink_msg_parse (msg : nl_msg) (data : yaml_netlink_input)
  : result (nl_cb_action * yaml_netlink_input) :=
  let nlh := nlmsg_hdr msg in
  let verdict :=
    if has_flag (nlmsg_flags nlh) NLM_F_MULTI &&
       negb (nlmsg_type nlh =? NLMSG_DONE)
    then NL_OK else NL_STOP in
  if has_flag (nlmsg_flags nlh) NLM_F_CREATE then
    tb ← genlmsg_parse msg (S LN_SCALAR_CNT) (S LN_SCALAR_CNT) scalar_attr_policy;
    match tb with
    | None => Ok (NL_SKIP, data)
    | Some attrs =>
        a_list ← tb_get attrs LN_SCALAR_ATTR_LIST;
        match a_list with
        | Some l =>
            '(rc, data) ← yaml_parse_key_list data None l;
            match rc with
            | NL_OK => Ok (verdict, set_cur data (root data))
            | _ => Ok (rc, data)
            end
        | None => Ok (verdict, data)
        end
    end
  else
    n ← deref (heap data) (cur data);
    let maxtype := Z.to_nat (u16 (Z.of_nat (lkl_maxattr (keys n)))) in
    let policy :=
      0 :: (lkp_data_type <$> drop 1 (take maxtype (lkl_list (keys n)))) in
    tb ← genlmsg_parse msg maxtype maxtype policy;
    match tb with
    | None => Ok (NL_SKIP, data)
    | Some attrs =>
        let size := Z.of_nat (length (mem data)) - buffer data in
        match cur data with
        | None => Fault NullDeref
        | Some c =>
            '(data, _) ← yaml_parse_value_list libc_eoverflow data size attrs (c, 1%nat);
            Ok (verdict, data)
        end
    end.

(** The CB_FINISH callback. *)
Definition yaml_netlink_msg_complete (msg : nl_msg) (data : yaml_netlink_input)
  : result (nl_cb_action * yaml_netlink_input) :=
  let nlh := nlmsg_hdr msg in
  data ←
    (if ((nlmsg_type nlh =? NLMSG_ERROR) ||
         has_flag (nlmsg_flags nlh) NLM_F_ACK_TLVS) &&
        negb (nlmsgerr_error msg =? 0) then
       let data :=
         set_errmsg data (Some (nl_geterror (nl_syserr2nlerr (nlmsgerr_error msg)))) in
       data ←
         (if have_usrspc_nlmsgerr && has_flag (nlmsg_flags nlh) NLM_F_ACK_TLVS then
            (* struct nlattr *tb[NLMSGERR_ATTR_MAX + 1];
               nlmsg_parse(nlh, 0, tb, sizeof(extack_policy), extack_policy) *)
            tb ← nlmsg_parse msg 0 (S NLMSGERR_ATTR_MAX)
                   (sizeof_nla_policy * length extack_policy) extack_policy;
            match tb with
            | Some tb =>
                a ← tb_get tb NLMSGERR_ATTR_MSG;
                match a with
                | Some a => Ok (set_errmsg data (Some (nla_get_string a)))
                | None => Ok data
                end
            | None => Ok data
            end
          else Ok data);
       let p := parser data in
       Ok (set_parser data (mk_parser YAML_READER_ERROR (problem p)
                              (problem_offset p) (problem_value p)))
     else
       '(_, h, log) ← cleanup_children (heap data) (root data);
       match root data with
       | None => Ok (set_freed (set_heap data h) (freed data ++ log))  (* free(NULL) *)
       | Some r =>
           h ← free h r;
           Ok (set_freed (set_heap data h) (freed data ++ log ++ [FreeNode r]))
       end);
  Ok (NL_STOP, set_complete data true).

(** What libnl does during one nl_recvmsgs_report: the callbacks it
    invokes, in order, and the code it returns.  A callback that answers
    NL_STOP ends the dispatch. *)
Inductive nl_event : Type :=
| CbValid (msg : nl_msg)
| CbFinish (msg : nl_msg).

Record nl_sock : Type := mk_sock {
  dispatched : list nl_event;
  recv_rc : Z;
}.

Fixpoint run_callbacks (evs : list nl_event) (data : yaml_netlink_input)
  : result yaml_netlink_input :=
  match evs with
  | [] => Ok data
  | ev :: evs' =>
      '(act, data) ← match ev with
                     | CbValid msg => yaml_netlink_msg_parse msg data
                     | CbFinish msg => yaml_netlink_msg_complete msg data
                     end;
      match act with
      | NL_STOP => Ok data
      | _ => run_callbacks evs' data
      end
  end.

Definition nl_recvmsgs_report (nl : nl_sock) (data : yaml_netlink_input)
  : result (Z * yaml_netlink_input) :=
  data ← run_callbacks (dispatched nl) data;
  Ok (recv_rc nl, data).

(** The read handler.  [buf] is the memory from the pointer the YAML
    engine passes to the end of its raw buffer, [size_read] the value
    of [*size_read] on entry; the result is the return value, the final
    [*size_read] and the session. *)
Definition yaml_netlink_read_handler (data : yaml_netlink_input) (nl : nl_sock)
    (buf : list ascii) (size : Z) (size_read : Z)
  : result (Z * Z * yaml_netlink_input) :=
  if complete data then Ok (1, 0, data)
  else
    let data := set_buffer (set_mem data buf) 0 in
    '(rc, data) ← nl_recvmsgs_report nl data;
    if rc =? - NLE_INTR then Ok (1, 0, data)
    else if rc <? 0 then Ok (0, size_read, set_errmsg data (Some (nl_geterror rc)))
    else if negb (bool_decide (error (parser data) = YAML_NO_ERROR))
         then Ok (0, size_read, data)
    else
      let rc := wrap_signed 32 (buffer data) in
      let size := if rc <? wrap_signed 32 size then size_t rc else size in
      Ok (1, size, data).

(** yaml_parser_get_reader_error, applied to parser->read_handler_data. *)
Definition yaml_parser_get_reader_error
    (read_handler_data : option yaml_netlink_input) : option string :=
  match read_handler_data with
  | None => None
  | Some buf => errmsg buf
  end.
End session.

(** The session calloc() returns in yaml_parser_set_input_netlink, once
    the parser is attached. *)
Definition new_input (p : yaml_parser_t) : yaml_netlink_input :=
  mk_input p [] 0 None false 0 None None [] [].

(* ================================================================== *)
(** ** Outbound path: line classification *)

(** isspace in the C locale. *)
Definition isspace (c : ascii) : bool :=
  let n := N_of_ascii c in
  ((n =? 32) || ((9 <=? n) && (n <=? 13)))%N.

(** indent_level: the number of leading white-space characters. *)
Fixpoint indent_level (str : string) : nat :=
  match str with
  | String c tmp => if isspace c then S (indent_level tmp) else O
  | EmptyString => O
  end.

(** strchr(s, c) != NULL *)
Fixpoint strchr_found (s : string) (c : ascii) : bool :=
  match s with
  | EmptyString => false
  | String a s' => Ascii.eqb a c || strchr_found s' c
  end.

(** line + n, for n within the string. *)
Fixpoint string_skip (n : nat) (s : string) : string :=
  match n, s with
  | S n', String _ s' => string_skip n' s'
  | _, _ => s
  end.

(** strncmp(a, b, n) == 0 *)
Fixpoint strncmp_eq (a b : string) (n : nat) : bool :=
  match n with
  | O => true
  | S n' =>
      match a, b with
      | EmptyString, EmptyString => true
      | String c a', String c' b' => Ascii.eqb c c' && strncmp_eq a' b' n'
      | _, _ => false
      end
  end.

Definition LNKF_END : Z := 8.

(** yaml_format_type(emitter, line, &offset, prev): the format and the new
    value of [*offset].  [best_indent] is emitter->best_indent. *)
Definition yaml_format_type (best_indent : Z) (line : string) (offset : Z)
    (prev : Z) : Z * Z :=
  let indent := offset in
  if strchr_found line "{"%char || strchr_found line "["%char
  then (LNKF_FLOW, offset)
  else
    let new_indent := Z.of_nat (indent_level line) in
    if new_indent <? indent then (LNKF_END, u32 (indent - best_indent))
    else if strncmp_eq (string_skip (indent_level line) line) "- " 2
    then (LNKF_SEQUENCE, u32 (new_indent + best_indent))
    else if negb (indent =? new_indent) then
      if negb (prev =? LNKF_MAPPING) then (LNKF_MAPPING, new_indent)
      else (0, new_indent)
    else (0, offset).

(** The classification of a body line as the specification words it: the
    tests in the order FLOW, SEQUENCE, END, MAPPING, scalar, with the
    running base [offset]. *)
Definition spec_format_type (line : string) (offset : Z) : Z :=
  let new_indent := Z.of_nat (indent_level line) in
  if strchr_found line "{"%char || strchr_found line "["%char then LNKF_FLOW
  else if strncmp_eq (string_skip (indent_level line) line) "- " 2
  then LNKF_SEQUENCE
  else if new_indent <? offset then LNKF_END
  else if offset <? new_indent then LNKF_MAPPING
  else 0.

(* ================================================================== *)
(** ** Scenarios *)

(** A key record of a schema message. *)
Definition key_record_attr (list_size : option Z) (index type : Z)
    (name : string) (format : Z) (sub : option nlattr) : nlattr :=
  NlaNested 0
    ((if list_size is Some n then [nla_put_u16 LN_SCALAR_ATTR_LIST_SIZE n] else [])
     ++ [nla_put_u16 LN_SCALAR_ATTR_INDEX index;
         nla_put_u16 LN_SCALAR_ATTR_NLA_TYPE type;
         nla_put_string LN_SCALAR_ATTR_VALUE name;
         nla_put_u16 LN_SCALAR_ATTR_KEY_FORMAT format]
     ++ (if sub is Some l then [l] else [])).

Definition schema_msg (records : list nlattr) : nl_msg :=
  mk_msg (mk_hdr 16 (NLM_F_CREATE + NLM_F_MULTI))
         [NlaNested LN_SCALAR_ATTR_LIST records] 0 [].

Definition value_msg (attrs : list nlattr) : nl_msg :=
  mk_msg (mk_hdr 16 0) attrs 0 [].

Definition fresh_parser : yaml_parser_t := mk_parser YAML_NO_ERROR None 0 0.

(** S1: one level, the label "net" and the u32 key "mtu". *)
Definition s1_schema : nl_msg :=
  schema_msg [key_record_attr (Some 2) 1 NLA_NUL_STRING "net" LNKF_MAPPING None;
              key_record_attr None 2 NLA_U32 "mtu" 0 None].

Definition s1_values : nl_msg := value_msg [nla_put_u32 2 9000].

Definition s1_text : string :=
  "net:" +:+ String LF ("  mtu: 9000" +:+ String LF EmptyString).

(** S5: a terminal message with an error code (-EINVAL) and the
    extended-ack text "invalid nid". *)
Definition s5_error : nl_msg :=
  mk_msg (mk_hdr NLMSG_DONE NLM_F_ACK_TLVS) [] (-22)
         [nla_put_string NLMSGERR_ATTR_MSG "invalid nid"].

(** A terminal message without error. *)
Definition done_msg : nl_msg := mk_msg (mk_hdr NLMSG_DONE 0) [] 0 [].

(** An error message (-EINVAL) without extended-ack attributes. *)
Definition plain_error : nl_msg := mk_msg (mk_hdr NLMSG_ERROR 0) [] (-22) [].

(** A flow container "k" with one string entry. *)
Definition flow_schema : nl_msg :=
  schema_msg [key_record_attr (Some 1) 1 NLA_NESTED "k" LNKF_FLOW
                (Some (NlaNested LN_SCALAR_ATTR_LIST
                         [key_record_attr (Some 1) 1 NLA_STRING "e" 0 None]))].

(** The text of the extended-ack message attribute the kernel appended
    to a message that flags extended-ack attributes. *)
Definition extack_text (msg : nl_msg) : option string :=
  if has_flag (nlmsg_flags (nlmsg_hdr msg)) NLM_F_ACK_TLVS then
    nla_get_string <$>
      last (filter (fun a => nla_type a = NLMSGERR_ATTR_MSG) (nlmsgerr_tlvs msg))
  else None.

(** The completion callback gets as far as the extended-ack attributes:
    the build reads them and the message flags them. *)
Definition reads_extack (have_usrspc_nlmsgerr : bool) (msg : nl_msg) : bool :=
  have_usrspc_nlmsgerr && has_flag (nlmsg_flags (nlmsg_hdr msg)) NLM_F_ACK_TLVS.

(** A terminal message carries a kernel-reported error. *)
Definition kernel_error (msg : nl_msg) : Prop :=
  (nlmsg_type (nlmsg_hdr msg) = NLMSG_ERROR ∨
   has_flag (nlmsg_flags (nlmsg_hdr msg)) NLM_F_ACK_TLVS = true) ∧
  nlmsgerr_error msg ≠ 0.

(** The callbacks of [evs] run from [d] to [d'] without one of them
    ending the dispatch. *)
Inductive reaches (libc_eoverflow have_usrspc_nlmsgerr : bool)
    (nl_syserr2nlerr : Z -> Z) (nl_geterror : Z -> string)
  : list nl_event -> yaml_netlink_input -> yaml_netlink_input -> Prop :=
| reaches_nil d :
    reaches libc_eoverflow have_usrspc_nlmsgerr nl_syserr2nlerr nl_geterror [] d d
| reaches_cons ev evs d d1 d2 act :
    match ev with
    | CbValid msg => yaml_netlink_msg_parse libc_eoverflow msg d
    | CbFinish msg =>
        yaml_netlink_msg_complete have_usrspc_nlmsgerr nl_syserr2nlerr nl_geterror msg d
    end = Ok (act, d1) ->
    act ≠ NL_STOP ->
    reaches libc_eoverflow have_usrspc_nlmsgerr nl_syserr2nlerr nl_geterror evs d1 d2 ->
    reaches libc_eoverflow have_usrspc_nlmsgerr nl_syserr2nlerr nl_geterror
      (ev :: evs) d d2.

(* ================================================================== *)
(** ** Schema-tree invariants *)

Definition key_types (n : yaml_nl_node) : list Z :=
  lkp_data_type <$> lkl_list (keys n).

(** The number of nested-typed keys in the slots 1 .. i-1 of a node. *)
Definition nested_keys (n : yaml_nl_node) (i : nat) : nat :=
  length (filter (fun t => t = NLA_NESTED) (drop 1 (take i (key_types n)))).

(** Invariant 2 of the schema tree: one child node for each nested-typed
    key of a node. *)
Definition schema_inv2 (n : yaml_nl_node) : Prop :=
  length (children n) = nested_keys n (lkl_maxattr (keys n)).

Definition heap_inv2 (h : list (option yaml_nl_node)) : Prop :=
  forall p n, h !! p = Some (Some n) -> schema_inv2 n.

(** The nodes named by the FreeNode entries of a log, in order. *)
Definition freed_nodes (log : list free_event) : list nat :=
  omap (fun e => match e with FreeNode p => Some p | FreeString _ _ => None end) log.

(** What value intake never changes: the shape of the schema (children,
    slot counts and data types of every node), the error state of the
    session and the schema nodes that have been freed. *)
Definition node_shape (n : yaml_nl_node) : list nat * nat * list Z :=
  (children n, lkl_maxattr (keys n), key_types n).

Definition heap_shape (h : list (option yaml_nl_node))
  : list (option (list nat * nat * list Z)) :=
  (fun slot : option yaml_nl_node => node_shape <$> slot) <$> h.

Definition sess_view (d : yaml_netlink_input) :=
  (heap_shape (heap d), errmsg d, parser d, complete d, freed_nodes (freed d)).

(** A result that is neither the dereference of a missing child node nor
    an exhausted fuel. *)
Definition vl_ok {A} (P : A -> Prop) (r : result A) : Prop :=
  match r with
  | Ok a => P a
  | Fault f => f ≠ NullChild
  | Timeout => False
  end.

Definition ctl_frame (c : ctl) : vl_frame :=
  match c with Continue f | Fall f | GotoUnwind f => f end.

(** What schema intake never changes. *)
Definition intake_view (d : yaml_netlink_input) :=
  (parser d, mem d, buffer d, errmsg d, complete d, indent d, freed d).

(** Schema intake from [d] to [d'] over the nodes [h0] that existed
    before: those nodes are kept as they are, pointers that were set stay,
    and nothing but the arena and unset pointers changes. *)
Definition intake_post (h0 : list (option yaml_nl_node))
    (d d' : yaml_netlink_input) : Prop :=
  h0 `prefix_of` heap d' ∧
  (root d ≠ None -> root d' = root d) ∧
  (cur d ≠ None -> cur d' = cur d) ∧
  intake_view d' = intake_view d.

(** A pointer to a node allocated after [h0], or NULL. *)
Definition fresh_ptr (h0 : list (option yaml_nl_node)) (p : option nat) : Prop :=
  match p with Some a => (length h0 <= a)%nat | None => True end.

(** A frame that continues [f]: same session view, same child count. *)
Definition follows (f f' : vl_frame) : Prop :=
  sess_view (v_data f') = sess_view (v_data f) ∧
  v_child_idx f' = v_child_idx f.

Definition elem_frame (s : elem_step) : vl_frame :=
  match s with ElemNext f | ElemBreak f | ElemUnwind f => f end.

Definition key_step_post (h0 : list (option yaml_nl_node))
    (d : yaml_netlink_input) (s : key_step) : Prop :=
  match s with
  | KBreak d' | KReturn _ d' => intake_post h0 d d'
  | KNext node d' => intake_post h0 d d' ∧ fresh_ptr h0 node
  end.

(** A key table that declares the nested key "k" without a level for it. *)
Definition childless_schema : nl_msg :=
  schema_msg [key_record_attr (Some 1) 1 NLA_NESTED "k" LNKF_MAPPING None].

(** The session once the messages [msgs] went through the CB_VALID
    callback, on a buffer of [n] zero bytes. *)
Definition session_after (libc_eoverflow : bool) (msgs : list nl_msg) (n : nat)
  : result yaml_netlink_input :=
  foldl (fun r msg => d ← r; '(_, d) ← yaml_netlink_msg_parse libc_eoverflow msg d; Ok d)
        (Ok (set_mem (new_input fresh_parser) (replicate n NUL))) msgs.

(* ================================================================== *)
(** ** The schema tree as a tree *)

(** A tree of node pointers. *)
Inductive ptree : Type := PT (p : nat) (kids : list ptree).

Definition pt_root (t : ptree) : nat := match t with PT p _ => p end.
Definition pt_kids (t : ptree) : list ptree := match t with PT _ kids => kids end.

Fixpoint pt_nodes (t : ptree) : list nat :=
  match t with
  | PT p kids => p :: foldr (fun k acc => pt_nodes k ++ acc) [] kids
  end.

Fixpoint postorder (t : ptree) : list nat :=
  match t with
  | PT p kids => foldr (fun k acc => postorder k ++ acc) [] kids ++ [p]
  end.

(** The arena holds the tree [t]: every node of [t] is live and its
    children list is the list of the roots of its subtrees. *)
Fixpoint shaped (h : list (option yaml_nl_node)) (t : ptree) : Prop :=
  match t with
  | PT p kids =>
      (exists n, h !! p = Some (Some n) ∧ children n = pt_root <$> kids) ∧
      foldr (fun k acc => shaped h k ∧ acc) True kids
  end.

Definition tree_at (h : list (option yaml_nl_node)) (t : ptree) : Prop :=
  shaped h t ∧ NoDup (pt_nodes t).

(** The arena once the nodes of [F] are freed and the nodes of [U] have
    left the children lists. *)
Definition strip (U : list nat) (n : yaml_nl_node) : yaml_nl_node :=
  mk_node (filter (fun c => c ∉ U) (children n)) (keys n).

Definition wipe (F U : list nat) (h : list (option yaml_nl_node))
  : list (option yaml_nl_node) :=
  imap (fun i (slot : option yaml_nl_node) =>
          if bool_decide (i ∈ F) then None else strip U <$> slot) h.

(** The free() calls for the key strings of node [p]. *)
Definition node_strings (h : list (option yaml_nl_node)) (p : nat)
  : list free_event :=
  match h !! p with
  | Some (Some n) => key_strings p n
  | _ => []
  end.

(** The free() calls that tear down the subtrees of the children of [t],
    and those that tear down [t] as a child of its parent. *)
Fixpoint kids_log (h : list (option yaml_nl_node)) (t : ptree) : list free_event :=
  match t with
  | PT p kids =>
      foldr (fun k acc => (kids_log h k ++ node_strings h (pt_root k)
                           ++ [FreeNode (pt_root k)]) ++ acc) [] kids
  end.

Definition subtree_log (h : list (option yaml_nl_node)) (t : ptree)
  : list free_event :=
  kids_log h t ++ node_strings h (pt_root t) ++ [FreeNode (pt_root t)].

(** The pointers below the root of [t]. *)
Definition descendants (t : ptree) : list nat :=
  foldr (fun k acc => pt_nodes k ++ acc) [] (pt_kids t).

(** A bound on the fuel cleanup_children needs on [t]. *)
Fixpoint cleanup_need (t : ptree) : nat :=
  match t with
  | PT p kids =>
      S (Nat.max (2 * length kids + 1)
                 (foldr (fun k acc => Nat.max (cleanup_need k) acc) O kids))
  end.

Definition nodes_of_kids (kids : list ptree) : list nat :=
  foldr (fun k acc => pt_nodes k ++ acc) [] kids.

Definition log_of_kids (h : list (option yaml_nl_node)) (kids : list ptree)
  : list free_event :=
  foldr (fun k acc => subtree_log h k ++ acc) [] kids.

(** What cleanup_children returns on the root of [t], in an arena [h]
    that holds [t] and from which [F] and [U] are already gone. *)
Definition cleanup_result (h : list (option yaml_nl_node)) (F U : list nat)
    (t : ptree) : bool * list (option yaml_nl_node) * list free_event :=
  match pt_kids t with
  | [] => (true, wipe F (U ++ [pt_root t]) h, node_strings h (pt_root t))
  | _ => (false, wipe (F ++ descendants t) (U ++ descendants t) h, kids_log h t)
  end.

Definition cleanup_spec (t : ptree) : Prop :=
  forall h F U fuel,
    shaped h t -> NoDup (pt_nodes t) ->
    (forall q, q ∈ pt_nodes t -> (q ∉ F) ∧ (q ∉ U)) ->
    (cleanup_need t <= fuel)%nat ->
    cleanup_children_fuel fuel (wipe F U h) (Some (pt_root t))
    = Ok (cleanup_result h F U t).

(** A key table of three levels: the root with the label "net" and the
    nested keys "a" and "c", a level under "a" with the nested key "b",
    and a level of one string key under "b" and under "c". *)
Definition deep_schema : nl_msg :=
  schema_msg
    [key_record_attr (Some 3) 1 NLA_NUL_STRING "net" LNKF_MAPPING None;
     key_record_attr None 2 NLA_NESTED "a" LNKF_MAPPING
       (Some (NlaNested LN_SCALAR_ATTR_LIST
                [key_record_attr (Some 1) 1 NLA_NESTED "b" 0
                   (Some (NlaNested LN_SCALAR_ATTR_LIST
                            [key_record_attr (Some 1) 1 NLA_STRING "x" 0 None]))]));
     key_record_attr None 3 NLA_NESTED "c" LNKF_MAPPING
       (Some (NlaNested LN_SCALAR_ATTR_LIST
                [key_record_attr (Some 1) 1 NLA_STRING "y" 0 None]))].

(** The tree its intake builds in a fresh arena. *)
Definition deep_tree : ptree := PT 0 [PT 1 [PT 2 []]; PT 3 []].

(** libnl's error translation, for the scenarios. *)
Definition demo_syserr2nlerr (e : Z) : Z := Z.abs e.
Definition demo_geterror (e : Z) : string := "Unspecific failure".

(** The write pointer stands at the end of [pre], with [rest] in front
    of it. *)
Definition at_frontier (d : yaml_netlink_input) (pre rest : list ascii) : Prop :=
  mem d = pre ++ rest ∧ buffer d = Z.of_nat (length pre).

(** The session without its buffer. *)
Definition sess_rest (d : yaml_netlink_input) :=
  (parser d, errmsg d, complete d, indent d, cur d, root d, heap d, freed d).

(** The node the key table of S1 builds. *)
Definition s1_node : yaml_nl_node :=
  mk_node [] (mk_key_list 3
    [zero_key; mk_key (Some "net") LNKF_MAPPING NLA_NUL_STRING;
     mk_key (Some "mtu") 0 NLA_U32]).

(** The frame of S1 once the label "net" is written into a buffer of 40
    bytes: the slot of "mtu" is next. *)
Definition s1_mtu_frame : vl_frame :=
  mk_frame LNKF_MAPPING 0 0 35
    (mk_input fresh_parser
       (bytes ("net:" +:+ String LF EmptyString) ++ repeat "x"%char 35)
       5 None false 2 (Some 0%nat) (Some 0%nat) [Some s1_node] []).

(** The two nodes the key table of [flow_schema] builds, and a value batch
    with one element holding the entry "v". *)
Definition flow_root : yaml_nl_node :=
  mk_node [1%nat] (mk_key_list 2 [zero_key; mk_key (Some "k") LNKF_FLOW NLA_NESTED]).
Definition flow_child : yaml_nl_node :=
  mk_node [] (mk_key_list 2 [zero_key; mk_key (Some "e") 0 NLA_STRING]).
Definition flow_attr : nlattr :=
  NlaNested 1 [NlaNested 0 [nla_put_string 1 "v"]].
Definition flow_values : nl_msg := value_msg [flow_attr].
Definition flow_frame : vl_frame :=
  mk_frame LNKF_FLOW 0 0 30
    (mk_input fresh_parser (repeat "x"%char 30) 0 None false 0
       (Some 0%nat) (Some 0%nat) [Some flow_root; Some flow_child] []).

(* ================================================================== *)
(** ** Outbound path: the write handler *)

(** The text of the C string at offset [p] of a buffer. *)
Definition string_at (m : list ascii) (p : Z) : result string :=
  n ← strlen_at m p;
  Ok (string_of_list_ascii (take (Z.to_nat n) (drop (Z.to_nat p) m))).

Fixpoint string_index (s : string) (c : ascii) : option nat :=
  match s with
  | EmptyString => None
  | String a s' => if Ascii.eqb a c then Some O else S <$> string_index s' c
  end.

(** strchr(p, c) for a character other than NUL; [None] is NULL. *)
Definition strchr (m : list ascii) (p : Z) (c : ascii) : result (option Z) :=
  s ← string_at m p;
  Ok ((fun i => p + Z.of_nat i) <$> string_index s c).

(** p != NULL *)
Definition non_null (p : option Z) : bool :=
  match p with Some _ => true | None => false end.

(** strsep(&stringp, delim) with a one-character delimiter: the memory,
    the new value of [*stringp] and the token. *)
Definition strsep (m : list ascii) (stringp : option Z) (delim : ascii)
  : result (list ascii * option Z * option Z) :=
  match stringp with
  | None => Ok (m, None, None)
  | Some p =>
      q ← strchr m p delim;
      match q with
      | Some q => m ← store_bytes m q [NUL]; Ok (m, Some (q + 1), Some p)
      | None => Ok (m, None, Some p)
      end
  end.

(** strcmp(p, lit) == 0 *)
Definition strcmp_eq (m : list ascii) (p : Z) (lit : string) : result bool :=
  s ← string_at m p;
  Ok (String.eqb s lit).

(** The byte at offset [p]. *)
Definition load_byte (m : list ascii) (p : Z) : result ascii :=
  if in_buffer m p 1 then
    match m !! Z.to_nat p with
    | Some c => Ok c
    | None => Fault OutOfBounds
    end
  else Fault OutOfBounds.

(** strndup(buffer, size): the bytes before the first NUL, at most [size]
    of them, and a terminator.  [buffer] is the memory from the pointer the
    emitter passes. *)
Definition strndup (buffer : list ascii) (size : Z) : result (list ascii) :=
  let n := Z.to_nat size in
  match strlen (take n buffer) with
  | Some k => Ok (take k buffer ++ [NUL])
  | None => if (n <=? length buffer)%nat then Ok (take n buffer ++ [NUL])
            else Fault OutOfBounds
  end.

(** The fields of yaml_emitter_t the code touches. *)
Record yaml_emitter_t : Type := mk_emitter {
  e_error : yaml_error_type_t;
  e_problem : option string;
  best_indent : Z;
}.

Definition yaml_emitter_set_writer_error (emitter : yaml_emitter_t)
    (problem : string) : yaml_emitter_t :=
  mk_emitter YAML_WRITER_ERROR (Some problem) (best_indent emitter).

(** struct yaml_netlink_output, without the socket. *)
Record yaml_netlink_output : Type := mk_output {
  emitter : yaml_emitter_t;
  family : string;
  family_id : Z;
  version : Z;
  cmd : Z;
  pid : Z;
  flags : Z;
}.

Definition set_emitter (out : yaml_netlink_output) (e : yaml_emitter_t) :=
  mk_output e (family out) (family_id out) (version out) (cmd out) (pid out)
            (flags out).

(** A message under construction (libnl): the header genlmsg_put stamps,
    the length of the message so far, and the attribute calls that built
    its body, in order. *)
Inductive nla_call : Type :=
| NestStart (attrtype : nat)
| PutString (attrtype : nat) (s : string)
| NestEnd.

Record nl_out_msg : Type := mk_out_msg {
  nm_port : Z;
  nm_family : Z;
  nm_flags : Z;
  nm_cmd : Z;
  nm_version : Z;
  nm_len : Z;
  nm_calls : list nla_call;
}.

(** What the handler asks of the socket. *)
Inductive nl_call : Type :=
| AddGroup (family group : string)
| SendAuto (msg : nl_out_msg)
| SendSimple (family cmd version flags : Z).

Definition NLMSG_HDRLEN : Z := 16.
Definition GENL_HDRLEN : Z := 4.
Definition NLA_HDRLEN : Z := 4.
Definition EINVAL : Z := 22.
Definition nl_align (n : Z) : Z := (n + 3) / 4 * 4.

(** The state of one call of the write handler: [*out], the copy of the
    text, the locals that live across iterations, and the calls made on the
    socket. *)
Record wh_state : Type := mk_wh {
  w_out : yaml_netlink_output;
  w_buf : list ascii;
  w_entry : option Z;
  w_fmt : Z;
  w_msg : option nl_out_msg;
  w_indent : Z;
  w_nogroups : bool;
  w_log : list nl_call;
}.

Definition wh_out (st : wh_state) (o : yaml_netlink_output) :=
  mk_wh o (w_buf st) (w_entry st) (w_fmt st) (w_msg st) (w_indent st)
        (w_nogroups st) (w_log st).
Definition wh_buf (st : wh_state) (b : list ascii) :=
  mk_wh (w_out st) b (w_entry st) (w_fmt st) (w_msg st) (w_indent st)
        (w_nogroups st) (w_log st).
Definition wh_entry (st : wh_state) (e : option Z) :=
  mk_wh (w_out st) (w_buf st) e (w_fmt st) (w_msg st) (w_indent st)
        (w_nogroups st) (w_log st).
Definition wh_fmt (st : wh_state) (f : Z) :=
  mk_wh (w_out st) (w_buf st) (w_entry st) f (w_msg st) (w_indent st)
        (w_nogroups st) (w_log st).
Definition wh_msg (st : wh_state) (m : option nl_out_msg) :=
  mk_wh (w_out st) (w_buf st) (w_entry st) (w_fmt st) m (w_indent st)
        (w_nogroups st) (w_log st).
Definition wh_indent (st : wh_state) (i : Z) :=
  mk_wh (w_out st) (w_buf st) (w_entry st) (w_fmt st) (w_msg st) i
        (w_nogroups st) (w_log st).
Definition wh_group (st : wh_state) (c : nl_call) :=
  mk_wh (w_out st) (w_buf st) (w_entry st) (w_fmt st) (w_msg st) (w_indent st)
        false (w_log st ++ [c]).
Definition wh_error (st : wh_state) (problem : string) :=
  wh_out st (set_emitter (w_out st)
               (yaml_emitter_set_writer_error (emitter (w_out st)) problem)).
Definition wh_memory_error (st : wh_state) :=
  wh_out st (set_emitter (w_out st)
               (mk_emitter YAML_MEMORY_ERROR (e_problem (emitter (w_out st)))
                           (best_indent (emitter (w_out st))))).

(** How the line loop of the write handler is left: past its end, or by a
    jump to the label nla_put_failure. *)
Inductive loop_exit : Type :=
| LoopDone (st : wh_state)
| LoopFailure (st : wh_state).

Definition wh_log_call (st : wh_state) (c : nl_call) :=
  mk_wh (w_out st) (w_buf st) (w_entry st) (w_fmt st) (w_msg st) (w_indent st)
        (w_nogroups st) (w_log st ++ [c]).
Definition wh_nogroups (st : wh_state) (b : bool) :=
  mk_wh (w_out st) (w_buf st) (w_entry st) (w_fmt st) (w_msg st) (w_indent st)
        b (w_log st).

(** How the line loop of yaml_create_nested_list is left: past its end,
    with the last line, or by a jump to its label nla_put_failure. *)
Inductive nested_exit : Type :=
| NestedEnd (st : wh_state) (line : option Z)
| NestedFailure (rc : Z) (st : wh_state).

Definition DQUOTE : ascii := "034"%char.
Definition SQUOTE : ascii := "039"%char.

(** One of the two loops of yaml_quotation_handling, for the quotation
    mark [q]: the buffer and the final [tmp]. *)
Fixpoint quotation_loop (fuel : nat) (q : ascii) (buf : list ascii) (tmp : Z)
  : result (list ascii * Z) :=
  match fuel with
  | O => Timeout
  | S fuel =>
      line ← strchr buf tmp q;
      match line with
      | None => Ok (buf, tmp)
      | Some line =>
          buf ← store_bytes buf line ["%"%char];
          buf ← store_bytes buf (line + 1) [SP];
          t ← strchr buf line q;
          match t with
          | None => Fault NullDeref
          | Some t =>
              let tmp := t - 1 in
              buf ← store_bytes buf tmp [SP];
              buf ← store_bytes buf (tmp + 1) ["%"%char];
              quotation_loop fuel q buf tmp
          end
      end
  end.

Definition yaml_quotation_handling (buf : list ascii) : result (list ascii) :=
  '(buf, tmp) ← quotation_loop (S (length buf)) DQUOTE buf 0;
  '(buf, _) ← quotation_loop (S (length buf)) SQUOTE buf tmp;
  Ok buf.

Section outbound.
(** libnl: the size nlmsg_alloc gives a message buffer (the page size by
    default) and whether the allocation succeeds. *)
Variable nm_size : Z.
Variable nlmsg_alloc_ok : bool.
(** The results of the calls on the socket. *)
Variable genl_ctrl_resolve_grp : string -> string -> Z.
Variable nl_socket_add_membership : Z -> Z.
Variable nl_send_auto : nl_out_msg -> Z.
Variable genl_send_simple : Z -> Z -> Z -> Z -> Z.
Variable nl_geterror : Z -> string.

Definition nlmsg_alloc : option nl_out_msg :=
  if nlmsg_alloc_ok then Some (mk_out_msg 0 0 0 0 0 NLMSG_HDRLEN []) else None.

Definition genlmsg_put (msg : nl_out_msg) (port family flags cmd version : Z)
  : option nl_out_msg :=
  if nm_size <? nm_len msg + GENL_HDRLEN then None
  else Some (mk_out_msg port family flags cmd version
                        (nm_len msg + GENL_HDRLEN) (nm_calls msg)).

(** nla_reserve: room for an attribute of [attrlen] payload bytes. *)
Definition nla_reserve (msg : nl_out_msg) (attrlen : Z) (c : nla_call)
  : option nl_out_msg :=
  let tlen := nl_align (nm_len msg) + nl_align (NLA_HDRLEN + attrlen) in
  if nm_size <? tlen then None
  else Some (mk_out_msg (nm_port msg) (nm_family msg) (nm_flags msg)
                        (nm_cmd msg) (nm_version msg) tlen
                        (nm_calls msg ++ [c])).

Definition nla_nest_start (msg : nl_out_msg) (attrtype : nat) :=
  nla_reserve msg 0 (NestStart attrtype).

(** The macro NLA_PUT_STRING; [None] is its jump to nla_put_failure. *)
Definition NLA_PUT_STRING (msg : nl_out_msg) (attrtype : nat) (s : string) :=
  nla_reserve msg (Z.of_nat (String.length s) + 1) (PutString attrtype s).

Definition nla_nest_end (msg : nl_out_msg) : nl_out_msg :=
  mk_out_msg (nm_port msg) (nm_family msg) (nm_flags msg) (nm_cmd msg)
             (nm_version msg) (nm_len msg) (nm_calls msg ++ [NestEnd]).

(** lustre_netlink_add_group(nl, family, group) *)
Definition lustre_netlink_add_group (family group : string) : Z :=
  let group_id := genl_ctrl_resolve_grp family group in
  if group_id <? 0 then group_id else nl_socket_add_membership group_id.

(** The loop over the entries of a flow container (lines 1035-1051): the
    buffer, the message, [*hdr], and whether every entry was added. *)
Fixpoint flow_entries (fuel : nat) (buf : list ascii) (msg : nl_out_msg)
    (hdr : option Z) : result (list ascii * nl_out_msg * option Z * bool) :=
  match fuel with
  | O => Timeout
  | S fuel =>
      '(buf, hdr, line) ← strsep buf hdr ","%char;
      match line with
      | None => Ok (buf, msg, hdr, true)
      | Some line =>
          a ← strchr buf line "{"%char;
          b ← strchr buf line "["%char;
          c ← strchr buf line SP;
          let line := if non_null a || non_null b || non_null c
                      then line + 1 else line in
          tmp ← strchr buf line "}"%char;
          tmp ← (if tmp is None then strchr buf line "]"%char else Ok tmp);
          buf ← (match tmp with
                 | Some t => store_bytes buf t [NUL]
                 | None => Ok buf
                 end);
          s ← string_at buf line;
          match NLA_PUT_STRING msg LN_SCALAR_ATTR_VALUE s with
          | None => Ok (buf, msg, hdr, false)
          | Some msg => flow_entries fuel buf msg hdr
          end
      end
  end.

(** yaml_create_nested_list(out, msg, hdr, entry, indent, fmt): the
    return value, the state and [*hdr].  [nested_lines] is its do-while
    loop, entered at the top ([None]) or at the label have_next_line. *)
Fixpoint yaml_create_nested_list (fuel : nat) (st : wh_state) (hdr : option Z)
    (fmt : Z) {struct fuel} : result (Z * wh_state * option Z) :=
  match fuel with
  | O => Timeout
  | S fuel =>
      match w_msg st with
      | None => Fault NullDeref
      | Some msg =>
          match nla_nest_start msg LN_SCALAR_ATTR_LIST with
          | None =>
              Ok (- EINVAL,
                  wh_error st "Emmitter netlink list creation failed", hdr)
          | Some msg =>
              if has_flag fmt LNKF_FLOW then
                '(buf, msg, hdr, ok) ←
                  flow_entries (S (length (w_buf st))) (w_buf st) msg hdr;
                let msg := if ok : bool then nla_nest_end msg else msg in
                Ok (0, wh_msg (wh_buf st buf) (Some msg), hdr)
              else
                match hdr with
                | None => Fault NullDeref
                | Some h =>
                    s ← string_at (w_buf st) (h + w_indent st);
                    match NLA_PUT_STRING msg LN_SCALAR_ATTR_VALUE s with
                    | None => Ok (0, wh_msg st (Some msg), hdr)
                    | Some msg =>
                        x ← nested_lines fuel (wh_msg st (Some msg)) fmt None;
                        match x with
                        | NestedEnd st line =>
                            Ok (0, wh_msg st (nla_nest_end <$> w_msg st), line)
                        | NestedFailure rc st => Ok (rc, st, hdr)
                        end
                    end
                end
          end
      end
  end
with nested_lines (fuel : nat) (st : wh_state) (fmt : Z)
    (pc : option (option Z)) {struct fuel} : result nested_exit :=
  match fuel with
  | O => Timeout
  | S fuel =>
      '(st, line) ←
        match pc with
        | Some line => Ok (st, line)
        | None =>
            '(buf, entry, line) ← strsep (w_buf st) (w_entry st) LF;
            Ok (wh_entry (wh_buf st buf) entry, line)
        end;
      (* have_next_line: *)
      match line with
      | None => Ok (NestedEnd st None)
      | Some l =>
          s ← string_at (w_buf st) l;
          if (String.length s =? 0)%nat || String.eqb s "..."
          then Ok (NestedEnd st line)
          else
            let '(fmt, indent) :=
              yaml_format_type (best_indent (emitter (w_out st))) s
                               (w_indent st) fmt in
            let st := wh_indent st indent in
            if fmt =? LNKF_END then Ok (NestedEnd st line)
            else if negb (fmt =? 0) then
              '(rc, st, line) ← yaml_create_nested_list fuel st line fmt;
              if negb (rc =? 0) then Ok (NestedFailure rc st)
              else nested_lines fuel st fmt (Some line)
            else
              v ← string_at (w_buf st) (l + w_indent st);
              match w_msg st with
              | None => Fault NullDeref
              | Some msg =>
                  match NLA_PUT_STRING msg LN_SCALAR_ATTR_VALUE v with
                  | None => Ok (NestedFailure 0 st)
                  | Some msg =>
                      let st := wh_msg st (Some msg) in
                      e ← strcmp_eq (w_buf st) l "";
                      if e : bool then Ok (NestedEnd st line)
                      else nested_lines fuel st fmt None
                  end
              end
      end
  end.

(** The body of the line loop of the write handler.  [loop st None] is
    the next evaluation of the loop condition, [loop st (Some line)] the
    jump to already_have_line; [fuel] bounds the nested lists. *)
Section line.
Variable fuel : nat.
Variable loop : wh_state -> option Z -> result loop_exit.

(** From the label complicated. *)
Definition complicated (st : wh_state) (line : Z) : result loop_exit :=
  let out := w_out st in
  let alloc :=
    match w_msg st with
    | Some _ => inl st
    | None =>
        match nlmsg_alloc with
        | None => inr (wh_memory_error st)
        | Some msg =>
            match genlmsg_put msg (pid out) (family_id out) (flags out)
                              (cmd out) (version out) with
            | None => inr (wh_memory_error st)
            | Some msg => inl (wh_msg st (Some msg))
            end
        end
    end in
  match alloc with
  | inr st => Ok (LoopFailure st)
  | inl st =>
      s ← string_at (w_buf st) line;
      let '(fmt, indent) :=
        yaml_format_type (best_indent (emitter out)) s (w_indent st)
                         (w_fmt st) in
      let st := wh_indent (wh_fmt st fmt) indent in
      if negb (fmt =? 0) then
        '(rc, st, line) ← yaml_create_nested_list fuel st (Some line) fmt;
        if negb (rc =? 0)
        then Ok (LoopFailure (wh_error st (nl_geterror rc)))
        else loop st line
      else
        v ← string_at (w_buf st) (line + w_indent st);
        match w_msg st with
        | None => Fault NullDeref
        | Some msg =>
            match NLA_PUT_STRING msg LN_SCALAR_ATTR_VALUE v with
            | None => Ok (LoopFailure st)
            | Some msg => loop (wh_msg st (Some msg)) None
            end
        end
  end.

(** From the label already_have_line. *)
Definition write_line (st : wh_state) (line : Z) : result loop_exit :=
  a ← strcmp_eq (w_buf st) line "---";
  b ← strcmp_eq (w_buf st) line "...";
  if a || b then loop st None
  else
    c ← load_byte (w_buf st) line;
    if negb (Ascii.eqb c SP) && negb (Ascii.eqb c "-"%char) then
      tmp ← strchr (w_buf st) line ":"%char;
      match tmp with
      | None => loop st None
      | Some tmp =>
          buf ← store_bytes (w_buf st) tmp [NUL];
          let st := wh_buf st buf in
          group ← string_at buf line;
          let rc := lustre_netlink_add_group (family (w_out st)) group in
          let st := wh_log_call st (AddGroup (family (w_out st)) group) in
          if rc <? 0
          then Ok (LoopFailure (wh_error st "Netlink group does not exist"))
          else
            let st := wh_nogroups st false in
            let line := tmp + 2 in
            a ← strchr buf line "{"%char;
            b ← strchr buf line "["%char;
            if non_null a || non_null b then complicated st line
            else loop st None
      end
    else complicated st line.
End line.

(** while (entry && strcmp(line = strsep(&entry, "\n"), "")) *)
Fixpoint write_loop (fuel : nat) (st : wh_state) (pc : option Z)
  : result loop_exit :=
  match fuel with
  | O => Timeout
  | S fuel =>
      match pc with
      | Some line => write_line fuel (write_loop fuel) st line
      | None =>
          match w_entry st with
          | None => Ok (LoopDone st)
          | Some _ =>
              '(buf, entry, line) ← strsep (w_buf st) (w_entry st) LF;
              let st := wh_entry (wh_buf st buf) entry in
              match line with
              | None => Fault NullDeref
              | Some line =>
                  e ← strcmp_eq (w_buf st) line "";
                  if e : bool then Ok (LoopDone st)
                  else write_line fuel (write_loop fuel) st line
              end
          end
      end
  end.

(** Lines 1213-1230: what follows the loop. *)
Definition write_tail (st : wh_state) : wh_state :=
  if w_nogroups st
  then wh_error st "Emitter contains no valid Netlink groups"
  else
    let out := w_out st in
    let '(rc, st) :=
      match w_msg st with
      | Some msg => (nl_send_auto msg, wh_log_call st (SendAuto msg))
      | None =>
          (genl_send_simple (family_id out) (cmd out) (version out) (flags out),
           wh_log_call st (SendSimple (family_id out) (cmd out) (version out)
                                      (flags out)))
      end in
    if rc <? 0 then wh_error st (nl_geterror rc) else st.

(** The locals of the write handler when the loop is first reached. *)
Definition write_start (out : yaml_netlink_output) (buf : list ascii)
  : wh_state :=
  mk_wh out buf (Some 0) 0 None 0 true [].

Definition write_fuel (buf : list ascii) : nat :=
  (2 * (length buf + Z.to_nat nm_size) + 4)%nat.

(** The lines of the text up to the end of the loop. *)
Definition write_lines (out : yaml_netlink_output) (buffer : list ascii)
    (size : Z) : result loop_exit :=
  buf ← strndup buffer size;
  buf ← yaml_quotation_handling buf;
  write_loop (write_fuel buf) (write_start out buf) None.

(** yaml_netlink_write_handler(data, buffer, size): the return value,
    [*out] and the calls made on the socket. *)
Definition yaml_netlink_write_handler (out : yaml_netlink_output)
    (buffer : list ascii) (size : Z)
  : result (Z * yaml_netlink_output * list nl_call) :=
  x ← write_lines out buffer size;
  let st := match x with
            | LoopDone st => write_tail st
            | LoopFailure st => st
            end in
  Ok (if bool_decide (e_error (emitter (w_out st)) = YAML_NO_ERROR)
      then 1 else 0,
      w_out st, w_log st).
End outbound.

(** The message of a state exists and has a body. *)
Definition built (st : wh_state) : Prop :=
  ∃ m, w_msg st = Some m ∧ nm_calls m ≠ [].

(** What a successful yaml_create_nested_list leaves as it was. *)
Definition same_session (st st' : wh_state) : Prop :=
  w_out st' = w_out st ∧ w_log st' = w_log st ∧ w_nogroups st' = w_nogroups st.

(** A call that joined a group of the family of [out]. *)
Definition group_added (resolve_grp : string -> string -> Z)
    (add_membership : Z -> Z) (out : yaml_netlink_output) (c : nl_call) : Prop :=
  ∃ g, c = AddGroup (family out) g ∧
       0 <= lustre_netlink_add_group resolve_grp add_membership (family out) g.

(** The invariant of the line loop of the write handler. *)
Definition loop_inv (resolve_grp : string -> string -> Z)
    (add_membership : Z -> Z) (out : yaml_netlink_output) (st : wh_state)
  : Prop :=
  w_out st = out ∧
  (w_nogroups st = true ↔ w_log st = []) ∧
  Forall (group_added resolve_grp add_membership out) (w_log st) ∧
  ∀ m, w_msg st = Some m → nm_calls m ≠ [].

(** What a nested list leaves behind when it reports no error. *)
Definition nested_post (st : wh_state) (x : nested_exit) : Prop :=
  match x with
  | NestedEnd st' _ => same_session st st' ∧ built st'
  | NestedFailure rc st' => rc = 0 → same_session st st' ∧ built st'
  end.

(** An outbound session of the family "lnet", and the state in which the
    line loop ends on the text "net:\n". *)
Definition demo_out : yaml_netlink_output :=
  mk_output (mk_emitter YAML_NO_ERROR None 2) "lnet" 7 1 3 100 0.
Definition net_only : string := "net:" +:+ String LF EmptyString.
Definition net_only_done : wh_state :=
  mk_wh demo_out (bytes "net" ++ [NUL; NUL; NUL]) None 0 None 0 false
        [AddGroup "lnet" "net"].

(** A frame on a node whose only key is nested and which has no child. *)
Definition childless_node : yaml_nl_node :=
  mk_node [] (mk_key_list 2 [zero_key; mk_key (Some "k") LNKF_MAPPING NLA_NESTED]).
Definition childless_frame : vl_frame :=
  mk_frame LNKF_MAPPING 0 0 30
    (mk_input fresh_parser (repeat "x"%char 30) 0 None false 0
       (Some 0%nat) (Some 0%nat) [Some childless_node] []).

(** The session once the key table of S1 is taken in, on the buffer
    [buf]. *)
Definition s1_session (buf : list ascii) : yaml_netlink_input :=
  mk_input fresh_parser buf 0 None false 0 (Some 0%nat) (Some 0%nat)
           [Some s1_node] [].

(** The bytes of the text the line loop has not consumed, the room left in
    the message, and the measure of the loops of the write handler: every
    turn of a loop consumes text or room. *)
Definition entry_left (st : wh_state) : nat :=
  match w_entry st with
  | Some p => Z.to_nat (Z.of_nat (length (w_buf st)) - p)
  | None => O
  end.

Definition room_left (nm_size : Z) (st : wh_state) : nat :=
  match w_msg st with
  | Some m => Z.to_nat (nm_size - nm_len m)
  | None => Z.to_nat nm_size
  end.

Definition potential (nm_size : Z) (st : wh_state) : nat :=
  (2 * entry_left st + room_left nm_size st)%nat.

(** The session [d] with the schema state (arena, root and cursor) of
    [s]. *)
Definition with_schema (d s : yaml_netlink_input) : yaml_netlink_input :=
  mk_input (parser d) (mem d) (buffer d) (errmsg d) (complete d) (indent d)
           (cur s) (root s) (heap s) (freed d).

Definition key_step_with_schema (d : yaml_netlink_input) (s : key_step) : key_step :=
  match s with
  | KBreak x => KBreak (with_schema d x)
  | KReturn rc x => KReturn rc (with_schema d x)
  | KNext node x => KNext node (with_schema d x)
  end.

Definition key_step_data (s : key_step) : yaml_netlink_input :=
  match s with KBreak d | KReturn _ d | KNext _ d => d end.

(** A key record that passes the policy and declares a level. *)
Definition declares_level (attr : nlattr) : Prop :=
  exists tbl a,
    nla_parse_nested (S LN_SCALAR_CNT) LN_SCALAR_CNT attr scalar_attr_policy
    = Ok (Some tbl) ∧
    tbl !! LN_SCALAR_ATTR_LIST_SIZE = Some (Some a).

(** The session of S1 once its key table and its value batch are taken in,
    on a buffer of 32 zero bytes. *)
Definition s1_served : yaml_netlink_input :=
  mk_input fresh_parser (bytes s1_text ++ replicate 15 NUL) 17 None false 2
           (Some 0%nat) (Some 0%nat) [Some s1_node] [].

(** The line of a flow container with one scalar entry, as value intake
    leaves it: [label] is "<indent><key>: ", [ename] the key of the entry
    (written when the container names its entries), [v] the text of the
    entry.  An entry with text is followed by ", ", over which the closing
    brace is copied; when the text is empty nothing follows the entry and
    the closing brace is copied over the two bytes before it. *)
Definition flow_line (seq named : bool) (label ename v : string) : string :=
  let opening := (if seq then "[" else "{") +:+ " " in
  let closing := (if seq then " ]" else " }") +:+ String LF EmptyString in
  if (String.length v =? 0)%nat then
    (if named then label +:+ opening +:+ ename else label) +:+ closing
  else
    label +:+ opening +:+ (if named then ename +:+ ": " else EmptyString)
      +:+ v +:+ closing.

(** A value batch for [flow_schema] whose entry is the empty string. *)
Definition flow_attr_empty : nlattr :=
  NlaNested 1 [NlaNested 0 [nla_put_string 1 EmptyString]].
Definition flow_values_empty : nl_msg := value_msg [flow_attr_empty].

(** The key table of a flow container "k" that names its entry "e". *)
Definition flow_schema_named : nl_msg :=
  schema_msg [key_record_attr (Some 1) 1 NLA_NESTED "k" (LNKF_FLOW + LNKF_MAPPING)
                (Some (NlaNested LN_SCALAR_ATTR_LIST
                         [key_record_attr (Some 1) 1 NLA_STRING "e" 0 None]))].

(** A value batch for S1 that carries a value for the label slot. *)
Definition s1_relabel : nl_msg :=
  value_msg [nla_put_string 1 "tcp"; nla_put_u32 2 9000].

(** What a sender puts on the wire for an integer of [w] bytes:
    little-endian, two's complement. *)
Definition nla_put_int (t : nat) (w : nat) (v : Z) : nlattr :=
  Nla t (string_of_list_ascii (le_bytes w v)).

(** The node a call of free() belongs to. *)
Definition event_node (e : free_event) : nat :=
  match e with FreeString p _ | FreeNode p => p end.

(** The session once the three-level key table is taken in, and its root
    node. *)
Definition deep_session : yaml_netlink_input :=
  Eval vm_compute in
    match session_after false [deep_schema] 32 with
    | Ok d => d
    | _ => new_input fresh_parser
    end.
Definition deep_root : yaml_nl_node :=
  Eval vm_compute in
    match heap deep_session !! 0%nat with
    | Some (Some n) => n
    | _ => calloc_node 0
    end.

(** The node a key table of one record builds: [n] + 1 slots, of which
    slot [i] holds the key of the record. *)
Definition single_key_node (n i type : Z) (name : string) (format : Z) : yaml_nl_node :=
  set_key (calloc_node (Z.to_nat (n + 1))) (Z.to_nat i) (mk_key (Some name) format type).

(** The session [data] once such a node is allocated behind its arena:
    root and cursor are set if there was no root, and the cursor is reset
    to the root. *)
Definition with_new_node (data : yaml_netlink_input) (node : yaml_nl_node)
  : yaml_netlink_input :=
  let r := if root data is Some r then Some r else Some (length (heap data)) in
  mk_input (parser data) (mem data) (buffer data) (errmsg data) (complete data)
           (indent data) r r (heap data ++ [Some node]) (freed data).

(** The frame of a block sequence of mappings in which the key "mtu" of
    S1 is next, at indentation 4 in a buffer of 40 bytes. *)
Definition s1_seq_frame : vl_frame :=
  mk_frame (LNKF_SEQUENCE + LNKF_MAPPING) 0 0 40
    (mk_input fresh_parser (repeat "x"%char 40) 0 None false 4
       (Some 0%nat) (Some 0%nat) [Some s1_node] []).

(* ================================================================== *)
(** ** Setting up the socket and the parser *)

Definition NLE_BAD_SOCK : Z := 3.
Definition ENOPROTOOPT : Z := 92.
Definition NETLINK_BROADCAST_ERROR : Z := 4.
Definition NETLINK_EXT_ACK : Z := 11.

(** What the setup calls change on the socket. *)
Inductive sock_call : Type :=
| DisableSeqCheck
| DisableAutoAck.

Section setup.
(** The results of the calls on the socket: genl_connect,
    nl_socket_get_fd, and setsockopt at level SOL_NETLINK for an option
    name, as its return value and the errno it leaves. *)
Variable genl_connect : Z.
Variable nl_socket_get_fd : Z.
Variable setsockopt : Z -> Z * Z.
Variable nl_syserr2nlerr : Z -> Z.
(** The results of nl_socket_modify_cb for NL_CB_VALID and NL_CB_FINISH,
    and whether calloc returns a session. *)
Variable modify_cb_valid : Z.
Variable modify_cb_finish : Z.
Variable calloc_ok : bool.

Definition nl_socket_enable_broadcast_error : Z :=
  if nl_socket_get_fd <? 0 then - NLE_BAD_SOCK
  else
    let '(err, errno) := setsockopt NETLINK_BROADCAST_ERROR in
    if err <? 0 then - nl_syserr2nlerr errno else 0.

Definition nl_socket_set_ext_ack : Z :=
  if nl_socket_get_fd <? 0 then - NLE_BAD_SOCK
  else
    let '(err, errno) := setsockopt NETLINK_EXT_ACK in
    if (err <? 0) && negb (errno =? ENOPROTOOPT) then - nl_syserr2nlerr errno
    else 0.

(** lustre_netlink_register: the return value and the calls made on the
    socket for asynchronous events. *)
Definition lustre_netlink_register (async_events : bool) : Z * list sock_call :=
  let rc := genl_connect in
  if rc <? 0 then (rc, [])
  else
    let rc := nl_socket_enable_broadcast_error in
    if rc <? 0 then (rc, [])
    else
      let rc := nl_socket_set_ext_ack in
      if rc <? 0 then (rc, [])
      else (rc, if async_events then [DisableSeqCheck; DisableAutoAck] else []).

(** yaml_parser_set_input_netlink on a parser that has no input yet: the
    return value, the parser, what parser->read_handler_data points to,
    and whether that session has been freed. *)
Record set_input : Type := mk_set_input {
  si_return : bool;
  si_parser : yaml_parser_t;
  si_handler_data : option yaml_netlink_input;
  si_freed : bool;
}.

Definition yaml_parser_set_input_netlink (reply : yaml_parser_t) (stream : bool)
  : set_input :=
  if negb calloc_ok then
    mk_set_input false
      (mk_parser YAML_MEMORY_ERROR (problem reply) (problem_offset reply)
                 (problem_value reply))
      None false
  else
    let rc := (lustre_netlink_register stream).1 in
    if rc <? 0 then
      (* goto failed: free(buf) *)
      mk_set_input false
        (yaml_parser_set_reader_error reply "netlink setup failed" 0 (- rc))
        None true
    else
      (* buf->parser = reply; yaml_parser_set_input(buf->parser, ..., buf) *)
      let buf := new_input reply in
      let rc := modify_cb_valid in
      if rc <? 0 then
        mk_set_input false
          (yaml_parser_set_reader_error reply "netlink msg recv setup failed" 0 (- rc))
          (Some buf) true
      else
        let rc := modify_cb_finish in
        if rc <? 0 then
          mk_set_input false
            (yaml_parser_set_reader_error reply "netlink msg cleanup setup failed"
                                          0 (- rc))
            (Some buf) true
        else mk_set_input true reply (Some buf) false.
End setup.

(* ================================================================== *)
(** * Properties *)

(* ------------------------------------------------------------------ *)
(** ** Line classification *)

Lemma yaml_format_type_flow best line offset prev :
  strchr_found line "{"%char || strchr_found line "["%char = true ->
  yaml_format_type best line offset prev = (LNKF_FLOW, offset).
Proof. intros H. unfold yaml_format_type. now rewrite H. Qed.

(** C8, as stated, fails: a line whose first characters after the indent
    are "- " is classified END, not SEQUENCE, when its indentation is
    below the running base; and a line indented deeper than the base is
    a plain scalar, not MAPPING, when the previous format is MAPPING. *)
Lemma C8_counterexample :
  (yaml_format_type 2 "- a" 2 0 = (LNKF_END, 0) ∧
   spec_format_type "- a" 2 = LNKF_SEQUENCE) ∧
  (yaml_format_type 2 "    k: v" 2 LNKF_MAPPING = (0, 4) ∧
   spec_format_type "    k: v" 2 = LNKF_MAPPING).
Proof. repeat split; reflexivity. Qed.

(** C8, amended: FLOW when the line has a brace or a bracket; otherwise
    END when the indentation is below the base (the base drops by
    best_indent); otherwise SEQUENCE when "- " follows the indent (the
    base becomes the indentation plus best_indent); otherwise, when the
    indentation exceeds the base, MAPPING unless the previous format is
    MAPPING, and a scalar when it is (the base becomes the indentation
    either way); otherwise a scalar with the base unchanged. *)
Theorem C8_format_type_cases (best : Z) (line : string) (offset prev : Z) :
  let brace := strchr_found line "{"%char || strchr_found line "["%char in
  let new_indent := Z.of_nat (indent_level line) in
  let entry := strncmp_eq (string_skip (indent_level line) line) "- " 2 in
  (brace = true ->
     yaml_format_type best line offset prev = (LNKF_FLOW, offset)) ∧
  (brace = false -> new_indent < offset ->
     yaml_format_type best line offset prev = (LNKF_END, u32 (offset - best))) ∧
  (brace = false -> offset <= new_indent -> entry = true ->
     yaml_format_type best line offset prev
     = (LNKF_SEQUENCE, u32 (new_indent + best))) ∧
  (brace = false -> offset < new_indent -> entry = false ->
     prev ≠ LNKF_MAPPING ->
     yaml_format_type best line offset prev = (LNKF_MAPPING, new_indent)) ∧
  (brace = false -> offset < new_indent -> entry = false ->
     prev = LNKF_MAPPING ->
     yaml_format_type best line offset prev = (0, new_indent)) ∧
  (brace = false -> offset = new_indent -> entry = false ->
     yaml_format_type best line offset prev = (0, offset)).
Proof.
  intros brace new_indent entry.
  unfold yaml_format_type. fold brace. fold new_indent. fold entry.
  repeat split.
  - intros ->. reflexivity.
  - intros -> Hlt. simpl.
    destruct (Z.ltb_spec new_indent offset); [reflexivity | lia].
  - intros -> Hle ->. simpl.
    destruct (Z.ltb_spec new_indent offset); [lia | reflexivity].
  - intros -> Hlt -> Hprev. simpl.
    destruct (Z.ltb_spec new_indent offset); [lia |].
    destruct (Z.eqb_spec offset new_indent); [lia |].
    destruct (Z.eqb_spec prev LNKF_MAPPING); [contradiction | reflexivity].
  - intros -> Hlt -> ->. simpl.
    destruct (Z.ltb_spec new_indent offset); [lia |].
    destruct (Z.eqb_spec offset new_indent); [lia | reflexivity].
  - intros -> Heq ->. simpl.
    destruct (Z.ltb_spec new_indent offset); [lia |].
    destruct (Z.eqb_spec offset new_indent); [reflexivity | lia].
Qed.

Lemma C8_format_type_cases_witness :
  yaml_format_type 2 "    k: v" 2 LNKF_MAPPING = (0, 4) ∧
  yaml_format_type 2 "- a" 2 0 = (LNKF_END, 0).
Proof.
  split.
  - apply (proj1 (proj2 (proj2 (proj2 (proj2
             (C8_format_type_cases 2 "    k: v" 2 LNKF_MAPPING))))));
      [reflexivity | simpl; lia | reflexivity | reflexivity].
  - apply (proj1 (proj2 (C8_format_type_cases 2 "- a" 2 0)));
      [reflexivity | simpl; lia].
Defined.

(** With libyaml's default best_indent of two, an entry line moves the
    base two columns past its indentation. *)
Example format_type_sequence_default :
  yaml_format_type 2 "  - nid: tcp1" 2 LNKF_MAPPING = (LNKF_SEQUENCE, 4).
Proof. reflexivity. Qed.

Example format_type_mapping :
  yaml_format_type 2 "  add:" 0 0 = (LNKF_MAPPING, 2).
Proof. reflexivity. Qed.

Example format_type_scalar :
  yaml_format_type 2 "    mtu: 9000" 4 LNKF_MAPPING = (0, 4).
Proof. reflexivity. Qed.

(* ------------------------------------------------------------------ *)
(** ** The reader callback *)

Lemma kernel_error_test msg :
  ((nlmsg_type (nlmsg_hdr msg) =? NLMSG_ERROR)
   || has_flag (nlmsg_flags (nlmsg_hdr msg)) NLM_F_ACK_TLVS)
  && negb (nlmsgerr_error msg =? 0) = true <-> kernel_error msg.
Proof.
  unfold kernel_error.
  rewrite andb_true_iff, orb_true_iff, negb_true_iff, Z.eqb_eq, Z.eqb_neq.
  reflexivity.
Qed.

Section reader.
Variable libc_eoverflow : bool.
Variable have_usrspc_nlmsgerr : bool.
Variable nl_syserr2nlerr : Z -> Z.
Variable nl_geterror : Z -> string.

Lemma run_callbacks_reaches evs rest d d1 :
  reaches libc_eoverflow have_usrspc_nlmsgerr nl_syserr2nlerr nl_geterror
          evs d d1 ->
  run_callbacks libc_eoverflow have_usrspc_nlmsgerr nl_syserr2nlerr nl_geterror
                (evs ++ rest) d
  = run_callbacks libc_eoverflow have_usrspc_nlmsgerr nl_syserr2nlerr nl_geterror
                  rest d1.
Proof.
  induction 1 as [|ev evs d d1 d2 act Hcb Hact _ IH]; [reflexivity|].
  simpl. rewrite Hcb. simpl. rewrite <- IH. now destruct act.
Qed.

Lemma read_handler_complete data nl buf size size_read :
  complete data = true ->
  yaml_netlink_read_handler libc_eoverflow have_usrspc_nlmsgerr nl_syserr2nlerr
    nl_geterror data nl buf size size_read = Ok (1, 0, data).
Proof. intros H. unfold yaml_netlink_read_handler. now rewrite H. Qed.

Lemma read_handler_interrupted data nl buf size size_read d' :
  complete data = false ->
  recv_rc nl = - NLE_INTR ->
  run_callbacks libc_eoverflow have_usrspc_nlmsgerr nl_syserr2nlerr nl_geterror
    (dispatched nl) (set_buffer (set_mem data buf) 0) = Ok d' ->
  yaml_netlink_read_handler libc_eoverflow have_usrspc_nlmsgerr nl_syserr2nlerr
    nl_geterror data nl buf size size_read = Ok (1, 0, d').
Proof.
  intros Hc Hrc Hrun. unfold yaml_netlink_read_handler, nl_recvmsgs_report.
  rewrite Hc, Hrun, Hrc. reflexivity.
Qed.

(** C2: with the completion flag set the read handler returns zero
    bytes and success and leaves the session as it is; when the
    receive primitive reports an interruption it returns zero bytes
    and success as well, with the session as the dispatched callbacks
    left it, so that an interruption that precedes every message
    leaves the error string, the parser and the completion flag
    untouched. *)
Theorem C2_read_complete_or_interrupted
    (data : yaml_netlink_input) (nl : nl_sock) (buf : list ascii)
    (size size_read : Z) :
  (complete data = true ->
     yaml_netlink_read_handler libc_eoverflow have_usrspc_nlmsgerr
       nl_syserr2nlerr nl_geterror data nl buf size size_read
     = Ok (1, 0, data)) ∧
  (complete data = false -> recv_rc nl = - NLE_INTR ->
     forall d',
       run_callbacks libc_eoverflow have_usrspc_nlmsgerr nl_syserr2nlerr
         nl_geterror (dispatched nl) (set_buffer (set_mem data buf) 0) = Ok d' ->
       yaml_netlink_read_handler libc_eoverflow have_usrspc_nlmsgerr
         nl_syserr2nlerr nl_geterror data nl buf size size_read
       = Ok (1, 0, d')) ∧
  (complete data = false -> recv_rc nl = - NLE_INTR -> dispatched nl = [] ->
     exists d',
       yaml_netlink_read_handler libc_eoverflow have_usrspc_nlmsgerr
         nl_syserr2nlerr nl_geterror data nl buf size size_read
       = Ok (1, 0, d') ∧
       errmsg d' = errmsg data ∧ parser d' = parser data ∧
       complete d' = false).
Proof.
  split; [apply read_handler_complete|].
  split.
  - intros Hc Hrc d' Hrun. now apply read_handler_interrupted.
  - intros Hc Hrc Hnil. eexists. split.
    + apply read_handler_interrupted; [assumption..|].
      rewrite Hnil. reflexivity.
    + now destruct data.
Qed.

Lemma msg_complete_error msg data :
  kernel_error msg ->
  reads_extack have_usrspc_nlmsgerr msg = false ->
  exists d',
    yaml_netlink_msg_complete have_usrspc_nlmsgerr nl_syserr2nlerr nl_geterror
      msg data = Ok (NL_STOP, d') ∧
    complete d' = true ∧
    error (parser d') = YAML_READER_ERROR ∧
    heap d' = heap data ∧ freed d' = freed data ∧
    errmsg d' = Some (nl_geterror (nl_syserr2nlerr (nlmsgerr_error msg))).
Proof.
  intros Hk Hx. apply kernel_error_test in Hk.
  unfold yaml_netlink_msg_complete. rewrite Hk.
  unfold reads_extack in Hx. rewrite Hx. simpl.
  eexists. split; [reflexivity|]. repeat split; reflexivity.
Qed.

(** The table of the completion callback has NLMSGERR_ATTR_MAX + 1
    entries and nlmsg_parse is told to clear sizeof(extack_policy) + 1. *)
Lemma extack_table_overrun msg :
  nlmsg_parse msg 0 (S NLMSGERR_ATTR_MAX) (sizeof_nla_policy * length extack_policy)
              extack_policy = Fault OutOfBounds.
Proof. reflexivity. Qed.

Lemma msg_complete_overrun msg data :
  kernel_error msg ->
  reads_extack have_usrspc_nlmsgerr msg = true ->
  yaml_netlink_msg_complete have_usrspc_nlmsgerr nl_syserr2nlerr nl_geterror
    msg data = Fault OutOfBounds.
Proof.
  intros Hk Hx. apply kernel_error_test in Hk.
  unfold yaml_netlink_msg_complete. rewrite Hk.
  unfold reads_extack in Hx. rewrite Hx, extack_table_overrun. reflexivity.
Qed.

Lemma read_handler_kernel_error data d1 nl evs msg buf size size_read :
  complete data = false ->
  kernel_error msg ->
  dispatched nl = evs ++ [CbFinish msg] ->
  reaches libc_eoverflow have_usrspc_nlmsgerr nl_syserr2nlerr nl_geterror evs
          (set_buffer (set_mem data buf) 0) d1 ->
  0 <= recv_rc nl ->
  if reads_extack have_usrspc_nlmsgerr msg then
    yaml_netlink_read_handler libc_eoverflow have_usrspc_nlmsgerr nl_syserr2nlerr
      nl_geterror data nl buf size size_read = Fault OutOfBounds
  else
    exists d',
      yaml_netlink_read_handler libc_eoverflow have_usrspc_nlmsgerr nl_syserr2nlerr
        nl_geterror data nl buf size size_read = Ok (0, size_read, d') ∧
      yaml_netlink_msg_complete have_usrspc_nlmsgerr nl_syserr2nlerr nl_geterror
        msg d1 = Ok (NL_STOP, d') ∧
      errmsg d' = Some (nl_geterror (nl_syserr2nlerr (nlmsgerr_error msg))) ∧
      error (parser d') = YAML_READER_ERROR ∧
      complete d' = true.
Proof.
  intros Hc Hk Hd Hreach Hrc.
  destruct (reads_extack have_usrspc_nlmsgerr msg) eqn:Hx.
  - unfold yaml_netlink_read_handler, nl_recvmsgs_report.
    rewrite Hc, Hd. erewrite run_callbacks_reaches by eassumption.
    simpl. now rewrite (msg_complete_overrun msg d1 Hk Hx).
  - destruct (msg_complete_error msg d1 Hk Hx)
      as (d' & Hm & Hcomp & Herr & _ & _ & Hmsg).
    exists d'. split; [|now repeat split].
    unfold yaml_netlink_read_handler, nl_recvmsgs_report.
    rewrite Hc, Hd. erewrite run_callbacks_reaches by eassumption.
    simpl. rewrite Hm. simpl.
    destruct (Z.eqb_spec (recv_rc nl) (- NLE_INTR)) as [E|_].
    { unfold NLE_INTR in E. lia. }
    destruct (Z.ltb_spec (recv_rc nl) 0); [lia|].
    rewrite Herr. reflexivity.
Qed.
End reader.

Lemma C2_read_complete_or_interrupted_witness :
  exists d',
    yaml_netlink_read_handler false true demo_syserr2nlerr demo_geterror
      (new_input fresh_parser) (mk_sock [] (- NLE_INTR)) [] 0 0 = Ok (1, 0, d') ∧
    errmsg d' = errmsg (new_input fresh_parser) ∧
    parser d' = parser (new_input fresh_parser) ∧
    complete d' = false.
Proof.
  apply (proj2 (proj2 (C2_read_complete_or_interrupted false true
                         demo_syserr2nlerr demo_geterror
                         (new_input fresh_parser) (mk_sock [] (- NLE_INTR))
                         [] 0 0)));
    reflexivity.
Defined.

(** C3: the text of an extended-ack attribute never becomes the error
    string of the session.  When the terminal message of a receive
    carries a kernel-reported error and the build reads extended acks
    (HAVE_USRSPC_NLMSGERR) from a message that flags them, the completion
    callback hands nlmsg_parse a table of NLMSGERR_ATTR_MAX + 1 entries
    with sizeof(extack_policy) as the highest type: the clear runs past
    the table and the read handler does not return.  In every other case
    the session stores the translation of the error code, also when the
    kernel sent a text; the parser is marked with a reader error, the
    read handler returns failure without touching [*size_read], and
    yaml_parser_get_reader_error returns the stored translation. *)
Theorem C3_extack_text_never_stored
    (libc_eoverflow have_usrspc_nlmsgerr : bool)
    (nl_syserr2nlerr : Z -> Z) (nl_geterror : Z -> string)
    (data d1 : yaml_netlink_input) (nl : nl_sock) (evs : list nl_event)
    (msg : nl_msg) (buf : list ascii) (size size_read : Z) :
  complete data = false ->
  kernel_error msg ->
  dispatched nl = evs ++ [CbFinish msg] ->
  reaches libc_eoverflow have_usrspc_nlmsgerr nl_syserr2nlerr nl_geterror evs
          (set_buffer (set_mem data buf) 0) d1 ->
  0 <= recv_rc nl ->
  let translation := nl_geterror (nl_syserr2nlerr (nlmsgerr_error msg)) in
  if reads_extack have_usrspc_nlmsgerr msg then
    yaml_netlink_read_handler libc_eoverflow have_usrspc_nlmsgerr nl_syserr2nlerr
      nl_geterror data nl buf size size_read = Fault OutOfBounds
  else
    exists d',
      yaml_netlink_read_handler libc_eoverflow have_usrspc_nlmsgerr nl_syserr2nlerr
        nl_geterror data nl buf size size_read = Ok (0, size_read, d') ∧
      errmsg d' = Some translation ∧
      error (parser d') = YAML_READER_ERROR ∧
      complete d' = true ∧
      yaml_parser_get_reader_error (Some d') = Some translation.
Proof.
  intros Hc Hk Hd Hreach Hrc translation.
  pose proof (read_handler_kernel_error libc_eoverflow have_usrspc_nlmsgerr
                nl_syserr2nlerr nl_geterror data d1 nl evs msg buf size size_read
                Hc Hk Hd Hreach Hrc) as H.
  destruct (reads_extack have_usrspc_nlmsgerr msg); [exact H|].
  destruct H as (d' & Hr & _ & He & Hp & Hcomp).
  exists d'. repeat split; assumption.
Qed.

Lemma C3_extack_text_never_stored_witness :
  extack_text s5_error = Some "invalid nid" ∧
  yaml_netlink_read_handler false true demo_syserr2nlerr demo_geterror
    (new_input fresh_parser)
    (mk_sock [CbValid s1_schema; CbFinish s5_error] 0)
    (repeat "x"%char 20) 20 0 = Fault OutOfBounds ∧
  exists d',
    yaml_netlink_read_handler false false demo_syserr2nlerr demo_geterror
      (new_input fresh_parser)
      (mk_sock [CbValid s1_schema; CbFinish s5_error] 0)
      (repeat "x"%char 20) 20 0 = Ok (0, 0, d') ∧
    errmsg d' = Some (demo_geterror 22) ∧
    error (parser d') = YAML_READER_ERROR ∧
    complete d' = true ∧
    yaml_parser_get_reader_error (Some d') = Some (demo_geterror 22).
Proof.
  split; [reflexivity|]. split.
  - apply (C3_extack_text_never_stored false true demo_syserr2nlerr demo_geterror
             (new_input fresh_parser) (s1_session (repeat "x"%char 20))
             (mk_sock [CbValid s1_schema; CbFinish s5_error] 0)
             [CbValid s1_schema] s5_error (repeat "x"%char 20) 20 0).
    + reflexivity.
    + split; [right; reflexivity | discriminate].
    + reflexivity.
    + eapply reaches_cons; [vm_compute; reflexivity | discriminate | constructor].
    + simpl. lia.
  - apply (C3_extack_text_never_stored false false demo_syserr2nlerr demo_geterror
             (new_input fresh_parser) (s1_session (repeat "x"%char 20))
             (mk_sock [CbValid s1_schema; CbFinish s5_error] 0)
             [CbValid s1_schema] s5_error (repeat "x"%char 20) 20 0).
    + reflexivity.
    + split; [right; reflexivity | discriminate].
    + reflexivity.
    + eapply reaches_cons; [vm_compute; reflexivity | discriminate | constructor].
    + simpl. lia.
Defined.

(* ------------------------------------------------------------------ *)
(** ** Value intake keeps the schema shape and never lacks a child *)

Lemma vl_ok_bind {A B} (P : A -> Prop) (Q : B -> Prop) (m : result A)
    (k : A -> result B) :
  vl_ok P m -> (forall a, P a -> vl_ok Q (k a)) -> vl_ok Q (m ≫= k).
Proof. destruct m; simpl; auto. Qed.

#[local] Arguments deref : simpl never.
#[local] Arguments key_at : simpl never.
#[local] Arguments tb_get : simpl never.
#[local] Arguments store_bytes : simpl never.
#[local] Arguments store_key : simpl never.
#[local] Arguments snprintf : simpl never.
#[local] Arguments strcat : simpl never.
#[local] Arguments print : simpl never.

Lemma bind_Ok {A B} (a : A) (k : A -> result B) : Ok a ≫= k = k a.
Proof. reflexivity. Qed.

Lemma bind_Fault {A B} (f : fault) (k : A -> result B) : Fault f ≫= k = Fault f.
Proof. reflexivity. Qed.

Lemma bind_Timeout {A B} (k : A -> result B) : Timeout ≫= k = Timeout.
Proof. reflexivity. Qed.

Lemma vl_ok_mono {A} (P Q : A -> Prop) (r : result A) :
  vl_ok P r -> (forall a, P a -> Q a) -> vl_ok Q r.
Proof. destruct r; simpl; auto. Qed.

Lemma store_bytes_ok m p bs : vl_ok (fun _ => True) (store_bytes m p bs).
Proof. unfold store_bytes. destruct (in_buffer _ _ _); simpl; auto; discriminate. Qed.

Lemma strcat_ok m p s : vl_ok (fun _ => True) (strcat m p s).
Proof.
  unfold strcat, strlen_at.
  destruct (in_buffer m p 0); simpl; [|discriminate].
  destruct (strlen _); simpl; [|discriminate]. apply store_bytes_ok.
Qed.

Lemma snprintf_ok e m p size s : vl_ok (fun _ => True) (snprintf e m p size s).
Proof.
  unfold snprintf. destruct (_ && _); simpl; auto.
  destruct (_ =? 0); simpl; auto.
  eapply vl_ok_bind; [apply store_bytes_ok|]. simpl. auto.
Qed.

Lemma deref_ok h p : vl_ok (fun n => exists a, p = Some a ∧ h !! a = Some (Some n)) (deref h p).
Proof.
  unfold deref. destruct p as [a|]; simpl; [|discriminate].
  destruct (h !! a) as [[n|]|] eqn:E; simpl; eauto; discriminate.
Qed.

Lemma key_at_ok n i :
  vl_ok (fun k => lkl_list (keys n) !! i = Some k) (key_at n i).
Proof. unfold key_at. destruct (_ !! i); simpl; auto; discriminate. Qed.

Lemma tb_get_ok tb i : vl_ok (fun a => tb !! i = Some a) (tb_get tb i).
Proof. unfold tb_get. destruct (_ !! i); simpl; auto; discriminate. Qed.

Lemma key_types_set_values n i k v :
  lkl_list (keys n) !! i = Some k ->
  node_shape (set_key n i (set_values v k)) = node_shape n.
Proof.
  intros H. unfold node_shape, key_types, set_key. simpl.
  rewrite list_fmap_insert. simpl.
  rewrite list_insert_id; [reflexivity|].
  rewrite list_lookup_fmap, H. reflexivity.
Qed.

Lemma heap_shape_insert h p n n' :
  h !! p = Some (Some n) -> node_shape n' = node_shape n ->
  heap_shape (<[p := Some n']> h) = heap_shape h.
Proof.
  intros H Hs. unfold heap_shape. rewrite list_fmap_insert. simpl. rewrite Hs.
  apply list_insert_id. rewrite list_lookup_fmap, H. reflexivity.
Qed.

Lemma store_key_values_ok h p i v :
  vl_ok (fun h' => heap_shape h' = heap_shape h)
        (store_key h p i (set_values v)).
Proof.
  unfold store_key.
  eapply vl_ok_bind; [apply deref_ok|]. intros n (a & [= <-] & Hn).
  eapply vl_ok_bind; [apply key_at_ok|]. intros k Hk. simpl.
  eapply heap_shape_insert; [eassumption|]. now apply key_types_set_values.
Qed.

Lemma nla_parse_attrs_ok maxtype policy tb l :
  vl_ok (fun _ => True) (nla_parse_attrs maxtype policy tb l).
Proof.
  revert tb. induction l as [|a l IH]; intros tb; simpl; auto.
  destruct (_ <? _)%nat; auto.
  destruct (_ <=? _)%nat; simpl; [discriminate|].
  destruct (validate_nla _ _); simpl; auto.
Qed.

Lemma tb_depth_insert tb i (a : nlattr) :
  (tb_depth (<[i := Some a]> tb) <= Nat.max (nla_depth a) (tb_depth tb))%nat.
Proof.
  revert i. induction tb as [|x tb IH]; intros i; simpl; [lia|].
  destruct i as [|i]; simpl.
  - unfold tb_depth. simpl. fold (tb_depth tb). lia.
  - specialize (IH i). unfold tb_depth in *. simpl. fold (tb_depth tb) in *.
    fold (tb_depth (<[i:=Some a]> tb)) in *. lia.
Qed.

Lemma nla_parse_attrs_depth maxtype policy tb l tb' :
  nla_parse_attrs maxtype policy tb l = Ok (Some tb') ->
  (tb_depth tb' <= Nat.max (tb_depth tb) (attrs_depth l))%nat.
Proof.
  revert tb. induction l as [|a l IH]; intros tb; simpl.
  - intros [= <-]. lia.
  - unfold attrs_depth. simpl. fold (attrs_depth l).
    destruct (_ <? _)%nat.
    { intros H. apply IH in H. lia. }
    destruct (_ <=? _)%nat; [discriminate|].
    destruct (validate_nla _ _); [|discriminate].
    intros H. apply IH in H. pose proof (tb_depth_insert tb (nla_type a) a). lia.
Qed.

Lemma tb_depth_replicate n : tb_depth (replicate n None) = O.
Proof. induction n; simpl; auto. Qed.

Lemma nla_parse_nested_depth len maxtype a policy tb :
  nla_parse_nested len maxtype a policy = Ok (Some tb) ->
  (tb_depth tb <= nla_depth a)%nat.
Proof.
  unfold nla_parse_nested, nla_parse. intros H.
  apply nla_parse_attrs_depth in H. rewrite tb_depth_replicate in H.
  destruct a; simpl in *; unfold attrs_depth in *; simpl in *; lia.
Qed.

Lemma nla_depth_elem (a c : nlattr) :
  c ∈ nla_nested_attrs a -> (nla_depth c < nla_depth a)%nat.
Proof.
  destruct a as [|t l]; simpl; [intros H; inversion H|].
  induction l as [|x l IH]; intros H; [inversion H|].
  simpl. apply elem_of_cons in H as [-> | H]; [lia|].
  apply IH in H. lia.
Qed.

Lemma tb_depth_lookup tb i (a : nlattr) :
  tb !! i = Some (Some a) -> (nla_depth a <= tb_depth tb)%nat.
Proof.
  revert i. induction tb as [|x tb IH]; intros i; [discriminate|].
  destruct i; simpl.
  - intros [= ->]. unfold tb_depth. simpl. lia.
  - intros H. apply IH in H. unfold tb_depth in *. simpl. lia.
Qed.

Lemma schema_inv2_shape n n' :
  node_shape n' = node_shape n -> schema_inv2 n -> schema_inv2 n'.
Proof.
  unfold node_shape, schema_inv2, nested_keys. intros [= Hc Hm Ht].
  now rewrite Hc, Hm, Ht.
Qed.

Lemma heap_shape_lookup h h' p n' :
  heap_shape h' = heap_shape h -> h' !! p = Some (Some n') ->
  exists n, h !! p = Some (Some n) ∧ node_shape n = node_shape n'.
Proof.
  intros Hs Hl.
  assert (heap_shape h !! p = Some (Some (node_shape n'))) as H.
  { rewrite <- Hs. unfold heap_shape. rewrite list_lookup_fmap, Hl. reflexivity. }
  unfold heap_shape in H. rewrite list_lookup_fmap in H.
  destruct (h !! p) as [[n|]|]; simpl in H; try discriminate.
  exists n. split; [reflexivity | congruence].
Qed.

Lemma heap_inv2_shape h h' :
  heap_shape h' = heap_shape h -> heap_inv2 h -> heap_inv2 h'.
Proof.
  intros Hs Hinv p n' Hl.
  destruct (heap_shape_lookup _ _ _ _ Hs Hl) as (n & Hn & Hsh).
  eapply schema_inv2_shape; [symmetry; eassumption|]. eapply Hinv; eassumption.
Qed.

Lemma sess_view_heap d d' :
  sess_view d' = sess_view d -> heap_shape (heap d') = heap_shape (heap d).
Proof. unfold sess_view. now intros [= -> _ _ _ _]. Qed.

Lemma get_next_child_from_lookup l idx i :
  (i <= idx)%nat -> get_next_child_from l idx i = l !! (idx - i)%nat.
Proof.
  revert i. induction l as [|c l IH]; intros i Hi; simpl; [reflexivity|].
  destruct (Nat.eqb_spec idx i) as [->|Hne].
  - now rewrite Nat.sub_diag.
  - rewrite IH by lia. replace (idx - i)%nat with (S (idx - S i)) by lia.
    reflexivity.
Qed.

Lemma get_next_child_lookup n idx : get_next_child n idx = children n !! idx.
Proof.
  unfold get_next_child. rewrite get_next_child_from_lookup by lia.
  now rewrite Nat.sub_0_r.
Qed.

Lemma nested_keys_step n i k :
  (1 <= i)%nat -> lkl_list (keys n) !! i = Some k ->
  nested_keys n (S i) =
  (nested_keys n i + if bool_decide (lkp_data_type k = NLA_NESTED) then 1 else 0)%nat.
Proof.
  intros Hi Hk. unfold nested_keys.
  assert (key_types n !! i = Some (lkp_data_type k)) as Ht.
  { unfold key_types. rewrite list_lookup_fmap, Hk. reflexivity. }
  rewrite (take_S_r _ _ _ Ht).
  rewrite drop_app_le.
  2:{ rewrite length_take. apply lookup_lt_Some in Ht. lia. }
  rewrite filter_app, length_app. f_equal.
  rewrite filter_cons. case_bool_decide; case_decide; simpl; congruence.
Qed.

Lemma nested_keys_mono n i j :
  (i <= j)%nat -> (nested_keys n i <= nested_keys n j)%nat.
Proof.
  intros Hij. unfold nested_keys.
  replace j with (i + (j - i))%nat by lia.
  rewrite <- take_take_drop, drop_app, filter_app, length_app. lia.
Qed.

Section value_list_invariants.
Variable libc_eoverflow : bool.
Variable rec : yaml_netlink_input -> Z -> list (option nlattr) -> nat * nat ->
               result (yaml_netlink_input * Z).
Variable bound : nat.
Hypothesis rec_ok : forall d size tb parent,
  (tb_depth tb < bound)%nat -> heap_inv2 (heap d) ->
  vl_ok (fun r => sess_view r.1 = sess_view d) (rec d size tb parent).

Lemma follows_refl f : follows f f.
Proof. split; reflexivity. Qed.

Lemma follows_trans f1 f2 f3 : follows f1 f2 -> follows f2 f3 -> follows f1 f3.
Proof. intros [? ?] [? ?]. split; congruence. Qed.

Lemma print_follows f text : vl_ok (follows f) (print libc_eoverflow f text).
Proof.
  unfold print. eapply vl_ok_bind; [apply snprintf_ok|].
  intros [m len] _. simpl. split; reflexivity.
Qed.

Lemma scalar_prefix_follows k attr f :
  vl_ok (fun c => follows f (ctl_frame c)) (scalar_prefix libc_eoverflow k attr f).
Proof.
  unfold scalar_prefix. destruct (_ && _); [|apply follows_refl].
  destruct attr as [a|]; [|apply follows_refl].
  eapply (vl_ok_bind (follows f)).
  - destruct (negb _); [|apply follows_refl].
    eapply vl_ok_bind; [apply store_bytes_ok|]. intros m _.
    eapply (vl_ok_bind (fun _ => True)).
    + destruct (has_flag _ LNKF_SEQUENCE); simpl; [|trivial].
      eapply vl_ok_bind; [apply store_bytes_ok|]. simpl. trivial.
    + intros [m' mapping] _. simpl. split; reflexivity.
  - intros f1 Hf1. destruct (has_flag _ LNKF_MAPPING); [|exact Hf1].
    eapply vl_ok_bind; [apply print_follows|]. intros f2 Hf2.
    destruct (_ <? 0); simpl.
    + eapply follows_trans; eassumption.
    + eapply follows_trans; [eassumption|].
      eapply follows_trans; [eassumption|]. split; reflexivity.
Qed.

Lemma scalar_case_follows k attr f :
  vl_ok (fun c => follows f (ctl_frame c)) (scalar_case libc_eoverflow k attr f).
Proof.
  unfold scalar_case. destruct attr as [a|]; [|discriminate].
  destruct (scalar_text _ _); [|apply follows_refl].
  eapply vl_ok_bind; [apply print_follows|]. intros f1 Hf1. exact Hf1.
Qed.

Lemma label_case_follows k i attr parent f :
  vl_ok (fun c => follows f (ctl_frame c))
        (label_case libc_eoverflow k i attr parent f).
Proof.
  unfold label_case. destruct (_ =? 1)%nat; [|apply follows_refl].
  eapply (vl_ok_bind (fun c => follows f (ctl_frame c))).
  - case_bool_decide; [|apply follows_refl].
    destruct (lkp_values k) as [name|]; [|discriminate].
    eapply (vl_ok_bind (fun c => follows f (ctl_frame c))).
    + destruct (negb _); [|apply follows_refl].
      eapply vl_ok_bind; [apply print_follows|]. intros f1 Hf1.
      destruct (_ <? 0); simpl; [exact Hf1|].
      eapply follows_trans; [eassumption|]. split; reflexivity.
    + intros [f1|f1|f1] Hf1; exact Hf1.
  - intros [f1|f1|f1] Hf1; try exact Hf1. lazy beta iota.
    destruct attr as [a|]; [|exact Hf1].
    eapply vl_ok_bind; [apply deref_ok|]. intros pn _.
    eapply vl_ok_bind; [apply key_at_ok|]. intros pk _.
    destruct (lkp_values pk); [|exact Hf1].
    eapply vl_ok_bind; [apply store_key_values_ok|]. intros h Hh. simpl.
    eapply follows_trans; [eassumption|]. split; [|reflexivity].
    unfold sess_view. simpl. rewrite Hh.
    unfold freed_nodes. rewrite omap_app. simpl. now rewrite app_nil_r.
Qed.

Lemma separator_follows f : vl_ok (follows f) (separator f).
Proof.
  unfold separator. destruct (negb _); [|apply follows_refl].
  eapply (vl_ok_bind (fun _ => True)).
  - destruct (has_flag _ _).
    + eapply vl_ok_bind; [apply strcat_ok|]. simpl. trivial.
    + eapply vl_ok_bind; [apply store_bytes_ok|]. simpl. trivial.
  - intros [m len] _. simpl. split; reflexivity.
Qed.

Lemma unwind_follows f : follows f (unwind f).
Proof. split; reflexivity. Qed.

Lemma nested_elem_follows node i num policy cnt_attr f :
  (nla_depth cnt_attr < bound)%nat ->
  heap_inv2 (heap (v_data f)) ->
  vl_ok (fun s => follows f (elem_frame s))
        (nested_elem libc_eoverflow rec node i num policy cnt_attr f).
Proof.
  intros Hdepth Hinv. unfold nested_elem.
  destruct (nla_parse_nested num num cnt_attr policy) as [[tb|]|flt|] eqn:Hp;
    rewrite ?bind_Ok, ?bind_Fault, ?bind_Timeout.
  2: apply follows_refl.
  2:{ pose proof (nla_parse_attrs_ok num policy (replicate num None)
                    (nla_nested_attrs cnt_attr)) as H.
      unfold nla_parse_nested, nla_parse in Hp. rewrite Hp in H. exact H. }
  2:{ pose proof (nla_parse_attrs_ok num policy (replicate num None)
                    (nla_nested_attrs cnt_attr)) as H.
      unfold nla_parse_nested, nla_parse in Hp. rewrite Hp in H. exact H. }
  apply nla_parse_nested_depth in Hp.
  eapply vl_ok_bind; [apply deref_ok|]. intros n _.
  eapply vl_ok_bind; [apply key_at_ok|]. intros k _.
  eapply vl_ok_bind; [apply print_follows|]. intros f1 Hf1.
  destruct (_ <? 0); simpl; [exact Hf1|].
  eapply vl_ok_bind.
  { apply rec_ok; [lia|]. simpl.
    eapply heap_inv2_shape; [|exact Hinv]. apply sess_view_heap, Hf1. }
  intros [d size] Hd. simpl in Hd.
  eapply vl_ok_bind; [apply deref_ok|]. intros n' _.
  eapply vl_ok_bind; [apply key_at_ok|]. intros k' _.
  assert (sess_view d = sess_view (v_data f)) as Hd'.
  { rewrite Hd. apply Hf1. }
  destruct (has_flag (lkp_key_format k') LNKF_FLOW).
  - eapply vl_ok_bind; [apply store_bytes_ok|]. intros m _.
    split; [exact Hd' | apply Hf1].
  - split; [exact Hd' | apply Hf1].
Qed.

Lemma nested_elems_follows node i num policy l f :
  (forall c, c ∈ l -> (nla_depth c < bound)%nat) ->
  heap_inv2 (heap (v_data f)) ->
  vl_ok (fun s => follows f (elem_frame s))
        (nested_elems libc_eoverflow rec node i num policy l f).
Proof.
  revert f. induction l as [|c l IH]; intros f Hd Hinv; [apply follows_refl|].
  cbn [nested_elems].
  eapply vl_ok_bind.
  { apply nested_elem_follows; [apply Hd; left | exact Hinv]. }
  intros [f1|f1|f1] Hf1; try exact Hf1. lazy beta iota.
  eapply vl_ok_mono.
  - apply IH; [intros c' Hc'; apply Hd; now right|].
    eapply heap_inv2_shape; [|exact Hinv]. apply sess_view_heap, Hf1.
  - intros s Hs. eapply follows_trans; eassumption.
Qed.

Lemma nested_case_follows node n i attr f :
  (v_child_idx f < length (children n))%nat ->
  (from_option nla_depth O attr <= bound)%nat ->
  heap_inv2 (heap (v_data f)) ->
  vl_ok (fun c => sess_view (v_data (ctl_frame c)) = sess_view (v_data f) ∧
                  v_child_idx (ctl_frame c) = S (v_child_idx f))
        (nested_case libc_eoverflow rec node n i attr f).
Proof.
  intros Hidx Hdepth Hinv. unfold nested_case.
  rewrite get_next_child_lookup.
  destruct (children n !! v_child_idx f) as [c|] eqn:Hc.
  2:{ apply lookup_ge_None in Hc. lia. }
  eapply vl_ok_bind; [apply deref_ok|]. intros nx _.
  destruct attr as [a|]; [|split; reflexivity].
  eapply vl_ok_bind.
  { apply nested_elems_follows; [|exact Hinv].
    intros c' Hc'. apply nla_depth_elem in Hc'. simpl in Hdepth. lia. }
  intros [f1|f1|f1] [Hv Hi]; split; first [exact Hv | exact Hi].
Qed.

Lemma value_slot_follows node parent attr_array i f n :
  (1 <= i)%nat -> (i < lkl_maxattr (keys n))%nat ->
  heap (v_data f) !! node = Some (Some n) ->
  heap_inv2 (heap (v_data f)) ->
  (tb_depth attr_array <= bound)%nat ->
  (v_child_idx f <= nested_keys n i)%nat ->
  vl_ok (fun f' => sess_view (v_data f') = sess_view (v_data f) ∧
                   (v_child_idx f' <= nested_keys n (S i))%nat)
        (value_slot libc_eoverflow rec node parent attr_array i f).
Proof.
  intros Hi Hmax Hn Hinv Hdepth Hidx. unfold value_slot.
  unfold deref at 1. rewrite Hn, bind_Ok.
  eapply vl_ok_bind; [apply tb_get_ok|]. intros attr Hattr.
  eapply vl_ok_bind; [apply key_at_ok|]. intros k Hk.
  pose proof (nested_keys_step n i k Hi Hk) as Hstep.
  destruct (_ && _); [split; [reflexivity|lia]|].
  eapply vl_ok_bind; [apply scalar_prefix_follows|]. intros c Hc.
  eapply (vl_ok_bind (fun c' =>
            sess_view (v_data (ctl_frame c')) = sess_view (v_data f) ∧
            (v_child_idx (ctl_frame c') <= nested_keys n (S i))%nat)).
  - destruct c as [f1|f1|f1]; cbn [ctl_frame] in Hc; destruct Hc as [Hv Hc];
      lazy beta iota.
    1, 3: split; [exact Hv | cbn [ctl_frame]; lia].
    destruct (Z.eqb_spec (lkp_data_type k) NLA_NESTED) as [Hty|Hty].
    + eapply vl_ok_mono.
      * apply nested_case_follows.
        -- rewrite Hc. rewrite bool_decide_true in Hstep by exact Hty.
           pose proof (nested_keys_mono n (S i) (lkl_maxattr (keys n))).
           pose proof (Hinv node n Hn) as Hinv2. unfold schema_inv2 in Hinv2.
           lia.
        -- destruct attr as [a|]; simpl; [|lia].
           apply tb_depth_lookup in Hattr. lia.
        -- eapply heap_inv2_shape; [|exact Hinv]. apply sess_view_heap, Hv.
      * intros c' [Hv' Hc']. split; [congruence|].
        rewrite bool_decide_true in Hstep by exact Hty. lia.
    + destruct (lkp_data_type k =? NLA_NUL_STRING).
      * eapply vl_ok_mono; [apply label_case_follows|].
        intros c' [Hv' Hc']. split; [congruence|]. lia.
      * eapply vl_ok_mono; [apply scalar_case_follows|].
        intros c' [Hv' Hc']. split; [congruence|]. lia.
  - intros [f1|f1|f1] [Hv Hc']; cbn [ctl_frame] in *; lazy beta iota.
    + split; assumption.
    + eapply vl_ok_mono; [apply separator_follows|].
      intros f2 [Hv2 Hc2]. split; [congruence|lia].
    + split; assumption.
Qed.

Lemma nested_keys_shape n n' i :
  node_shape n' = node_shape n -> nested_keys n' i = nested_keys n i.
Proof. unfold node_shape, nested_keys. now intros [= _ _ ->]. Qed.

Lemma value_slots_follows node parent attr_array h0 n0 count i f :
  (1 <= i)%nat -> (i + count <= Nat.max 1 (lkl_maxattr (keys n0)))%nat ->
  h0 !! node = Some (Some n0) ->
  heap_inv2 h0 ->
  heap_shape (heap (v_data f)) = heap_shape h0 ->
  (tb_depth attr_array <= bound)%nat ->
  (v_child_idx f <= nested_keys n0 i)%nat ->
  vl_ok (fun f' => sess_view (v_data f') = sess_view (v_data f))
        (value_slots libc_eoverflow rec node parent attr_array count i f).
Proof.
  revert i f. induction count as [|count IH]; intros i f Hi Hmax Hn0 Hinv Hsh Hd Hidx;
    [reflexivity|].
  cbn [value_slots].
  assert (exists n, heap (v_data f) !! node = Some (Some n) ∧
                    node_shape n = node_shape n0) as (n & Hn & Hns).
  { destruct (heap_shape_lookup (heap (v_data f)) h0 node n0) as (n & Hn & Hns);
      [now symmetry | exact Hn0 | eauto]. }
  assert (lkl_maxattr (keys n) = lkl_maxattr (keys n0)) as Hm.
  { unfold node_shape in Hns. congruence. }
  eapply vl_ok_bind.
  { apply (value_slot_follows node parent attr_array i f n); try assumption.
    - lia.
    - eapply heap_inv2_shape; eassumption.
    - now rewrite (nested_keys_shape n0 n i). }
  intros f1 [Hv Hc]. eapply vl_ok_mono.
  - apply IH; try assumption; [lia..| |].
    + rewrite <- Hsh. apply sess_view_heap, Hv.
    + now rewrite <- (nested_keys_shape n0 n (S i)).
  - intros f2 Hf2. simpl in Hf2. congruence.
Qed.

Lemma yaml_parse_value_list_body_ok data size attr_array parent :
  (tb_depth attr_array <= bound)%nat ->
  heap_inv2 (heap data) ->
  vl_ok (fun r => sess_view r.1 = sess_view data)
        (yaml_parse_value_list_body libc_eoverflow rec data size attr_array parent).
Proof.
  intros Hd Hinv. unfold yaml_parse_value_list_body.
  destruct (cur data) as [node|]; [|discriminate].
  eapply vl_ok_bind; [apply deref_ok|]. intros pn _.
  eapply vl_ok_bind; [apply key_at_ok|]. intros pk _.
  eapply vl_ok_bind; [apply deref_ok|]. intros n (a & [= <-] & Hn).
  eapply vl_ok_bind.
  { apply (value_slots_follows node parent attr_array (heap data) n);
      try assumption; try reflexivity; simpl; lia. }
  intros f Hf. exact Hf.
Qed.
End value_list_invariants.

Lemma yaml_parse_value_list_fuel_ok libc_eoverflow fuel data size attr_array parent :
  (tb_depth attr_array < fuel)%nat ->
  heap_inv2 (heap data) ->
  vl_ok (fun r => sess_view r.1 = sess_view data)
        (yaml_parse_value_list_fuel libc_eoverflow fuel data size attr_array parent).
Proof.
  revert data size attr_array parent.
  induction fuel as [|fuel IH]; intros data size attr_array parent Hd Hinv; [lia|].
  cbn [yaml_parse_value_list_fuel].
  apply (yaml_parse_value_list_body_ok _ _ fuel); [|lia|assumption].
  intros d sz tb par Hlt Hi. now apply IH.
Qed.

Lemma yaml_parse_value_list_ok libc_eoverflow data size attr_array parent :
  heap_inv2 (heap data) ->
  vl_ok (fun r => sess_view r.1 = sess_view data)
        (yaml_parse_value_list libc_eoverflow data size attr_array parent).
Proof. intros H. apply yaml_parse_value_list_fuel_ok; [lia | exact H]. Qed.

#[local] Arguments update_node : simpl never.
#[local] Arguments key_list_alloc : simpl never.

(* ------------------------------------------------------------------ *)
(** ** Schema intake keeps the nodes that exist *)

Lemma prefix_insert_fresh {A} (h0 h : list A) p x :
  h0 `prefix_of` h -> (length h0 <= p)%nat -> h0 `prefix_of` <[p := x]> h.
Proof.
  intros [k ->] Hp. exists (<[(p - length h0)%nat := x]> k).
  now rewrite insert_app_r_alt.
Qed.

Lemma update_node_fresh h0 h p f :
  h0 `prefix_of` h -> (length h0 <= p)%nat ->
  vl_ok (fun h' => h0 `prefix_of` h') (update_node h p f).
Proof.
  intros Hpre Hp. unfold update_node.
  eapply vl_ok_bind; [apply deref_ok|]. intros n _. simpl.
  now apply prefix_insert_fresh.
Qed.

Lemma store_key_fresh h0 h p i f :
  h0 `prefix_of` h -> (length h0 <= p)%nat ->
  vl_ok (fun h' => h0 `prefix_of` h') (store_key h p i f).
Proof.
  intros Hpre Hp. unfold store_key.
  eapply vl_ok_bind; [apply deref_ok|]. intros n _.
  eapply vl_ok_bind; [apply key_at_ok|]. intros k _. simpl.
  now apply prefix_insert_fresh.
Qed.

Lemma intake_post_refl h0 d : h0 `prefix_of` heap d -> intake_post h0 d d.
Proof. intros H. repeat split; auto. Qed.

Lemma intake_post_trans h0 d1 d2 d3 :
  intake_post h0 d1 d2 -> intake_post h0 d2 d3 -> intake_post h0 d1 d3.
Proof.
  intros (H1 & Hr1 & Hc1 & Hv1) (H2 & Hr2 & Hc2 & Hv2).
  repeat split; [assumption| | |congruence].
  - intros Hr. rewrite <- (Hr1 Hr). apply Hr2. now rewrite (Hr1 Hr).
  - intros Hc. rewrite <- (Hc1 Hc). apply Hc2. now rewrite (Hc1 Hc).
Qed.

Lemma intake_post_set_heap h0 d h :
  h0 `prefix_of` h -> intake_post h0 d (set_heap d h).
Proof. intros H. repeat split; auto. Qed.

Lemma key_list_alloc_post h0 data parent cnt :
  h0 `prefix_of` heap data -> fresh_ptr h0 parent ->
  vl_ok (fun r => intake_post h0 data r.2 ∧ (length h0 <= r.1)%nat)
        (key_list_alloc data parent cnt).
Proof.
  intros Hpre Hpar. unfold key_list_alloc.
  assert (length h0 <= length (heap data))%nat as Hlen by now apply prefix_length.
  match goal with
  | |- context [match parent with Some _ => _ | None => Ok (_, ?d) end] =>
      assert (intake_post h0 data d) as H3
  end.
  { destruct data as [pa me bu er co ind [c|] [r|] h fr]; simpl in *;
      (repeat split; simpl; try congruence; now apply prefix_app_r). }
  destruct parent as [p|]; [|split; [exact H3 | exact Hlen]].
  eapply vl_ok_bind.
  { apply (update_node_fresh h0); [apply H3 | exact Hpar]. }
  intros h Hh. split; [|exact Hlen].
  eapply intake_post_trans; [exact H3|]. now apply intake_post_set_heap.
Qed.

Section key_list_invariants.
Variable h0 : list (option yaml_nl_node).
Variable rec : yaml_netlink_input -> option nat -> nlattr ->
               result (nl_cb_action * yaml_netlink_input).
Variable bound : nat.
Hypothesis rec_ok : forall d parent l,
  (nla_depth l < bound)%nat -> h0 `prefix_of` heap d -> fresh_ptr h0 parent ->
  vl_ok (fun r => intake_post h0 d r.2) (rec d parent l).

Lemma store_field_post (a : option nlattr) h n i (f : nlattr -> ln_key_props -> ln_key_props) :
  h0 `prefix_of` h -> (length h0 <= n)%nat ->
  vl_ok (fun h' => h0 `prefix_of` h')
        (match a with
         | Some a => store_key h n i (f a)
         | None => Ok h
         end).
Proof. intros. destruct a; [now apply store_key_fresh | assumption]. Qed.

Lemma key_record_post data parent node attr :
  (nla_depth attr < bound)%nat ->
  h0 `prefix_of` heap data -> fresh_ptr h0 parent -> fresh_ptr h0 node ->
  vl_ok (key_step_post h0 data) (key_record rec data parent node attr).
Proof.
  intros Hdepth Hpre Hpar Hnode. unfold key_record.
  destruct (nla_parse_nested _ _ attr _) as [[tb|]|flt|] eqn:Hp;
    rewrite ?bind_Ok; lazy beta iota.
  2: exact (intake_post_refl _ _ Hpre).
  2,3: pose proof (nla_parse_attrs_ok LN_SCALAR_CNT scalar_attr_policy
                    (replicate (S LN_SCALAR_CNT) None) (nla_nested_attrs attr)) as H;
       unfold nla_parse_nested, nla_parse in Hp; rewrite Hp in H; exact H.
  apply nla_parse_nested_depth in Hp.
  eapply vl_ok_bind; [apply tb_get_ok|]. intros list_size _.
  eapply (vl_ok_bind (fun r => intake_post h0 data r.2 ∧ fresh_ptr h0 r.1)).
  { destruct list_size as [a|], node as [nd|]; lazy beta iota;
      try (split; [exact (intake_post_refl _ _ Hpre) | assumption]).
    eapply vl_ok_bind; [apply (key_list_alloc_post h0); assumption|].
    intros [n d] [Hd Hn]. split; assumption. }
  intros [node1 d1] [Hd1 Hn1]. simpl in Hd1, Hn1.
  eapply vl_ok_bind; [apply tb_get_ok|]. intros a_index _.
  destruct node1 as [n|]; [|exact Hd1].
  destruct (_ =? 0); [exact Hd1|].
  eapply vl_ok_bind; [apply tb_get_ok|]. intros a_format _.
  eapply vl_ok_bind.
  { apply (store_field_post a_format _ _ _ (fun a => set_format (nla_get_u16 a)));
      [apply Hd1 | exact Hn1]. }
  intros h1 Hh1.
  eapply vl_ok_bind; [apply tb_get_ok|]. intros a_type _.
  eapply vl_ok_bind.
  { apply (store_field_post a_type _ _ _ (fun a => set_data_type (nla_get_u16 a)));
      [exact Hh1 | exact Hn1]. }
  intros h2 Hh2.
  eapply vl_ok_bind; [apply tb_get_ok|]. intros a_value _.
  eapply vl_ok_bind.
  { apply (store_field_post a_value _ _ _ (fun a => set_values (Some (nla_strdup a))));
      [exact Hh2 | exact Hn1]. }
  intros h3 Hh3.
  assert (intake_post h0 data (set_heap d1 h3)) as Hd3.
  { eapply intake_post_trans; [exact Hd1|]. now apply intake_post_set_heap. }
  eapply vl_ok_bind; [apply tb_get_ok|]. intros a_list Hlist.
  destruct a_list as [l|]; [|split; [exact Hd3 | exact Hn1]].
  eapply vl_ok_bind.
  { apply rec_ok; [|exact Hh3 | exact Hn1].
    apply tb_depth_lookup in Hlist. lia. }
  intros [rc d4] Hd4. simpl in Hd4.
  assert (intake_post h0 data d4) as Hfin
    by (eapply intake_post_trans; eassumption).
  destruct rc; simpl; [split; [exact Hfin | exact Hn1] | exact Hfin..].
Qed.

Lemma key_records_post data parent node l :
  (forall a, a ∈ l -> (nla_depth a < bound)%nat) ->
  h0 `prefix_of` heap data -> fresh_ptr h0 parent -> fresh_ptr h0 node ->
  vl_ok (fun r => intake_post h0 data r.2) (key_records rec data parent node l).
Proof.
  revert data node. induction l as [|a l IH]; intros data node Hd Hpre Hpar Hnode.
  { exact (intake_post_refl _ _ Hpre). }
  cbn [key_records].
  eapply vl_ok_bind.
  { apply key_record_post; [apply Hd; left | assumption..]. }
  intros [d1|rc d1|node1 d1] H1; cbn [key_step_post] in H1; lazy beta iota;
    [exact H1 | exact H1 |].
  destruct H1 as [H1 Hn1]. eapply vl_ok_mono.
  - apply IH; [intros a' Ha'; apply Hd; now right | apply H1 | exact Hpar | exact Hn1].
  - intros r Hr. eapply intake_post_trans; eassumption.
Qed.
End key_list_invariants.

Lemma yaml_parse_key_list_fuel_post h0 fuel data parent list :
  (nla_depth list < fuel)%nat ->
  h0 `prefix_of` heap data -> fresh_ptr h0 parent ->
  vl_ok (fun r => intake_post h0 data r.2)
        (yaml_parse_key_list_fuel fuel data parent list).
Proof.
  revert data parent list.
  induction fuel as [|fuel IH]; intros data parent list Hd Hpre Hpar; [lia|].
  cbn [yaml_parse_key_list_fuel]. unfold yaml_parse_key_list_body.
  apply (key_records_post h0 (yaml_parse_key_list_fuel fuel) fuel).
  - intros d p l Hl Hp Hf. now apply IH.
  - intros a Ha. apply nla_depth_elem in Ha. lia.
  - exact Hpre.
  - exact Hpar.
  - exact I.
Qed.

Lemma yaml_parse_key_list_post data list :
  vl_ok (fun r => intake_post (heap data) data r.2)
        (yaml_parse_key_list data None list).
Proof.
  apply yaml_parse_key_list_fuel_post; [lia | reflexivity | exact I].
Qed.

(* ------------------------------------------------------------------ *)
(** ** The child node of a nested key *)

Lemma deref_Some h a n : h !! a = Some (Some n) -> deref h (Some a) = Ok n.
Proof. intros H. unfold deref. now rewrite H. Qed.

Lemma tb_get_Some tb i a : tb !! i = Some a -> tb_get tb i = Ok a.
Proof. intros H. unfold tb_get. now rewrite H. Qed.

Lemma key_at_Some n i k : lkl_list (keys n) !! i = Some k -> key_at n i = Ok k.
Proof. intros H. unfold key_at. now rewrite H. Qed.

Lemma value_slot_null_child libc_eoverflow rec node parent attr_array i f n k attr :
  heap (v_data f) !! node = Some (Some n) ->
  attr_array !! i = Some attr ->
  lkl_list (keys n) !! i = Some k ->
  lkp_data_type k = NLA_NESTED ->
  attr ≠ None ∨ lkp_values k ≠ None ->
  get_next_child n (v_child_idx f) = None ->
  value_slot libc_eoverflow rec node parent attr_array i f = Fault NullChild.
Proof.
  intros Hn Hattr Hk Hty Hreach Hchild. unfold value_slot.
  rewrite (deref_Some _ _ _ Hn), bind_Ok, (tb_get_Some _ _ _ Hattr), bind_Ok,
    (key_at_Some _ _ _ Hk), bind_Ok.
  assert (bool_decide (attr = None) && bool_decide (lkp_values k = None) = false) as ->.
  { destruct Hreach as [H|H]; [rewrite (bool_decide_false _ H) |
      rewrite (bool_decide_false _ H), andb_false_r]; reflexivity. }
  unfold scalar_prefix. rewrite Hty. change (NLA_NESTED =? NLA_NUL_STRING) with false.
  change (NLA_NESTED =? NLA_NESTED) with true. cbn [negb andb].
  rewrite bind_Ok. unfold nested_case. rewrite Hchild. reflexivity.
Qed.

(** C10: a reached slot of nested type whose node has no further child
    makes value intake dereference the NULL that get_next_child returns,
    whether the batch carries an attribute for the slot or not; and on a
    schema that keeps invariant 2 (one child node per nested-typed key, in
    every node) value intake returns or stops on another fault, never on
    that dereference, leaves the schema shape and the error state of the
    session as they were and frees no schema node (the one call of free()
    in value intake is on the name of the parent key, when a label slot
    carries a value). *)
Theorem C10_nested_child_required (libc_eoverflow : bool) :
  (forall rec node parent attr_array i f n k attr,
     heap (v_data f) !! node = Some (Some n) ->
     attr_array !! i = Some attr ->
     lkl_list (keys n) !! i = Some k ->
     lkp_data_type k = NLA_NESTED ->
     attr ≠ None ∨ lkp_values k ≠ None ->
     get_next_child n (v_child_idx f) = None ->
     value_slot libc_eoverflow rec node parent attr_array i f = Fault NullChild) ∧
  (forall data size attr_array parent,
     heap_inv2 (heap data) ->
     vl_ok (fun r => sess_view r.1 = sess_view data)
           (yaml_parse_value_list libc_eoverflow data size attr_array parent)).
Proof.
  split.
  - intros. eapply value_slot_null_child; eassumption.
  - intros. now apply yaml_parse_value_list_ok.
Qed.

Lemma heap_inv2_flow : heap_inv2 [Some flow_root; Some flow_child].
Proof.
  intros p n H. destruct p as [|[|p]]; simpl in H; try discriminate;
    injection H as <-; reflexivity.
Qed.

Lemma C10_nested_child_required_witness :
  value_slot false (fun _ _ _ _ => Timeout) 0%nat (0%nat, 1%nat) [None; None]
    1 childless_frame = Fault NullChild ∧
  vl_ok (fun r => sess_view r.1 = sess_view (v_data flow_frame))
        (yaml_parse_value_list false (v_data flow_frame) 30
           [None; Some flow_attr] (0%nat, 1%nat)).
Proof.
  split.
  - apply (proj1 (C10_nested_child_required false)
             (fun _ _ _ _ => Timeout) 0%nat (0%nat, 1%nat) [None; None] 1%nat
             childless_frame childless_node
             (mk_key (Some "k") LNKF_MAPPING NLA_NESTED) None);
      try reflexivity.
    right. discriminate.
  - apply (proj2 (C10_nested_child_required false)
             (v_data flow_frame) 30 [None; Some flow_attr] (0%nat, 1%nat)).
    exact heap_inv2_flow.
Defined.

(** A value for the label slot of S1: the name of the key is freed and
    replaced, after the old name has been written. *)
Example label_value_replaces_name :
  (d ← session_after false [s1_schema; s1_relabel] 32;
   Ok (freed d, (fun n => lkp_values <$> lkl_list (keys n)) <$> (heap d !! 0%nat ≫= id),
       take 17 (mem d)))
  = Ok ([FreeString 0 1], Some [None; Some "tcp"; Some "mtu"], bytes s1_text).
Proof. vm_compute. reflexivity. Qed.

(** A key table that names a nested key and gives it no level: the first
    value batch, even an empty one, stops on the missing child. *)
Example childless_schema_faults libc_eoverflow :
  (d ← session_after libc_eoverflow [childless_schema] 32;
   yaml_netlink_msg_parse libc_eoverflow (value_msg []) d) = Fault NullChild.
Proof. destruct libc_eoverflow; vm_compute; reflexivity. Qed.

(* ------------------------------------------------------------------ *)
(** ** A key table that arrives after values *)

#[local] Arguments with_schema : simpl never.

Lemma s1_served_session :
  session_after false [s1_schema; s1_values] 32 = Ok s1_served.
Proof. vm_compute. reflexivity. Qed.

Section key_list_frame.
Variable rec : yaml_netlink_input -> option nat -> nlattr ->
               result (nl_cb_action * yaml_netlink_input).
Hypothesis rec_frame : forall d s parent l,
  rec (with_schema d s) parent l
  = (r ← rec s parent l; Ok (r.1, with_schema d r.2)).

Lemma key_list_alloc_frame d s parent cnt :
  key_list_alloc (with_schema d s) parent cnt
  = (r ← key_list_alloc s parent cnt; Ok (r.1, with_schema d r.2)).
Proof.
  unfold key_list_alloc, with_schema.
  destruct s as [pa me bu er co ind [c|] [r|] h fr], parent as [p|]; simpl;
    try reflexivity;
    match goal with
    | |- context [update_node ?h ?p ?f] => destruct (update_node h p f); reflexivity
    end.
Qed.

Lemma store_field_frame (a : option nlattr) h n i
    (f : nlattr -> ln_key_props -> ln_key_props) (A : Type)
    (k1 k2 : list (option yaml_nl_node) -> result A) :
  (forall h', k1 h' = k2 h') ->
  (match a with Some a => store_key h n i (f a) | None => Ok h end ≫= k1)
  = (match a with Some a => store_key h n i (f a) | None => Ok h end ≫= k2).
Proof.
  intros H. destruct a as [a|]; simpl; [|apply H].
  destruct (store_key h n i (f a)); simpl; auto.
Qed.

Lemma key_record_frame d s parent node attr :
  key_record rec (with_schema d s) parent node attr
  = (st ← key_record rec s parent node attr; Ok (key_step_with_schema d st)).
Proof.
  unfold key_record.
  destruct (nla_parse_nested _ _ attr _) as [[tbl|]|flt|]; simpl; try reflexivity.
  destruct (tb_get tbl LN_SCALAR_ATTR_LIST_SIZE) as [list_size|flt|]; simpl;
    try reflexivity.
  assert (forall (s1 : yaml_netlink_input) (node1 : option nat),
    (a_index ← tb_get tbl LN_SCALAR_ATTR_INDEX;
     let index := match a_index with Some a => nla_get_u16 a | None => 0 end in
     match node1 with
     | None => Ok (KReturn NL_STOP (with_schema d s1))
     | Some n =>
         if index =? 0 then Ok (KReturn NL_STOP (with_schema d s1))
         else
           a_format ← tb_get tbl LN_SCALAR_ATTR_KEY_FORMAT;
           h ← match a_format with
               | Some a => store_key (heap (with_schema d s1)) n (Z.to_nat index)
                             (set_format (nla_get_u16 a))
               | None => Ok (heap (with_schema d s1))
               end;
           a_type ← tb_get tbl LN_SCALAR_ATTR_NLA_TYPE;
           h ← match a_type with
               | Some a => store_key h n (Z.to_nat index)
                             (set_data_type (nla_get_u16 a))
               | None => Ok h
               end;
           a_value ← tb_get tbl LN_SCALAR_ATTR_VALUE;
           h ← match a_value with
               | Some a => store_key h n (Z.to_nat index)
                             (set_values (Some (nla_strdup a)))
               | None => Ok h
               end;
           let data := set_heap (with_schema d s1) h in
           a_list ← tb_get tbl LN_SCALAR_ATTR_LIST;
           match a_list with
           | Some l =>
               '(rc, data) ← rec data (Some n) l;
               match rc with
               | NL_OK => Ok (KNext (Some n) data)
               | _ => Ok (KReturn rc data)
               end
           | None => Ok (KNext (Some n) data)
           end
     end)
    = (st ←
        (a_index ← tb_get tbl LN_SCALAR_ATTR_INDEX;
         let index := match a_index with Some a => nla_get_u16 a | None => 0 end in
         match node1 with
         | None => Ok (KReturn NL_STOP s1)
         | Some n =>
             if index =? 0 then Ok (KReturn NL_STOP s1)
             else
               a_format ← tb_get tbl LN_SCALAR_ATTR_KEY_FORMAT;
               h ← match a_format with
                   | Some a => store_key (heap s1) n (Z.to_nat index)
                                 (set_format (nla_get_u16 a))
                   | None => Ok (heap s1)
                   end;
               a_type ← tb_get tbl LN_SCALAR_ATTR_NLA_TYPE;
               h ← match a_type with
                   | Some a => store_key h n (Z.to_nat index)
                                 (set_data_type (nla_get_u16 a))
                   | None => Ok h
                   end;
               a_value ← tb_get tbl LN_SCALAR_ATTR_VALUE;
               h ← match a_value with
                   | Some a => store_key h n (Z.to_nat index)
                                 (set_values (Some (nla_strdup a)))
                   | None => Ok h
                   end;
               let data := set_heap s1 h in
               a_list ← tb_get tbl LN_SCALAR_ATTR_LIST;
               match a_list with
               | Some l =>
                   '(rc, data) ← rec data (Some n) l;
                   match rc with
                   | NL_OK => Ok (KNext (Some n) data)
                   | _ => Ok (KReturn rc data)
                   end
               | None => Ok (KNext (Some n) data)
               end
         end);
       Ok (key_step_with_schema d st))) as Hrest.
  { intros s1 node1.
    destruct (tb_get tbl LN_SCALAR_ATTR_INDEX) as [a_index|flt|]; simpl;
      try reflexivity.
    destruct node1 as [n|]; [|reflexivity].
    destruct (_ =? 0); [reflexivity|].
    destruct (tb_get tbl LN_SCALAR_ATTR_KEY_FORMAT) as [a_format|flt|]; simpl;
      try reflexivity.
    change (heap (with_schema d s1)) with (heap s1).
    destruct (match a_format with Some a => _ | None => _ end) as [h1|flt|];
      simpl; try reflexivity.
    destruct (tb_get tbl LN_SCALAR_ATTR_NLA_TYPE) as [a_type|flt|]; simpl;
      try reflexivity.
    destruct (match a_type with Some a => _ | None => _ end) as [h2|flt|];
      simpl; try reflexivity.
    destruct (tb_get tbl LN_SCALAR_ATTR_VALUE) as [a_value|flt|]; simpl;
      try reflexivity.
    destruct (match a_value with Some a => _ | None => _ end) as [h3|flt|];
      simpl; try reflexivity.
    destruct (tb_get tbl LN_SCALAR_ATTR_LIST) as [[l|]|flt|]; simpl;
      try reflexivity.
    change (set_heap (with_schema d s1) h3) with (with_schema d (set_heap s1 h3)).
    rewrite rec_frame.
    destruct (rec (set_heap s1 h3) (Some n) l) as [[rc s2]|flt|]; simpl;
      try reflexivity.
    destruct rc; reflexivity. }
  destruct list_size as [a|], node as [nd|];
    [exact (Hrest s (Some nd)) | | exact (Hrest s (Some nd)) | exact (Hrest s None)].
  rewrite key_list_alloc_frame.
  destruct (key_list_alloc s parent _) as [[n s1]|flt|]; try reflexivity.
  exact (Hrest s1 (Some n)).
Qed.

Lemma key_records_frame d s parent node l :
  key_records rec (with_schema d s) parent node l
  = (r ← key_records rec s parent node l; Ok (r.1, with_schema d r.2)).
Proof.
  revert s node. induction l as [|a l IH]; intros s node; [reflexivity|].
  cbn [key_records]. rewrite key_record_frame.
  destruct (key_record rec s parent node a) as [[s1|rc s1|node1 s1]|flt|]; simpl;
    try reflexivity.
  apply IH.
Qed.
End key_list_frame.

Lemma yaml_parse_key_list_fuel_frame fuel d s parent l :
  yaml_parse_key_list_fuel fuel (with_schema d s) parent l
  = (r ← yaml_parse_key_list_fuel fuel s parent l; Ok (r.1, with_schema d r.2)).
Proof.
  revert d s parent l. induction fuel as [|fuel IH]; intros d s parent l;
    [reflexivity|].
  cbn [yaml_parse_key_list_fuel]. unfold yaml_parse_key_list_body.
  apply key_records_frame. intros. apply IH.
Qed.

Lemma msg_parse_create_frame e msg d s :
  has_flag (nlmsg_flags (nlmsg_hdr msg)) NLM_F_CREATE = true ->
  yaml_netlink_msg_parse e msg (with_schema d s)
  = (r ← yaml_netlink_msg_parse e msg s; Ok (r.1, with_schema d r.2)).
Proof.
  intros Hflag. unfold yaml_netlink_msg_parse. rewrite Hflag.
  destruct (genlmsg_parse _ _ _ _) as [[attrs|]|flt|]; simpl; try reflexivity.
  destruct (tb_get attrs LN_SCALAR_ATTR_LIST) as [[l|]|flt|]; simpl;
    try reflexivity.
  unfold yaml_parse_key_list. rewrite yaml_parse_key_list_fuel_frame.
  destruct (yaml_parse_key_list_fuel _ s None l) as [[rc s1]|flt|]; simpl;
    try reflexivity.
  destruct rc; reflexivity.
Qed.

Lemma update_node_len h p f :
  vl_ok (fun h' => length h' = length h) (update_node h p f).
Proof.
  unfold update_node. eapply vl_ok_bind; [apply deref_ok|]. intros n _. simpl.
  apply length_insert.
Qed.

Lemma store_key_len h p i f :
  vl_ok (fun h' => length h' = length h) (store_key h p i f).
Proof.
  unfold store_key. eapply vl_ok_bind; [apply deref_ok|]. intros n _.
  eapply vl_ok_bind; [apply key_at_ok|]. intros k _. simpl.
  apply length_insert.
Qed.

Lemma key_list_alloc_len data parent cnt :
  vl_ok (fun r => length (heap r.2) = S (length (heap data)))
        (key_list_alloc data parent cnt).
Proof.
  unfold key_list_alloc.
  destruct data as [pa me bu er co ind [c|] [r|] h fr], parent as [p|]; simpl;
    try (rewrite length_app; simpl; lia);
    (eapply vl_ok_bind; [apply update_node_len|]; intros h' Hh; simpl;
     rewrite Hh, length_app; simpl; lia).
Qed.

Section key_list_growth.
Variable rec : yaml_netlink_input -> option nat -> nlattr ->
               result (nl_cb_action * yaml_netlink_input).
Variable bound : nat.
Hypothesis rec_len : forall d parent l,
  (nla_depth l < bound)%nat ->
  vl_ok (fun r => (length (heap d) <= length (heap r.2))%nat) (rec d parent l).

Lemma store_field_len (a : option nlattr) h n i
    (f : nlattr -> ln_key_props -> ln_key_props) :
  vl_ok (fun h' => length h' = length h)
        (match a with
         | Some a => store_key h n i (f a)
         | None => Ok h
         end).
Proof. destruct a; [apply store_key_len | reflexivity]. Qed.

Lemma key_record_len data parent node attr :
  (nla_depth attr < bound)%nat ->
  vl_ok (fun s =>
           (length (heap data) <= length (heap (key_step_data s)))%nat ∧
           (node = None -> declares_level attr ->
            (length (heap data) < length (heap (key_step_data s)))%nat))
        (key_record rec data parent node attr).
Proof.
  intros Hdepth. unfold key_record.
  destruct (nla_parse_nested _ _ attr _) as [[tb|]|flt|] eqn:Hp;
    rewrite ?bind_Ok; lazy beta iota.
  2:{ simpl. split; [lia|]. intros _ (tbl & a & Ht & _). congruence. }
  2,3: pose proof (nla_parse_attrs_ok LN_SCALAR_CNT scalar_attr_policy
                    (replicate (S LN_SCALAR_CNT) None) (nla_nested_attrs attr)) as H;
       unfold nla_parse_nested, nla_parse in Hp; rewrite Hp in H; exact H.
  pose proof (nla_parse_nested_depth _ _ _ _ _ Hp) as Hd.
  eapply vl_ok_bind; [apply tb_get_ok|]. intros list_size Hsize.
  eapply (vl_ok_bind (fun r =>
            (length (heap data) <= length (heap r.2))%nat ∧
            (node = None -> declares_level attr ->
             (length (heap data) < length (heap r.2))%nat))).
  { destruct list_size as [a|], node as [nd|]; lazy beta iota;
      try (simpl; split; [lia | congruence]).
    - eapply vl_ok_bind; [apply key_list_alloc_len|].
      intros [n d] Hn. simpl in *. lia.
    - simpl. split; [lia|]. intros _ (tbl & a & Ht & Ha). congruence. }
  intros [node1 d1] [Hle Hlt]. simpl in Hle, Hlt.
  eapply vl_ok_bind; [apply tb_get_ok|]. intros a_index _.
  destruct node1 as [n|]; [|simpl; split; assumption].
  destruct (_ =? 0); [simpl; split; assumption|].
  eapply vl_ok_bind; [apply tb_get_ok|]. intros a_format _.
  eapply vl_ok_bind;
    [apply (store_field_len a_format _ _ _ (fun a => set_format (nla_get_u16 a)))|].
  intros h1 Hh1.
  eapply vl_ok_bind; [apply tb_get_ok|]. intros a_type _.
  eapply vl_ok_bind;
    [apply (store_field_len a_type _ _ _ (fun a => set_data_type (nla_get_u16 a)))|].
  intros h2 Hh2.
  eapply vl_ok_bind; [apply tb_get_ok|]. intros a_value _.
  eapply vl_ok_bind;
    [apply (store_field_len a_value _ _ _
              (fun a => set_values (Some (nla_strdup a))))|].
  intros h3 Hh3.
  eapply vl_ok_bind; [apply tb_get_ok|]. intros a_list Hlist.
  cbn beta in Hh1, Hh2, Hh3.
  destruct a_list as [l|].
  2:{ simpl. split; [lia|]. intros H1 H2. specialize (Hlt H1 H2). lia. }
  eapply vl_ok_bind.
  { apply rec_len. apply tb_depth_lookup in Hlist. lia. }
  intros [rc d4] Hd4. simpl in Hd4.
  assert ((length (heap data) <= length (heap d4))%nat ∧
          (node = None -> declares_level attr ->
           (length (heap data) < length (heap d4))%nat)) as Hfin.
  { split; [lia|]. intros H1 H2. specialize (Hlt H1 H2). lia. }
  destruct rc; simpl; exact Hfin.
Qed.

Lemma key_records_len data parent node l :
  (forall a, a ∈ l -> (nla_depth a < bound)%nat) ->
  vl_ok (fun r =>
           (length (heap data) <= length (heap r.2))%nat ∧
           (node = None -> (exists a, head l = Some a ∧ declares_level a) ->
            (length (heap data) < length (heap r.2))%nat))
        (key_records rec data parent node l).
Proof.
  revert data node. induction l as [|a l IH]; intros data node Hd.
  { simpl. split; [lia|]. intros _ (a & Ha & _). discriminate. }
  cbn [key_records].
  eapply vl_ok_bind.
  { apply key_record_len. apply Hd. left. }
  intros s [Hle Hlt].
  assert (node = None -> (exists a0, head (a :: l) = Some a0 ∧ declares_level a0) ->
          (length (heap data) < length (heap (key_step_data s)))%nat) as Hlt'.
  { intros Hn (a0 & [= <-] & Ha0). now apply Hlt. }
  destruct s as [d1|rc d1|node1 d1]; cbn [key_step_data] in *; lazy beta iota;
    [split; assumption | split; assumption |].
  eapply vl_ok_mono.
  - apply IH. intros a' Ha'. apply Hd. now right.
  - intros r [Hr _]. split; [lia|]. intros H1 H2. specialize (Hlt' H1 H2). lia.
Qed.
End key_list_growth.

Lemma yaml_parse_key_list_fuel_len fuel data parent list :
  (nla_depth list < fuel)%nat ->
  vl_ok (fun r =>
           (length (heap data) <= length (heap r.2))%nat ∧
           ((exists a, head (nla_nested_attrs list) = Some a ∧ declares_level a) ->
            (length (heap data) < length (heap r.2))%nat))
        (yaml_parse_key_list_fuel fuel data parent list).
Proof.
  revert data parent list.
  induction fuel as [|fuel IH]; intros data parent list Hd; [lia|].
  cbn [yaml_parse_key_list_fuel]. unfold yaml_parse_key_list_body.
  eapply vl_ok_mono.
  - apply (key_records_len (yaml_parse_key_list_fuel fuel) fuel).
    + intros d p l Hl. eapply vl_ok_mono; [now apply IH|]. intros r [H _]. exact H.
    + intros a Ha. apply nla_depth_elem in Ha. lia.
  - intros r [Hle Hlt]. split; [exact Hle|]. intros H. now apply Hlt.
Qed.

Lemma msg_parse_create_grows e msg data attrs l a :
  has_flag (nlmsg_flags (nlmsg_hdr msg)) NLM_F_CREATE = true ->
  genlmsg_parse msg (S LN_SCALAR_CNT) (S LN_SCALAR_CNT) scalar_attr_policy
  = Ok (Some attrs) ->
  attrs !! LN_SCALAR_ATTR_LIST = Some (Some l) ->
  head (nla_nested_attrs l) = Some a -> declares_level a ->
  vl_ok (fun res => (length (heap data) < length (heap res.2))%nat)
        (yaml_netlink_msg_parse e msg data).
Proof.
  intros Hflag Hparse Hl Ha Hdecl. unfold yaml_netlink_msg_parse.
  rewrite Hflag, Hparse, bind_Ok. lazy beta iota.
  rewrite (tb_get_Some _ _ _ Hl), bind_Ok. lazy beta iota.
  eapply vl_ok_bind.
  { apply yaml_parse_key_list_fuel_len. lia. }
  intros [rc d'] [_ Hlt]. simpl in Hlt.
  assert (length (heap data) < length (heap d'))%nat as H by (apply Hlt; eauto).
  destruct rc; simpl; exact H.
Qed.

(** C5, as stated, fails: after the value batch of S1 a further key table
    is not skipped (the verdict is NL_OK, not NL_SKIP) and a schema node
    is allocated for it. *)
Lemma C5_counterexample :
  match session_after false [s1_schema; s1_values] 32 with
  | Ok d =>
      match yaml_netlink_msg_parse false s1_schema d with
      | Ok (rc, d') =>
          rc = NL_OK ∧ length (heap d) = 1%nat ∧ length (heap d') = 2%nat ∧
          is_Some (heap d' !! 1%nat)
      | _ => False
      end
  | _ => False
  end.
Proof. vm_compute. repeat split; eauto. Qed.

(** C5, amended: a message that bears the create flag is handed to schema
    intake whatever came before.  Its outcome is that of
    yaml_parse_key_list on its LIST attribute, and whenever the first
    record of the table declares a level a node is allocated for it; the
    outcome depends on the session through the arena, the root and the
    cursor only, so that nothing value intake has written to the parser,
    the buffer, the indentation, the error string or the completion flag
    makes a difference; and when the session has a root the nodes that
    exist are kept as they are (new nodes are only added behind them),
    the root stays, the cursor is left or reset to the root, and the
    parser, the buffer, the error string and the completion flag are not
    touched. *)
Theorem C5_create_after_values (libc_eoverflow : bool) (msg : nl_msg)
    (data : yaml_netlink_input) (r : nat) :
  has_flag (nlmsg_flags (nlmsg_hdr msg)) NLM_F_CREATE = true ->
  root data = Some r ->
  let verdict :=
    if has_flag (nlmsg_flags (nlmsg_hdr msg)) NLM_F_MULTI &&
       negb (nlmsg_type (nlmsg_hdr msg) =? NLMSG_DONE)
    then NL_OK else NL_STOP in
  (forall attrs l,
     genlmsg_parse msg (S LN_SCALAR_CNT) (S LN_SCALAR_CNT) scalar_attr_policy
     = Ok (Some attrs) ->
     attrs !! LN_SCALAR_ATTR_LIST = Some (Some l) ->
     yaml_netlink_msg_parse libc_eoverflow msg data
     = ('(rc, d) ← yaml_parse_key_list data None l;
        match rc with
        | NL_OK => Ok (verdict, set_cur d (root d))
        | _ => Ok (rc, d)
        end) ∧
     forall a,
       head (nla_nested_attrs l) = Some a -> declares_level a ->
       vl_ok (fun res => (length (heap data) < length (heap res.2))%nat)
             (yaml_netlink_msg_parse libc_eoverflow msg data)) ∧
  (forall d0,
     yaml_netlink_msg_parse libc_eoverflow msg (with_schema d0 data)
     = (res ← yaml_netlink_msg_parse libc_eoverflow msg data;
        Ok (res.1, with_schema d0 res.2))) ∧
  vl_ok (fun res =>
           heap data `prefix_of` heap res.2 ∧
           root res.2 = Some r ∧
           (cur data ≠ None -> cur res.2 = cur data ∨ cur res.2 = Some r) ∧
           intake_view res.2 = intake_view data)
        (yaml_netlink_msg_parse libc_eoverflow msg data).
Proof.
  intros Hflag Hroot verdict. split; [|split].
  - intros attrs l Hparse Hl. split.
    + unfold yaml_netlink_msg_parse.
      rewrite Hflag, Hparse, bind_Ok. lazy beta iota.
      rewrite (tb_get_Some _ _ _ Hl), bind_Ok. reflexivity.
    + intros a Ha Hdecl. eapply msg_parse_create_grows; eassumption.
  - intros d0. now apply msg_parse_create_frame.
  - unfold yaml_netlink_msg_parse. rewrite Hflag.
    unfold genlmsg_parse, nla_parse.
    eapply vl_ok_bind; [apply nla_parse_attrs_ok|]. intros [attrs|] _.
    2:{ simpl. repeat split; auto. }
    eapply vl_ok_bind; [apply tb_get_ok|]. intros [l|] _.
    2:{ simpl. repeat split; auto. }
    eapply vl_ok_bind; [apply yaml_parse_key_list_post|].
    intros [rc d'] (Hpre & Hr & Hc & Hv). simpl in Hpre, Hr, Hc, Hv.
    assert (root d' = Some r) as Hr' by (rewrite Hr; congruence).
    destruct rc; simpl; (split; [exact Hpre|]); (split; [exact Hr'|]);
      (split; [|exact Hv]); intros Hcur; auto.
Qed.

Lemma C5_create_after_values_witness :
  session_after false [s1_schema; s1_values] 32 = Ok s1_served ∧
  vl_ok (fun res => (length (heap s1_served) < length (heap res.2))%nat)
        (yaml_netlink_msg_parse false s1_schema s1_served) ∧
  vl_ok (fun res =>
           heap s1_served `prefix_of` heap res.2 ∧
           root res.2 = Some 0%nat ∧
           (cur s1_served ≠ None ->
            cur res.2 = cur s1_served ∨ cur res.2 = Some 0%nat) ∧
           intake_view res.2 = intake_view s1_served)
        (yaml_netlink_msg_parse false s1_schema s1_served).
Proof.
  split; [exact s1_served_session|].
  destruct (C5_create_after_values false s1_schema s1_served 0%nat eq_refl eq_refl)
    as (Hparsed & _ & Hkept).
  split; [|exact Hkept].
  eapply (proj2 (Hparsed _ _ eq_refl eq_refl)); [reflexivity|].
  eexists _, _. split; reflexivity.
Defined.

(* ------------------------------------------------------------------ *)
(** ** Teardown of the schema tree *)

Local Open Scope nat_scope.

Lemma ptree_ind' (P : ptree -> Prop) :
  (forall p kids, Forall P kids -> P (PT p kids)) -> forall t, P t.
Proof.
  intros H. fix IH 1. intros [p kids]. apply H.
  induction kids as [|k kids IHk]; constructor; [apply IH | exact IHk].
Qed.

Lemma shaped_kids h p kids :
  shaped h (PT p kids) -> Forall (shaped h) kids.
Proof.
  intros [_ H]. induction kids as [|k kids IH]; constructor; simpl in H;
    [apply H | apply IH, H].
Qed.

Lemma shaped_root h t :
  shaped h t ->
  exists n, h !! pt_root t = Some (Some n) ∧ children n = pt_root <$> pt_kids t.
Proof. destruct t as [p kids]. intros [H _]. exact H. Qed.

Lemma wipe_lookup F U h q :
  wipe F U h !! q =
  (fun slot : option yaml_nl_node =>
     if bool_decide (q ∈ F) then None else strip U <$> slot) <$> h !! q.
Proof. unfold wipe. now rewrite list_lookup_imap. Qed.

Lemma wipe_lookup_live F U h q n :
  q ∉ F -> h !! q = Some (Some n) -> wipe F U h !! q = Some (Some (strip U n)).
Proof.
  intros Hq Hn. rewrite wipe_lookup, Hn. simpl.
  now rewrite bool_decide_false.
Qed.

Lemma wipe_lookup_freed F U h q :
  q ∈ F -> q < length h -> wipe F U h !! q = Some None.
Proof.
  intros Hq Hlen. rewrite wipe_lookup.
  destruct (lookup_lt_is_Some_2 h q Hlen) as [slot ->]. simpl.
  now rewrite bool_decide_true.
Qed.

Lemma length_wipe F U h : length (wipe F U h) = length h.
Proof. unfold wipe. apply length_imap. Qed.

Lemma filter_not_in_app (U : list nat) p (l : list nat) :
  filter (fun c => c ≠ p) (filter (fun c => c ∉ U) l)
  = filter (fun c => c ∉ U ++ [p]) l.
Proof.
  induction l as [|c l IH]; [reflexivity|].
  rewrite !filter_cons.
  destruct (decide (c ∉ U)) as [HU|HU].
  - rewrite filter_cons. destruct (decide (c ≠ p)) as [Hp|Hp].
    + rewrite decide_True; [now rewrite IH|]. set_solver.
    + rewrite decide_False; [exact IH|]. set_solver.
  - rewrite decide_False; [exact IH|]. set_solver.
Qed.

Lemma nl_list_del_wipe F U h p :
  nl_list_del (wipe F U h) p = wipe F (U ++ [p]) h.
Proof.
  apply list_eq. intros q. unfold nl_list_del.
  rewrite list_lookup_fmap, !wipe_lookup.
  destruct (h !! q) as [slot|]; [|reflexivity]. simpl. f_equal.
  case_bool_decide; [reflexivity|].
  destruct slot as [n|]; [|reflexivity]. simpl. f_equal.
  unfold strip. simpl. f_equal. apply filter_not_in_app.
Qed.

Lemma free_wipe F U h q n :
  q ∉ F -> h !! q = Some (Some n) ->
  free (wipe F U h) q = Ok (wipe (F ++ [q]) U h).
Proof.
  intros Hq Hn. unfold free.
  rewrite (deref_Some _ _ _ (wipe_lookup_live F U h q n Hq Hn)), bind_Ok.
  f_equal. apply list_eq. intros i.
  destruct (decide (i = q)) as [->|Hne].
  - rewrite list_lookup_insert_eq.
    2:{ rewrite length_wipe. now apply lookup_lt_Some in Hn. }
    rewrite wipe_lookup_freed; [reflexivity | set_solver |].
    now apply lookup_lt_Some in Hn.
  - rewrite list_lookup_insert_ne by congruence. rewrite !wipe_lookup.
    destruct (h !! i) as [slot|]; [|reflexivity]. simpl. f_equal.
    repeat case_bool_decide; try reflexivity; set_solver.
Qed.

Lemma wipe_nil h : wipe [] [] h = h.
Proof.
  apply list_eq. intros q. rewrite wipe_lookup.
  destruct (h !! q) as [slot|]; [|reflexivity]. cbn [fmap option_fmap option_map].
  f_equal. rewrite bool_decide_false by set_solver.
  destruct slot as [n|]; [|reflexivity]. simpl. f_equal.
  destruct n as [ch ks]. unfold strip. simpl. f_equal.
  induction ch as [|c ch IH]; [reflexivity|].
  rewrite filter_cons, decide_True by set_solver. now rewrite IH.
Qed.

Lemma wipe_ext F F' U U' h :
  (forall q, q ∈ F <-> q ∈ F') -> (forall q, q ∈ U <-> q ∈ U') ->
  wipe F U h = wipe F' U' h.
Proof.
  intros HF HU. apply list_eq. intros q. rewrite !wipe_lookup.
  destruct (h !! q) as [slot|]; [|reflexivity]. simpl. f_equal.
  rewrite (bool_decide_ext _ _ (HF q)). case_bool_decide; [reflexivity|].
  destruct slot as [n|]; [|reflexivity]. simpl. unfold strip.
  rewrite (list_filter_iff (fun c => c ∉ U) (fun c => c ∉ U')); [reflexivity|].
  intros c. now rewrite HU.
Qed.

Lemma nodes_of_kids_app a b :
  nodes_of_kids (a ++ b) = nodes_of_kids a ++ nodes_of_kids b.
Proof.
  induction a as [|k a IH]; [reflexivity|].
  simpl. unfold nodes_of_kids in *. simpl. rewrite IH. now rewrite app_assoc.
Qed.

Lemma log_of_kids_app h a b :
  log_of_kids h (a ++ b) = log_of_kids h a ++ log_of_kids h b.
Proof.
  induction a as [|k a IH]; [reflexivity|].
  unfold log_of_kids in *. simpl. rewrite IH. now rewrite app_assoc.
Qed.

Lemma pt_root_in_nodes t : pt_root t ∈ pt_nodes t.
Proof. destruct t; simpl. left. Qed.

Lemma root_in_nodes_of_kids k kids : k ∈ kids -> pt_root k ∈ nodes_of_kids kids.
Proof.
  induction kids as [|x kids IH]; intros H; [inversion H|].
  unfold nodes_of_kids. simpl. apply elem_of_app.
  apply elem_of_cons in H as [->|H]; [left; apply pt_root_in_nodes | right; now apply IH].
Qed.

Lemma nodes_in_nodes_of_kids k kids q :
  k ∈ kids -> q ∈ pt_nodes k -> q ∈ nodes_of_kids kids.
Proof.
  induction kids as [|x kids IH]; intros H Hq; [inversion H|].
  unfold nodes_of_kids. simpl. apply elem_of_app.
  apply elem_of_cons in H as [->|H]; [now left | right; now apply IH].
Qed.

Lemma filter_roots (X : list nat) (done rest : list ptree) :
  (forall k, k ∈ done -> pt_root k ∈ X) ->
  (forall k, k ∈ rest -> pt_root k ∉ X) ->
  filter (fun c => c ∉ X) (pt_root <$> (done ++ rest)) = pt_root <$> rest.
Proof.
  intros Hd Hr. rewrite fmap_app, filter_app.
  assert (filter (fun c => c ∉ X) (pt_root <$> done) = []) as ->.
  { clear Hr. induction done as [|k done IH]; [reflexivity|].
    rewrite fmap_cons, filter_cons, decide_False.
    - apply IH. intros k' Hk'. apply Hd. now right.
    - intros H. apply H, Hd. left. }
  simpl. clear Hd. induction rest as [|k rest IH]; [reflexivity|].
  rewrite fmap_cons, filter_cons, decide_True.
  - f_equal. apply IH. intros k' Hk'. apply Hr. now right.
  - apply Hr. left.
Qed.

Lemma key_strings_strip p U n : key_strings p (strip U n) = key_strings p n.
Proof. reflexivity. Qed.

Lemma cleanup_leaf fuel h p n :
  h !! p = Some (Some n) -> children n = [] ->
  cleanup_children_fuel (S fuel) h (Some p)
  = Ok (true, nl_list_del h p, key_strings p n).
Proof.
  intros Hn Hc. cbn [cleanup_children_fuel].
  rewrite (deref_Some _ _ _ Hn), bind_Ok, Hc. reflexivity.
Qed.

Lemma cleanup_inner fuel h p n :
  h !! p = Some (Some n) -> children n ≠ [] ->
  cleanup_children_fuel (S fuel) h (Some p)
  = cleanup_while (cleanup_children_fuel fuel) (Some p) fuel h [].
Proof.
  intros Hn Hc. cbn [cleanup_children_fuel].
  rewrite (deref_Some _ _ _ Hn), bind_Ok.
  destruct (children n); [contradiction | reflexivity].
Qed.

Lemma cleanup_while_spec h F U p n fuel kids :
  h !! p = Some (Some n) -> children n = pt_root <$> kids ->
  Forall (shaped h) kids ->
  NoDup (p :: nodes_of_kids kids) ->
  (forall q, q ∈ p :: nodes_of_kids kids -> (q ∉ F) ∧ (q ∉ U)) ->
  Forall cleanup_spec kids ->
  (1 <= fuel) -> Forall (fun k => cleanup_need k <= fuel) kids ->
  forall rest done turns log,
    kids = done ++ rest -> 2 * length rest + 1 <= turns ->
    cleanup_while (cleanup_children_fuel fuel) (Some p) turns
      (wipe (F ++ nodes_of_kids done) (U ++ nodes_of_kids done) h) log
    = Ok (false,
          wipe (F ++ nodes_of_kids kids) (U ++ nodes_of_kids kids) h,
          log ++ log_of_kids h rest).
Proof.
  intros Hn Hch Hshaped Hnd Hfresh IH Hfuel Hneed.
  induction rest as [|k rest IHrest]; intros done turns log Hkids Hturns.
  - (* no child left *)
    rewrite app_nil_r in Hkids. subst done.
    destruct turns as [|turns]; [lia|]. cbn [cleanup_while].
    assert (p ∉ F ++ nodes_of_kids kids) as HpF.
    { intros H. apply elem_of_app in H as [H|H].
      - destruct (Hfresh p) as [HF _]; [left | contradiction].
      - apply NoDup_cons in Hnd as [Hp _]. contradiction. }
    rewrite (deref_Some _ _ _ (wipe_lookup_live _ (U ++ nodes_of_kids kids) h p n HpF Hn)),
      bind_Ok.
    rewrite get_next_child_lookup. unfold strip. cbn [children].
    rewrite Hch.
    pose proof (filter_roots (U ++ nodes_of_kids kids) kids []) as E.
    rewrite app_nil_r in E. rewrite E.
    + simpl. now rewrite app_nil_r.
    + intros k Hk. apply elem_of_app. right. now apply root_in_nodes_of_kids.
    + intros k Hk. inversion Hk.
  - (* child [k] is next *)
    set (D := nodes_of_kids done) in *.
    assert (nodes_of_kids kids = D ++ pt_nodes k ++ nodes_of_kids rest) as Hnodes.
    { rewrite Hkids, nodes_of_kids_app. reflexivity. }
    assert (k ∈ kids) as Hk_in by (rewrite Hkids; set_solver).
    pose proof (proj1 (Forall_forall _ _) Hshaped k Hk_in) as Hsk.
    pose proof (proj1 (Forall_forall _ _) IH k Hk_in) as IHk.
    pose proof (proj1 (Forall_forall _ _) Hneed k Hk_in) as Hneedk.
    destruct (shaped_root h k Hsk) as (nc & Hnc & Hchc).
    rewrite Hnodes in Hnd, Hfresh.
    apply NoDup_cons in Hnd as [Hp Hnd].
    apply NoDup_app in Hnd as (HndD & HdisjD & Hnd).
    apply NoDup_app in Hnd as (Hndk & Hdisjk & Hndrest).
    assert (forall q, q ∈ pt_nodes k -> (q ∉ F ++ D) ∧ (q ∉ U ++ D)) as Hfreshk.
    { intros q Hq. destruct (Hfresh q) as [HF HU]; [set_solver|].
      split; intros H; apply elem_of_app in H as [H|H]; try contradiction;
        apply (HdisjD q H); set_solver. }
    assert (forall k', k' ∈ done -> pt_root k' ∈ D) as Hdone.
    { intros k' Hk'. now apply root_in_nodes_of_kids. }
    assert (forall k', k' ∈ k :: rest -> (pt_root k' ∉ U) ∧ (pt_root k' ∉ D) ∧
              (pt_root k' ∉ descendants k) ∧ (pt_root k' ∉ F)) as Hrest.
    { intros k' Hk'.
      assert (pt_root k' ∈ pt_nodes k ++ nodes_of_kids rest) as Hin.
      { apply elem_of_cons in Hk' as [->|Hk'].
        - apply elem_of_app. left. apply pt_root_in_nodes.
        - apply elem_of_app. right. now apply root_in_nodes_of_kids. }
      destruct (Hfresh (pt_root k')) as [HF HU]; [set_solver|].
      repeat split; try assumption.
      - intros H. apply (HdisjD _ H Hin).
      - intros H. destruct k as [c kk]. simpl in *.
        fold (nodes_of_kids kk) in *.
        apply elem_of_cons in Hk' as [->|Hk'].
        + simpl in H. apply NoDup_cons in Hndk as [Hc _]. contradiction.
        + apply (Hdisjk (pt_root k')); [set_solver|].
          now apply root_in_nodes_of_kids. }
    assert (p ∉ F) as HpF by (destruct (Hfresh p) as [HF _]; [left | exact HF]).
    assert (p ∉ D ++ pt_nodes k ++ nodes_of_kids rest) as HpN by exact Hp.
    destruct turns as [|turns]; [simpl in Hturns; lia|]. cbn [cleanup_while].
    assert (p ∉ F ++ D) as HpFD by set_solver.
    rewrite (deref_Some _ _ _ (wipe_lookup_live _ (U ++ D) h p n HpFD Hn)), bind_Ok.
    rewrite get_next_child_lookup. unfold strip at 1. cbn [children].
    rewrite Hch, Hkids, filter_roots.
    2:{ intros k' Hk'. apply elem_of_app. right. now apply Hdone. }
    2:{ intros k' Hk'. destruct (Hrest k' Hk') as (HU & HD & _ & _). set_solver. }
    cbn [fmap list_fmap lookup list_lookup].
    rewrite (IHk h (F ++ D) (U ++ D) fuel Hsk Hndk Hfreshk Hneedk), bind_Ok.
    unfold cleanup_result.
    assert (pt_root k ∉ F ++ D) as HcFD by (apply Hfreshk, pt_root_in_nodes).
    destruct (pt_kids k) as [|k1 kk] eqn:Hkk.
    + (* a leaf: one turn *)
      rewrite (free_wipe _ _ _ _ nc HcFD Hnc), bind_Ok.
      assert (pt_nodes k = [pt_root k]) as Hleaf.
      { destruct k as [c kk']. simpl in Hkk. subst kk'. reflexivity. }
      rewrite (wipe_ext _ (F ++ nodes_of_kids (done ++ [k])) _
                 (U ++ nodes_of_kids (done ++ [k]))).
      2,3: intros q; rewrite nodes_of_kids_app; unfold nodes_of_kids at 2;
           simpl; rewrite Hleaf; fold D; set_solver.
      rewrite (IHrest (done ++ [k]) turns).
      2:{ rewrite Hkids, <- app_assoc. reflexivity. }
      2:{ simpl in Hturns. lia. }
      rewrite <- Hkids. f_equal. f_equal.
      change (log_of_kids h (k :: rest))
        with (subtree_log h k ++ log_of_kids h rest).
      unfold subtree_log. destruct k as [c kk']. simpl in Hkk. subst kk'.
      cbn [kids_log foldr pt_root]. rewrite <- !app_assoc. reflexivity.
    + (* an inner node: a second turn finds it childless *)
      destruct turns as [|turns]; [simpl in Hturns; lia|]. cbn [cleanup_while].
      assert (descendants k = nodes_of_kids (k1 :: kk)) as Hdesc.
      { unfold descendants. now rewrite Hkk. }
      assert (pt_nodes k = pt_root k :: descendants k) as Hpk.
      { destruct k as [c kk']. reflexivity. }
      set (Dk := descendants k) in *.
      assert (p ∉ (F ++ D) ++ Dk) as HpF2.
      { rewrite Hpk in HpN. set_solver. }
      rewrite (deref_Some _ _ _ (wipe_lookup_live _ ((U ++ D) ++ Dk) h p n HpF2 Hn)),
        bind_Ok.
      rewrite get_next_child_lookup. unfold strip at 1. cbn [children].
      rewrite Hch, Hkids, filter_roots.
      2:{ intros k' Hk'. apply Hdone in Hk'. set_solver. }
      2:{ intros k' Hk'. destruct (Hrest k' Hk') as (HU & HD & HDk & _).
          fold Dk in HDk. set_solver. }
      cbn [fmap list_fmap lookup list_lookup].
      assert (pt_root k ∉ (F ++ D) ++ Dk) as HcF2.
      { destruct (Hrest k) as (_ & _ & HDk & _); [left|]. fold Dk in HDk. set_solver. }
      destruct fuel as [|fuel']; [lia|].
      rewrite (cleanup_leaf fuel' _ (pt_root k) (strip ((U ++ D) ++ Dk) nc)).
      2:{ now apply wipe_lookup_live. }
      2:{ unfold strip. cbn [children]. rewrite Hchc.
          pose proof (filter_roots ((U ++ D) ++ Dk) (k1 :: kk) []) as E.
          rewrite app_nil_r in E. apply E.
          - intros k' Hk'. apply elem_of_app. right. rewrite Hdesc.
            now apply root_in_nodes_of_kids.
          - intros k' Hk'. inversion Hk'. }
      rewrite bind_Ok. rewrite nl_list_del_wipe.
      rewrite (free_wipe _ _ _ _ nc HcF2 Hnc), bind_Ok.
      rewrite (wipe_ext _ (F ++ nodes_of_kids (done ++ [k])) _
                 (U ++ nodes_of_kids (done ++ [k]))).
      2,3: intros q; rewrite nodes_of_kids_app; unfold nodes_of_kids at 2;
           simpl; rewrite Hpk; fold D; fold Dk; set_solver.
      rewrite (IHrest (done ++ [k]) turns).
      2:{ rewrite Hkids, <- app_assoc. reflexivity. }
      2:{ simpl in Hturns. lia. }
      rewrite <- Hkids. f_equal. f_equal.
      change (log_of_kids h (k :: rest))
        with (subtree_log h k ++ log_of_kids h rest).
      unfold subtree_log, node_strings. rewrite Hnc.
      rewrite <- !app_assoc. reflexivity.
Qed.

Lemma cleanup_need_kids k kids fuel :
  foldr (fun k acc => Nat.max (cleanup_need k) acc) 0 kids <= fuel ->
  k ∈ kids -> cleanup_need k <= fuel.
Proof.
  induction kids as [|x kids IH]; intros H Hk; [inversion Hk|].
  simpl in H. apply elem_of_cons in Hk as [->|Hk]; [lia | apply IH; [lia | exact Hk]].
Qed.

Lemma cleanup_children_tree t : cleanup_spec t.
Proof.
  induction t as [p kids IH] using ptree_ind'.
  intros h F U fuel Hsh Hnd Hfresh Hfuel.
  destruct (shaped_root _ _ Hsh) as (n & Hn & Hch). cbn [pt_root pt_kids] in *.
  destruct fuel as [|fuel]; [simpl in Hfuel; lia|].
  cbn [cleanup_need] in Hfuel.
  assert (p ∉ F) as HpF by (destruct (Hfresh p) as [HF _]; [left | exact HF]).
  pose proof (wipe_lookup_live F U h p n HpF Hn) as Hlive.
  unfold cleanup_result. cbn [pt_root pt_kids].
  destruct kids as [|k kids'] eqn:Hkids.
  - rewrite (cleanup_leaf fuel _ p (strip U n) Hlive).
    2:{ unfold strip. cbn [children]. now rewrite Hch. }
    rewrite nl_list_del_wipe. unfold node_strings. now rewrite Hn.
  - rewrite <- Hkids in *.
    assert (children (strip U n) = pt_root <$> kids) as Hch'.
    { unfold strip. cbn [children]. rewrite Hch.
      apply (filter_roots U [] kids); [intros k' Hk'; inversion Hk'|].
      intros k' Hk'. destruct (Hfresh (pt_root k')) as [_ HU]; [|exact HU].
      right. now apply root_in_nodes_of_kids. }
    rewrite (cleanup_inner fuel _ p (strip U n) Hlive).
    2:{ rewrite Hch', Hkids. discriminate. }
    pose proof (cleanup_while_spec h F U p n fuel kids Hn Hch
                  (shaped_kids _ _ _ Hsh) Hnd Hfresh IH) as Hloop.
    specialize (Hloop ltac:(lia)).
    assert (Forall (fun k => cleanup_need k <= fuel) kids) as Hneed.
    { apply Forall_forall. intros k' Hk'. eapply cleanup_need_kids; [|exact Hk']. lia. }
    specialize (Hloop Hneed kids [] fuel [] eq_refl ltac:(lia)).
    cbn [nodes_of_kids foldr] in Hloop. rewrite !app_nil_r in Hloop.
    rewrite Hloop. rewrite Hkids. reflexivity.
Qed.

Lemma length_kids_nodes kids : length kids <= length (nodes_of_kids kids).
Proof.
  induction kids as [|[p kk] kids IH]; [reflexivity|].
  unfold nodes_of_kids in *. simpl. rewrite length_app. simpl in *. lia.
Qed.

Lemma cleanup_need_bound t : cleanup_need t <= 2 * length (pt_nodes t).
Proof.
  induction t as [p kids IH] using ptree_ind'.
  cbn [cleanup_need pt_nodes]. fold (nodes_of_kids kids). cbn [length].
  pose proof (length_kids_nodes kids).
  assert (foldr (fun k acc => Nat.max (cleanup_need k) acc) 0 kids
          <= 2 * length (nodes_of_kids kids)).
  { clear H. induction IH as [|k kids Hk _ IHk]; [simpl; lia|].
    unfold nodes_of_kids in *. simpl. rewrite length_app. lia. }
  lia.
Qed.

Lemma shaped_nodes_bound h t q : shaped h t -> q ∈ pt_nodes t -> q < length h.
Proof.
  revert q. induction t as [p kids IH] using ptree_ind'. intros q Hsh Hq.
  destruct (shaped_root _ _ Hsh) as (n & Hn & _).
  apply elem_of_cons in Hq as [->|Hq]; [now apply lookup_lt_Some in Hn|].
  pose proof (shaped_kids _ _ _ Hsh) as Hk. clear Hsh Hn.
  induction IH as [|k kids IHk _ IHkids]; [inversion Hq|].
  apply Forall_cons in Hk as [Hk Hks].
  simpl in Hq. apply elem_of_app in Hq as [Hq|Hq]; [now apply IHk | now apply IHkids].
Qed.

Lemma nodes_length_bound h t :
  tree_at h t -> length (pt_nodes t) <= length h.
Proof.
  intros [Hsh Hnd].
  rewrite <- (length_seq (length h) 0).
  apply submseteq_length, NoDup_submseteq; [exact Hnd|].
  intros q Hq. apply elem_of_seq. split; [lia|].
  simpl. now apply (shaped_nodes_bound h t).
Qed.

Lemma freed_nodes_app a b : freed_nodes (a ++ b) = freed_nodes a ++ freed_nodes b.
Proof. unfold freed_nodes. apply omap_app. Qed.

Lemma freed_nodes_key_strings p l i : freed_nodes (free_key_strings p l i) = [].
Proof.
  revert i. induction l as [|k l IH]; intros i; [reflexivity|].
  simpl. rewrite freed_nodes_app, IH. now destruct (lkp_values k).
Qed.

Lemma freed_nodes_node_strings h p : freed_nodes (node_strings h p) = [].
Proof.
  unfold node_strings. destruct (h !! p) as [[n|]|]; try reflexivity.
  apply freed_nodes_key_strings.
Qed.

Lemma freed_nodes_kids_log h t :
  freed_nodes (kids_log h t ++ node_strings h (pt_root t) ++ [FreeNode (pt_root t)])
  = postorder t.
Proof.
  induction t as [p kids IH] using ptree_ind'.
  rewrite !freed_nodes_app, freed_nodes_node_strings. cbn [pt_root postorder].
  simpl app. f_equal.
  induction IH as [|k kids Hk _ IHk]; [reflexivity|].
  cbn [kids_log foldr] in *. rewrite freed_nodes_app. rewrite Hk. f_equal. exact IHk.
Qed.

Local Open Scope Z_scope.

Lemma msg_complete_teardown have_usrspc s2n ge msg data t :
  ¬ kernel_error msg ->
  root data = Some (pt_root t) ->
  tree_at (heap data) t ->
  exists d' log,
    yaml_netlink_msg_complete have_usrspc s2n ge msg data = Ok (NL_STOP, d') ∧
    complete d' = true ∧
    errmsg d' = errmsg data ∧ parser d' = parser data ∧
    (forall q, q ∈ pt_nodes t -> heap d' !! q = Some None) ∧
    freed d' = freed data ++ log ∧
    freed_nodes log = postorder t.
Proof.
  intros Hnoerr Hroot [Hsh Hnd]. unfold yaml_netlink_msg_complete.
  destruct (_ && _) eqn:Htest.
  { apply kernel_error_test in Htest. contradiction. }
  unfold cleanup_children. rewrite Hroot.
  pose proof (cleanup_children_tree t (heap data) [] [] (2 * length (heap data) + 2)%nat
                Hsh Hnd) as Hc.
  rewrite wipe_nil in Hc. rewrite Hc.
  2:{ intros q _. split; apply not_elem_of_nil. }
  2:{ pose proof (cleanup_need_bound t).
      pose proof (nodes_length_bound _ _ (conj Hsh Hnd)). lia. }
  destruct (shaped_root _ _ Hsh) as (n & Hn & Hch).
  assert (pt_nodes t = pt_root t :: descendants t) as Hnodes by now destruct t.
  rewrite bind_Ok. unfold cleanup_result.
  destruct (pt_kids t) as [|k kids] eqn:Hkids.
  - rewrite (free_wipe [] _ _ _ n (not_elem_of_nil _) Hn). rewrite !bind_Ok.
    eexists _, _. split; [reflexivity|]. cbn.
    repeat split.
    + intros q Hq. apply wipe_lookup_freed; [|now apply (shaped_nodes_bound _ t)].
      rewrite Hnodes in Hq. unfold descendants in Hq. rewrite Hkids in Hq.
      exact Hq.
    + rewrite freed_nodes_app, freed_nodes_node_strings.
      destruct t as [p kk]. simpl in Hkids. subst kk. reflexivity.
  - assert (pt_root t ∉ [] ++ descendants t) as Hr.
    { rewrite Hnodes in Hnd. apply NoDup_cons in Hnd as [Hr _]. exact Hr. }
    rewrite (free_wipe _ _ _ _ n Hr Hn). rewrite !bind_Ok.
    eexists _, _. split; [reflexivity|]. cbn.
    repeat split.
    + intros q Hq. apply wipe_lookup_freed; [|now apply (shaped_nodes_bound _ t)].
      rewrite Hnodes in Hq. set_solver.
    + rewrite freed_nodes_app. cbn.
      pose proof (freed_nodes_kids_log (heap data) t) as E.
      rewrite !freed_nodes_app, freed_nodes_node_strings in E. exact E.
Qed.

Lemma msg_complete_no_schema have_usrspc s2n ge msg data :
  ¬ kernel_error msg ->
  root data = None ->
  yaml_netlink_msg_complete have_usrspc s2n ge msg data = Fault NullDeref.
Proof.
  intros Hnoerr Hroot. unfold yaml_netlink_msg_complete.
  destruct (_ && _) eqn:Htest.
  { apply kernel_error_test in Htest. contradiction. }
  rewrite Hroot. unfold cleanup_children.
  replace (2 * length (heap data) + 2)%nat
    with (S (2 * length (heap data) + 1))%nat by lia.
  reflexivity.
Qed.

Lemma msg_complete_sets_flag have_usrspc s2n ge msg data act d' :
  yaml_netlink_msg_complete have_usrspc s2n ge msg data = Ok (act, d') ->
  act = NL_STOP ∧ complete d' = true.
Proof.
  unfold yaml_netlink_msg_complete. intros H.
  match type of H with
  | (?m ≫= _) = _ => destruct m as [x|flt|]; [|discriminate..]
  end.
  rewrite bind_Ok in H. injection H as <- <-. split; reflexivity.
Qed.

(** C4, as stated, fails: on a terminal message that carries a kernel
    error the schema is not walked; its root stays allocated and nothing
    is freed, although the completion flag is set.  The messages are S5 (a
    final message with the code -EINVAL and extended-ack attributes) in a
    build without HAVE_USRSPC_NLMSGERR, and an NLMSG_ERROR message with
    the same code and no extended-ack flag in either build. *)
Lemma C4_counterexample :
  match session_after false [deep_schema] 32 with
  | Ok d =>
      Forall (fun '(have_usrspc_nlmsgerr, msg) =>
                match yaml_netlink_msg_complete have_usrspc_nlmsgerr
                        demo_syserr2nlerr demo_geterror msg d with
                | Ok (_, d') =>
                    complete d' = true ∧ heap d' = heap d ∧ freed d' = [] ∧
                    root d' = Some 0%nat ∧ is_Some (heap d' !! 0%nat ≫= id)
                | _ => False
                end)
             [(false, s5_error); (false, plain_error); (true, plain_error)]
  | _ => False
  end.
Proof. vm_compute. repeat constructor; eauto. Qed.

(** C4, amended.  Whenever the completion callback returns, the
    completion flag is set and every later read returns zero bytes and
    success.  On a final message without kernel error the callback
    returns when the root heads a well-formed tree, and every node of the
    tree is then freed, each after all the nodes below it (post-order);
    when there is no schema (the root is NULL) it dereferences NULL.  On a
    final message with a kernel error the tree is left allocated and
    nothing is freed; the callback returns unless the build reads
    extended acks and the message flags them, in which case the clear of
    nlmsg_parse runs past the attribute table. *)
Theorem C4_final_message
    (libc_eoverflow have_usrspc_nlmsgerr : bool)
    (nl_syserr2nlerr : Z -> Z) (nl_geterror : Z -> string)
    (msg : nl_msg) (data : yaml_netlink_input) :
  let run := yaml_netlink_msg_complete have_usrspc_nlmsgerr nl_syserr2nlerr
               nl_geterror msg data in
  (forall act d',
     run = Ok (act, d') ->
     act = NL_STOP ∧ complete d' = true ∧
     forall nl buf size size_read,
       yaml_netlink_read_handler libc_eoverflow have_usrspc_nlmsgerr
         nl_syserr2nlerr nl_geterror d' nl buf size size_read = Ok (1, 0, d')) ∧
  (¬ kernel_error msg ->
     (forall t, root data = Some (pt_root t) -> tree_at (heap data) t ->
        exists d' log,
          run = Ok (NL_STOP, d') ∧
          (forall q, q ∈ pt_nodes t -> heap d' !! q = Some None) ∧
          freed d' = freed data ++ log ∧ freed_nodes log = postorder t) ∧
     (root data = None -> run = Fault NullDeref)) ∧
  (kernel_error msg ->
     if reads_extack have_usrspc_nlmsgerr msg then run = Fault OutOfBounds
     else exists d',
            run = Ok (NL_STOP, d') ∧ heap d' = heap data ∧ freed d' = freed data).
Proof.
  intros run. split; [|split].
  - intros act d' H.
    destruct (msg_complete_sets_flag have_usrspc_nlmsgerr nl_syserr2nlerr
                nl_geterror msg data act d' H) as [-> Hc].
    repeat split; [exact Hc|]. intros. now apply read_handler_complete.
  - intros Hok. split.
    + intros t Hroot Htree.
      destruct (msg_complete_teardown have_usrspc_nlmsgerr nl_syserr2nlerr nl_geterror
                  msg data t Hok Hroot Htree)
        as (d' & log & Hm & _ & _ & _ & Hq & Hf & Hp).
      exists d', log. repeat split; assumption.
    + intros Hroot. now apply msg_complete_no_schema.
  - intros Herr. destruct (reads_extack have_usrspc_nlmsgerr msg) eqn:Hx.
    + now apply msg_complete_overrun.
    + destruct (msg_complete_error have_usrspc_nlmsgerr nl_syserr2nlerr nl_geterror
                  msg data Herr Hx) as (d' & Hm & _ & _ & Hh & Hf & _).
      exists d'. repeat split; assumption.
Qed.

Lemma C4_final_message_witness :
  (exists d' log,
     yaml_netlink_msg_complete true demo_syserr2nlerr demo_geterror
       done_msg (v_data flow_frame) = Ok (NL_STOP, d') ∧
     (forall q, q ∈ pt_nodes (PT 0 [PT 1 []]) -> heap d' !! q = Some None) ∧
     freed d' = freed (v_data flow_frame) ++ log ∧
     freed_nodes log = postorder (PT 0 [PT 1 []])) ∧
  (exists d',
     yaml_netlink_msg_complete true demo_syserr2nlerr demo_geterror
       plain_error (v_data flow_frame) = Ok (NL_STOP, d') ∧
     heap d' = heap (v_data flow_frame) ∧ freed d' = freed (v_data flow_frame)) ∧
  yaml_netlink_msg_complete true demo_syserr2nlerr demo_geterror
    s5_error (v_data flow_frame) = Fault OutOfBounds.
Proof.
  split; [|split].
  - apply (proj1 (proj2 (C4_final_message false true demo_syserr2nlerr demo_geterror
                           done_msg (v_data flow_frame)))).
    + intros [_ H]. now apply H.
    + reflexivity.
    + split.
      * simpl. repeat split; eexists; (split; [reflexivity|]); reflexivity.
      * cbn. apply NoDup_cons. split; [set_solver | apply NoDup_singleton].
  - apply (proj2 (proj2 (C4_final_message false true demo_syserr2nlerr demo_geterror
                           plain_error (v_data flow_frame)))).
    split; [left; reflexivity | discriminate].
  - apply (proj2 (proj2 (C4_final_message false true demo_syserr2nlerr demo_geterror
                           s5_error (v_data flow_frame)))).
    split; [right; reflexivity | discriminate].
Defined.


(* ------------------------------------------------------------------ *)
(** ** Writes at the frontier of the buffer *)


Lemma length_bytes s : length (bytes s) = String.length s.
Proof. induction s as [|c s IH]; simpl; [reflexivity | now rewrite IH]. Qed.

Lemma bytes_app s t : bytes (s +:+ t) = bytes s ++ bytes t.
Proof. induction s as [|c s IH]; simpl; [reflexivity | now rewrite IH]. Qed.

Lemma length_string_app s t :
  String.length (s +:+ t) = (String.length s + String.length t)%nat.
Proof. induction s as [|c s IH]; simpl; [reflexivity | now rewrite IH]. Qed.

Lemma bytes_string_of_list l : bytes (string_of_list_ascii l) = l.
Proof. apply list_ascii_of_string_of_list_ascii. Qed.

Lemma length_fmt_pad w : String.length (fmt_pad w) = Z.to_nat w.
Proof.
  unfold fmt_pad. rewrite <- length_bytes, bytes_string_of_list.
  apply length_replicate.
Qed.

Lemma store_bytes_frontier m p bs pre rest :
  m = pre ++ rest -> p = Z.of_nat (length pre) ->
  (length bs <= length rest)%nat ->
  store_bytes m p bs = Ok (pre ++ bs ++ drop (length bs) rest).
Proof.
  intros -> -> Hlen. unfold store_bytes, in_buffer.
  rewrite length_app.
  destruct (Z.leb_spec 0 (Z.of_nat (length pre))); [|lia].
  destruct (Z.leb_spec (Z.of_nat (length pre) + Z.of_nat (length bs))
              (Z.of_nat (length pre + length rest))); [|lia].
  simpl. rewrite Nat2Z.id. f_equal.
  rewrite take_app_length. f_equal. f_equal.
  rewrite drop_app_ge by lia. f_equal. lia.
Qed.

Lemma snprintf_frontier e m p size s pre rest :
  m = pre ++ rest -> p = Z.of_nat (length pre) ->
  Z.of_nat (String.length s) < size <= INT_MAX ->
  (S (String.length s) <= length rest)%nat ->
  snprintf e m p size s
  = Ok (pre ++ bytes s ++ NUL :: drop (S (String.length s)) rest,
        Z.of_nat (String.length s)).
Proof.
  intros Hm Hp Hsize Hlen. unfold snprintf, size_t, wrap_unsigned, INT_MAX in *.
  change (2 ^ 31 - 1) with 2147483647 in *.
  change (2 ^ 64) with 18446744073709551616.
  rewrite Z.mod_small by lia.
  destruct (Z.ltb_spec 2147483647 size) as [Hgt|Hle]; [exfalso; clear -Hgt Hsize; lia|].
  rewrite andb_false_r.
  destruct (Z.eqb_spec size 0); [lia|].
  rewrite Z.min_l by lia. rewrite Nat2Z.id.
  rewrite <- length_bytes, firstn_all.
  erewrite (store_bytes_frontier m p _ pre rest Hm Hp).
  2:{ rewrite length_app, length_bytes. simpl. lia. }
  rewrite bind_Ok, <- app_assoc. cbn [app]. rewrite length_app, length_bytes.
  cbn [length]. replace (String.length s + 1)%nat with (S (String.length s)) by lia.
  reflexivity.
Qed.

Lemma strlen_bytes_nul v rest :
  strchr_found v NUL = false -> strlen (bytes v ++ NUL :: rest) = Some (String.length v).
Proof.
  induction v as [|c v IH]; simpl; [reflexivity|].
  intros H. apply orb_false_iff in H as [Hc Hv]. rewrite Hc. now rewrite IH.
Qed.

Lemma strcat_frontier m p s pre v rest :
  m = pre ++ bytes v ++ NUL :: rest -> p = Z.of_nat (length pre) ->
  strchr_found v NUL = false ->
  (String.length s <= length rest)%nat ->
  strcat m p s
  = Ok (pre ++ bytes v ++ bytes s ++ NUL :: drop (String.length s) rest).
Proof.
  intros Hm Hp Hv Hlen. unfold strcat, strlen_at, in_buffer.
  subst m p. rewrite Nat2Z.id.
  destruct (Z.leb_spec 0 (Z.of_nat (length pre))); [|lia].
  rewrite length_app.
  destruct (Z.leb_spec (Z.of_nat (length pre) + Z.of_nat 0)
              (Z.of_nat (length pre + length (bytes v ++ NUL :: rest)))); [|lia].
  simpl. rewrite drop_app_length, (strlen_bytes_nul v rest Hv). simpl.
  erewrite (store_bytes_frontier _ _ _ (pre ++ bytes v) (NUL :: rest)).
  - rewrite length_app, length_bytes. cbn [length].
    replace (String.length s + 1)%nat with (S (String.length s)) by lia.
    cbn [drop]. rewrite <- !app_assoc. reflexivity.
  - now rewrite <- app_assoc.
  - rewrite length_app, length_bytes. lia.
  - rewrite length_app, length_bytes. simpl. lia.
Qed.

#[local] Arguments memset : simpl never.


Lemma INT_MAX_eq : INT_MAX = 2147483647.
Proof. reflexivity. Qed.

Lemma print_frontier e f text pre rest :
  at_frontier (v_data f) pre rest ->
  Z.of_nat (String.length text) < v_size f <= INT_MAX ->
  (S (String.length text) <= length rest)%nat ->
  print e f text
  = Ok (with_len
          (with_data f (set_mem (v_data f)
             (pre ++ bytes text ++ NUL :: drop (S (String.length text)) rest)))
          (Z.of_nat (String.length text))).
Proof.
  intros [Hm Hp] Hsize Hlen. unfold print.
  rewrite (snprintf_frontier e _ _ _ _ pre rest Hm Hp Hsize Hlen). reflexivity.
Qed.

Lemma length_drop_le {A} (l : list A) n m :
  (n + m <= length l)%nat -> (m <= length (drop n l))%nat.
Proof. rewrite length_drop. lia. Qed.

(** A scalar slot of a block mapping: the line "<indent><key>: <value>"
    and a newline are written at the frontier.  The write pointer moves
    past the whole line; the capacity counter drops by the indentation and
    the key, and grows by the value and the newline. *)
Lemma block_scalar_slot e rec node parent attr_array i f n k a text pre rest :
  heap (v_data f) !! node = Some (Some n) ->
  attr_array !! i = Some (Some a) ->
  lkl_list (keys n) !! i = Some k ->
  lkp_data_type k ≠ NLA_NUL_STRING -> lkp_data_type k ≠ NLA_NESTED ->
  scalar_text (lkp_data_type k) a = Some text -> text ≠ EmptyString ->
  has_flag (v_mapping f) LNKF_FLOW = false ->
  has_flag (v_mapping f) LNKF_SEQUENCE = false ->
  has_flag (v_mapping f) LNKF_MAPPING = true ->
  at_frontier (v_data f) pre rest ->
  0 <= indent (v_data f) ->
  let ind := if indent (v_data f) =? 0 then 2 else indent (v_data f) in
  let key := fmt_str (lkp_values k) +:+ ": " in
  let line := fmt_pad ind +:+ key +:+ text in
  Z.of_nat (String.length line) < v_size f <= INT_MAX ->
  (S (String.length line) <= length rest)%nat ->
  exists f',
    value_slot e rec node parent attr_array i f = Ok f' ∧
    at_frontier (v_data f') (pre ++ bytes line ++ [LF])
                (drop (S (String.length line)) rest) ∧
    v_size f' = v_size f - ind - Z.of_nat (String.length key)
                + (Z.of_nat (String.length text) + 1) ∧
    buffer (v_data f') = buffer (v_data f) + ind + Z.of_nat (String.length key)
                + (Z.of_nat (String.length text) + 1) ∧
    sess_rest (v_data f') = sess_rest (v_data f) ∧
    v_mapping f' = v_mapping f ∧ v_child_idx f' = v_child_idx f.
Proof.
  intros Hn Hattr Hk Hty1 Hty2 Htext Hne Hflow Hseq Hmap [Hm Hp] Hind ind key line
    Hsize Hlen.
  assert (0 < ind) as Hind'.
  { subst ind. destruct (Z.eqb_spec (indent (v_data f)) 0); lia. }
  assert (String.length line
          = (Z.to_nat ind + String.length key + String.length text)%nat) as Hline.
  { subst line. rewrite !length_string_app, length_fmt_pad. lia. }
  assert (bytes line = replicate (Z.to_nat ind) SP ++ bytes key ++ bytes text) as Hbytes.
  { subst line. rewrite !bytes_app. unfold fmt_pad. now rewrite bytes_string_of_list. }
  assert (0 < String.length text)%nat as Htlen.
  { destruct text; [contradiction | simpl; lia]. }
  assert (fmt_str (lkp_values k) +:+ ": " = key) as Hkey by reflexivity.
  clearbody line. clearbody key. rewrite INT_MAX_eq in Hsize.
  destruct f as [mapping cidx len0 size d].
  destruct d as [pars m buf err comp ind0 cu ro hp fr].
  cbn [v_data v_mapping v_size v_child_idx mem buffer heap indent] in *.
  subst m buf.
  unfold value_slot.
  cbn [v_data heap].
  rewrite (deref_Some _ _ _ Hn), bind_Ok, (tb_get_Some _ _ _ Hattr), bind_Ok,
    (key_at_Some _ _ _ Hk), bind_Ok.
  rewrite bool_decide_false by discriminate. cbn [andb].
  unfold scalar_prefix.
  rewrite (proj2 (Z.eqb_neq _ _) Hty1), (proj2 (Z.eqb_neq _ _) Hty2). cbn [negb andb].
  cbn [v_mapping v_data indent mem buffer].
  rewrite Hflow, Hseq. cbn [negb]. fold ind. clearbody ind.
  unfold memset.
  rewrite (store_bytes_frontier _ _ _ pre rest eq_refl eq_refl)
    by (rewrite length_replicate; lia).
  rewrite length_replicate, !bind_Ok. simpl. rewrite Hmap, Hkey.
  rewrite (print_frontier e _ _ (pre ++ replicate (Z.to_nat ind) SP)
             (drop (Z.to_nat ind) rest)).
  2:{ split; simpl; [now rewrite <- app_assoc|].
      rewrite length_app, length_replicate. lia. }
  2:{ simpl. rewrite INT_MAX_eq. lia. }
  2:{ rewrite length_drop. lia. }
  rewrite bind_Ok. simpl.
  destruct (Z.ltb_spec (Z.of_nat (String.length key)) 0); [lia|].
  rewrite bind_Ok.
  unfold scalar_case. rewrite Htext.
  rewrite (print_frontier e _ _ (pre ++ replicate (Z.to_nat ind) SP ++ bytes key)
             (NUL :: drop (S (String.length key)) (drop (Z.to_nat ind) rest))).
  2:{ split; simpl; [now rewrite <- !app_assoc|].
      rewrite !length_app, length_replicate, length_bytes. lia. }
  2:{ simpl. rewrite INT_MAX_eq. lia. }
  2:{ simpl. rewrite !length_drop. lia. }
  rewrite !bind_Ok. unfold separator. simpl.
  destruct (Z.eqb_spec (Z.of_nat (String.length text)) 0); [lia|]. cbn [negb].
  rewrite Hflow.
  rewrite (store_bytes_frontier _ _ _
             (pre ++ replicate (Z.to_nat ind) SP ++ bytes key ++ bytes text)
             (NUL :: drop (String.length text)
                       (drop (S (String.length key)) (drop (Z.to_nat ind) rest)))).
  2:{ now rewrite <- !app_assoc. }
  2:{ rewrite !length_app, length_replicate, !length_bytes. lia. }
  2:{ simpl. lia. }
  rewrite bind_Ok. eexists. split; [reflexivity|].
  unfold at_frontier, sess_rest. simpl.
  repeat split.
  - rewrite Hbytes, <- !app_assoc. do 4 f_equal. simpl. f_equal.
    rewrite !drop_drop. f_equal. lia.
  - rewrite !length_app, Hbytes, !length_app, length_replicate, !length_bytes.
    simpl. lia.
Qed.

(** The label in slot 1 of the root: "<label>:" and a newline are written
    at the frontier, once, and the indentation is set for the lines that
    follow. *)
Lemma root_label_slot e rec node parent attr_array f n k name pre rest :
  heap (v_data f) !! node = Some (Some n) ->
  attr_array !! 1%nat = Some None ->
  lkl_list (keys n) !! 1%nat = Some k ->
  lkp_data_type k = NLA_NUL_STRING ->
  lkp_values k = Some name -> name ≠ EmptyString ->
  cur (v_data f) = root (v_data f) ->
  at_frontier (v_data f) pre rest ->
  let line := name +:+ ":" +:+ String LF EmptyString in
  Z.of_nat (String.length line) < v_size f <= INT_MAX ->
  (S (String.length line) <= length rest)%nat ->
  exists f',
    value_slot e rec node parent attr_array 1 f = Ok f' ∧
    at_frontier (v_data f') (pre ++ bytes line)
                (NUL :: drop (S (String.length line)) rest) ∧
    v_size f' = v_size f - Z.of_nat (String.length line) ∧
    indent (v_data f') =
      (if has_flag (v_mapping f) LNKF_FLOW then 0
       else if has_flag (v_mapping f) LNKF_SEQUENCE then 2
       else if has_flag (v_mapping f) LNKF_MAPPING then 2 else 0) ∧
    (parser (v_data f'), errmsg (v_data f'), complete (v_data f'),
     cur (v_data f'), root (v_data f'), heap (v_data f'), freed (v_data f'))
    = (parser (v_data f), errmsg (v_data f), complete (v_data f),
       cur (v_data f), root (v_data f), heap (v_data f), freed (v_data f)) ∧
    v_mapping f' = v_mapping f ∧ v_child_idx f' = v_child_idx f ∧ v_len f' = 0.
Proof.
  intros Hn Hattr Hk Hty Hname Hne Hcur [Hm Hp] line Hsize Hlen.
  assert (name +:+ ":" +:+ String LF EmptyString = line) as Hline by reflexivity.
  assert (0 < String.length name)%nat as Hnlen.
  { destruct name; [contradiction | simpl; lia]. }
  clearbody line.
  destruct f as [mapping cidx len0 size d].
  destruct d as [pars m buf err comp ind0 cu ro hp fr].
  cbn [v_data v_mapping v_size v_child_idx mem buffer heap indent cur root] in *.
  subst m buf cu.
  unfold value_slot. cbn [v_data heap].
  rewrite (deref_Some _ _ _ Hn), bind_Ok, (tb_get_Some _ _ _ Hattr), bind_Ok,
    (key_at_Some _ _ _ Hk), bind_Ok.
  rewrite Hname. rewrite (bool_decide_false (Some name = None)) by discriminate.
  rewrite andb_false_r.
  unfold scalar_prefix. rewrite Hty.
  change (NLA_NUL_STRING =? NLA_NUL_STRING) with true.
  change (NLA_NUL_STRING =? NLA_NESTED) with false. cbn [negb andb].
  rewrite bind_Ok. unfold label_case.
  change (1 =? 1)%nat with true. cbv iota. cbn [v_data cur root].
  rewrite bool_decide_true by reflexivity. rewrite Hname.
  destruct (Nat.eqb_spec (String.length name) 0); [lia|]. cbn [negb].
  rewrite Hline.
  rewrite (print_frontier e _ _ pre rest).
  2:{ split; reflexivity. }
  2:{ exact Hsize. }
  2:{ exact Hlen. }
  rewrite !bind_Ok. simpl.
  destruct (Z.ltb_spec (Z.of_nat (String.length line)) 0); [lia|].
  rewrite !bind_Ok. simpl. unfold separator. simpl.
  eexists. split; [reflexivity|]. unfold at_frontier. simpl.
  repeat split.
  - now rewrite <- app_assoc.
  - rewrite length_app, length_bytes. lia.
  - destruct (has_flag mapping LNKF_FLOW), (has_flag mapping LNKF_SEQUENCE),
      (has_flag mapping LNKF_MAPPING); reflexivity.
Qed.


Lemma s1_schema_intake e buf :
  yaml_netlink_msg_parse e s1_schema (set_buffer (set_mem (new_input fresh_parser) buf) 0)
  = Ok (NL_OK, mk_input fresh_parser buf 0 None false 0 (Some 0%nat) (Some 0%nat)
                 [Some s1_node] []).
Proof. vm_compute. reflexivity. Qed.

Ltac vmc t := let v := eval vm_compute in t in change t with v.

Lemma s1_values_intake e buf :
  (17 <= length buf)%nat -> Z.of_nat (length buf) <= INT_MAX ->
  exists d',
    yaml_netlink_msg_parse e s1_values
      (mk_input fresh_parser buf 0 None false 0 (Some 0%nat) (Some 0%nat)
         [Some s1_node] []) = Ok (NL_STOP, d') ∧
    mem d' = bytes s1_text ++ drop 17 buf ∧ buffer d' = 17 ∧
    parser d' = fresh_parser ∧ errmsg d' = None ∧ complete d' = false ∧
    heap d' = [Some s1_node] ∧ indent d' = 2.
Proof.
  intros Hlen Hmax. unfold yaml_netlink_msg_parse.
  vmc (has_flag (nlmsg_flags (nlmsg_hdr s1_values)) NLM_F_CREATE).
  vmc (has_flag (nlmsg_flags (nlmsg_hdr s1_values)) NLM_F_MULTI).
  cbv iota. cbn [heap cur mem buffer andb].
  rewrite (deref_Some [Some s1_node] 0 s1_node eq_refl), bind_Ok.
  vmc (Z.to_nat (u16 (Z.of_nat (lkl_maxattr (keys s1_node))))).
  match goal with |- context [genlmsg_parse ?m ?a ?b ?c] =>
    vmc (genlmsg_parse m a b c) end.
  rewrite bind_Ok.
  unfold yaml_parse_value_list.
  match goal with |- context [tb_depth ?t] => vmc (tb_depth t) end.
  cbn [yaml_parse_value_list_fuel]. unfold yaml_parse_value_list_body.
  cbn [cur heap fst snd].
  change (deref [Some s1_node] (Some 0%nat)) with (Ok s1_node).
  rewrite bind_Ok.
  change (key_at s1_node 1) with (Ok (mk_key (Some "net") LNKF_MAPPING NLA_NUL_STRING)).
  rewrite !bind_Ok.
  vmc (lkl_maxattr (keys s1_node) - 1)%nat.
  cbn [value_slots lkp_key_format].
  match goal with |- context [value_slot e ?rec ?node ?par ?tb 1 ?f] =>
    destruct (root_label_slot e rec node par tb f s1_node
                (mk_key (Some "net") LNKF_MAPPING NLA_NUL_STRING) "net" [] buf)
      as (f1 & Hs1 & [Hm1 Hp1] & Hsz1 & Hind1 & Hrest1 & Hmap1 & Hci1 & Hl1);
      try reflexivity; try discriminate
  end.
  { split; reflexivity. }
  { simpl. rewrite INT_MAX_eq in *. lia. }
  { simpl. lia. }
  rewrite Hs1, bind_Ok.
  injection Hrest1 as Hpa1 Her1 Hco1 Hcu1 Hro1 Hh1 Hfr1.
  cbn [v_mapping v_data v_size app length] in *.
  match goal with |- context [value_slot e ?rec ?node ?par ?tb 2 f1] =>
    destruct (block_scalar_slot e rec node par tb 2 f1 s1_node
                (mk_key (Some "mtu") 0 NLA_U32) (nla_put_u32 2 9000) "9000"
                (bytes ("net:" +:+ String LF EmptyString))
                (NUL :: drop 6 buf))
      as (f2 & Hs2 & [Hm2 Hp2] & Hsz2 & Hb2 & Hrest2 & _);
      try reflexivity; try discriminate; try assumption
  end.
  { now rewrite Hh1. }
  { now rewrite Hmap1. }
  { now rewrite Hmap1. }
  { now rewrite Hmap1. }
  { split; assumption. }
  { rewrite Hind1. vm_compute. discriminate. }
  { rewrite Hind1, Hsz1. vmc (has_flag LNKF_MAPPING LNKF_FLOW).
    simpl. rewrite INT_MAX_eq in *. lia. }
  { rewrite Hind1. simpl. rewrite length_drop. lia. }
  rewrite Hs2, !bind_Ok. eexists. split; [reflexivity|].
  injection Hrest2 as Hpa2 Her2 Hco2 Hin2 Hcu2 Hro2 Hh2 Hfr2.
  cbn [fst]. rewrite Hm2, Hp2, Hind1.
  repeat split; try congruence.
  - vmc (has_flag LNKF_MAPPING LNKF_FLOW). vmc (has_flag LNKF_MAPPING LNKF_SEQUENCE).
    simpl. rewrite drop_drop. reflexivity.
  - rewrite Hin2, Hind1. reflexivity.
Qed.

(** C1: on a fresh session, the S1 schema followed by the value batch
    {attr#2 = 9000} makes the read handler fill the caller's buffer with
    exactly "net:\n  mtu: 9000\n" (17 bytes) and report 17 bytes read. *)
Theorem C1_s1_scalar_echo e u sy ge buf rc :
  (17 <= length buf)%nat -> Z.of_nat (length buf) <= INT_MAX -> 0 <= rc ->
  exists d',
    yaml_netlink_read_handler e u sy ge (new_input fresh_parser)
      (mk_sock [CbValid s1_schema; CbValid s1_values] rc)
      buf (Z.of_nat (length buf)) 0 = Ok (1, 17, d') ∧
    mem d' = bytes s1_text ++ drop 17 buf ∧
    take 17 (mem d') = bytes s1_text ∧
    buffer d' = 17 ∧ errmsg d' = None ∧ parser d' = fresh_parser.
Proof.
  intros Hlen Hmax Hrc.
  destruct (s1_values_intake e buf Hlen Hmax)
    as (d' & Hv & Hm & Hb & Hp & He & _).
  exists d'. split.
  - unfold yaml_netlink_read_handler, nl_recvmsgs_report.
    cbn [complete new_input dispatched recv_rc run_callbacks].
    rewrite s1_schema_intake, bind_Ok. cbv beta iota.
    rewrite Hv, !bind_Ok. cbv beta iota.
    rewrite Hp, Hb.
    replace (rc =? - NLE_INTR) with false
      by (symmetry; apply Z.eqb_neq; unfold NLE_INTR; lia).
    replace (rc <? 0) with false by (symmetry; apply Z.ltb_ge; lia).
    cbn [error fresh_parser]. rewrite bool_decide_eq_true_2 by reflexivity.
    cbn [negb].
    assert (Hw : wrap_signed 32 (Z.of_nat (length buf)) = Z.of_nat (length buf)).
    { unfold wrap_signed. rewrite INT_MAX_eq in Hmax.
      rewrite Z.mod_small by lia.
      destruct (_ <? _) eqn:E; [reflexivity|]. apply Z.ltb_ge in E. simpl in E. lia. }
    rewrite Hw. vmc (wrap_signed 32 17).
    destruct (17 <? Z.of_nat (length buf)) eqn:E.
    + reflexivity.
    + apply Z.ltb_ge in E. repeat f_equal. lia.
  - rewrite Hm. repeat split; assumption.
Qed.

Lemma C1_s1_scalar_echo_witness :
  exists d',
    yaml_netlink_read_handler false true demo_syserr2nlerr demo_geterror
      (new_input fresh_parser)
      (mk_sock [CbValid s1_schema; CbValid s1_values] 0)
      (repeat "x"%char 20) (Z.of_nat (length (repeat "x"%char 20))) 0
      = Ok (1, 17, d') ∧
    mem d' = bytes s1_text ++ drop 17 (repeat "x"%char 20) ∧
    take 17 (mem d') = bytes s1_text ∧
    buffer d' = 17 ∧ errmsg d' = None ∧ parser d' = fresh_parser.
Proof.
  apply (C1_s1_scalar_echo false true demo_syserr2nlerr demo_geterror
           (repeat "x"%char 20) 0).
  - simpl. lia.
  - vm_compute. discriminate.
  - lia.
Defined.

(* ------------------------------------------------------------------ *)
(** ** The capacity counter *)

(** C6: a block scalar line of n bytes moves the write pointer by n, but
    the counter of remaining capacity is charged only for the indentation
    and the key and is then credited (line 708, [*size += len]) with the
    value text and its newline: pointer and counter drift apart by twice
    the length of that fragment, and the counter grows across it. *)
Theorem C6_capacity_credited_for_value
    e rec node parent attr_array i f n k a text pre rest :
  heap (v_data f) !! node = Some (Some n) ->
  attr_array !! i = Some (Some a) ->
  lkl_list (keys n) !! i = Some k ->
  lkp_data_type k ≠ NLA_NUL_STRING -> lkp_data_type k ≠ NLA_NESTED ->
  scalar_text (lkp_data_type k) a = Some text -> text ≠ EmptyString ->
  has_flag (v_mapping f) LNKF_FLOW = false ->
  has_flag (v_mapping f) LNKF_SEQUENCE = false ->
  has_flag (v_mapping f) LNKF_MAPPING = true ->
  at_frontier (v_data f) pre rest ->
  0 <= indent (v_data f) ->
  let ind := if indent (v_data f) =? 0 then 2 else indent (v_data f) in
  let key := fmt_str (lkp_values k) +:+ ": " in
  let line := fmt_pad ind +:+ key +:+ text in
  let written := Z.of_nat (S (String.length line)) in
  let fragment := Z.of_nat (S (String.length text)) in
  Z.of_nat (String.length line) < v_size f <= INT_MAX ->
  (S (String.length line) <= length rest)%nat ->
  exists f',
    value_slot e rec node parent attr_array i f = Ok f' ∧
    buffer (v_data f') = buffer (v_data f) + written ∧
    v_size f' = v_size f - written + 2 * fragment ∧
    v_size f' + buffer (v_data f') = v_size f + buffer (v_data f) + 2 * fragment.
Proof.
  intros Hn Hattr Hk Hty1 Hty2 Htext Hne Hflow Hseq Hmap Hfr Hind
    ind key line written fragment Hsize Hlen.
  destruct (block_scalar_slot e rec node parent attr_array i f n k a text pre rest
              Hn Hattr Hk Hty1 Hty2 Htext Hne Hflow Hseq Hmap Hfr Hind Hsize Hlen)
    as (f' & Hs & _ & Hsz & Hb & _).
  assert (0 < ind) as Hind'.
  { subst ind. destruct (Z.eqb_spec (indent (v_data f)) 0); lia. }
  assert (Z.of_nat (String.length line)
          = ind + Z.of_nat (String.length key) + Z.of_nat (String.length text)) as Hline.
  { subst line. rewrite !length_string_app, length_fmt_pad. lia. }
  fold ind key in Hsz, Hb.
  exists f'. subst written fragment. repeat split; [assumption | lia | lia | lia].
Qed.

Lemma C6_capacity_credited_for_value_witness :
  exists f',
    value_slot false (fun _ _ _ _ => Timeout) 0%nat (0%nat, 1%nat)
      [None; None; Some (nla_put_u32 2 9000)] 2 s1_mtu_frame = Ok f' ∧
    buffer (v_data f') = 5 + 12 ∧
    v_size f' = 35 - 12 + 2 * 5 ∧
    v_size f' + buffer (v_data f') = 35 + 5 + 2 * 5.
Proof.
  apply (C6_capacity_credited_for_value false (fun _ _ _ _ => Timeout) 0%nat
           (0%nat, 1%nat) [None; None; Some (nla_put_u32 2 9000)] 2%nat s1_mtu_frame s1_node
           (mk_key (Some "mtu") 0 NLA_U32) (nla_put_u32 2 9000) "9000"
           (bytes ("net:" +:+ String LF EmptyString)) (repeat "x"%char 35));
    try reflexivity; try discriminate.
  - split; reflexivity.
  - vm_compute. split; [reflexivity | discriminate].
  - simpl. lia.
Defined.

(** S1 in a buffer of 8 bytes: the line does not fit, and the writer runs
    past the end of the buffer instead of unwinding. *)
Example value_list_overruns_small_buffer e :
  yaml_parse_value_list e
    (mk_input fresh_parser (repeat "x"%char 8) 0 None false 0
       (Some 0%nat) (Some 0%nat) [Some s1_node] [])
    8 [None; None; Some (nla_put_u32 2 9000)] (0%nat, 1%nat)
  = Fault OutOfBounds.
Proof. destruct e; vm_compute; reflexivity. Qed.

(** S1 in a buffer of 40 bytes: 17 bytes are written and the counter
    ends at 33. *)
Example value_list_s1_counter e :
  (d ← yaml_parse_value_list e
    (mk_input fresh_parser (repeat "x"%char 40) 0 None false 0
       (Some 0%nat) (Some 0%nat) [Some s1_node] [])
    40 [None; None; Some (nla_put_u32 2 9000)] (0%nat, 1%nat);
   Ok (buffer (fst d), snd d)) = Ok (17, 33).
Proof. destruct e; vm_compute; reflexivity. Qed.

(* ------------------------------------------------------------------ *)
(** ** Flow containers *)

Lemma u32_small z : 0 <= z <= INT_MAX -> u32 z = z.
Proof.
  intros H. unfold u32, wrap_unsigned. rewrite INT_MAX_eq in H.
  apply Z.mod_small. change (2 ^ 32) with 4294967296. lia.
Qed.

Lemma string_app_nil_r s : s +:+ EmptyString = s.
Proof.
  induction s as [|c s IH]; [reflexivity|].
  change (String c (s +:+ EmptyString) = String c s). now rewrite IH.
Qed.

Lemma string_app_assoc a b c : (a +:+ b) +:+ c = a +:+ (b +:+ c).
Proof.
  induction a as [|x a IH]; [reflexivity|].
  change (String x ((a +:+ b) +:+ c) = String x (a +:+ (b +:+ c))). now rewrite IH.
Qed.

Lemma c_str_no_nul s : strchr_found (c_str s) NUL = false.
Proof.
  induction s as [|c s IH]; [reflexivity|]. simpl.
  destruct (Ascii.eqb c NUL) eqn:E; [reflexivity|]. simpl. now rewrite E, IH.
Qed.

Lemma string_of_uint_no_nul d : strchr_found (NilEmpty.string_of_uint d) NUL = false.
Proof. induction d; simpl; auto. Qed.

Lemma fmt_unsigned_no_nul z : strchr_found (fmt_unsigned z) NUL = false.
Proof. apply string_of_uint_no_nul. Qed.

Lemma fmt_signed_no_nul z : strchr_found (fmt_signed z) NUL = false.
Proof.
  unfold fmt_signed. destruct (z <? 0); [|apply fmt_unsigned_no_nul].
  simpl. apply fmt_unsigned_no_nul.
Qed.

Lemma scalar_text_no_nul type attr text :
  scalar_text type attr = Some text -> strchr_found text NUL = false.
Proof.
  unfold scalar_text, nla_get_string.
  repeat (destruct (type =? _); [intros [= <-];
    first [apply c_str_no_nul | apply fmt_unsigned_no_nul | apply fmt_signed_no_nul]|]).
  discriminate.
Qed.

(** The key of a scalar entry of a flow container: nothing without the
    MAPPING format, "<key>: " with it. *)
Lemma flow_prefix e k a f pre rest :
  lkp_data_type k ≠ NLA_NUL_STRING -> lkp_data_type k ≠ NLA_NESTED ->
  has_flag (v_mapping f) LNKF_FLOW = true ->
  at_frontier (v_data f) pre rest ->
  let key := if has_flag (v_mapping f) LNKF_MAPPING
             then fmt_str (lkp_values k) +:+ ": " else EmptyString in
  Z.of_nat (String.length key) < v_size f <= INT_MAX ->
  (S (String.length key) <= length rest)%nat ->
  exists f1 rest1,
    scalar_prefix e k (Some a) f = Ok (Fall f1) ∧
    at_frontier (v_data f1) (pre ++ bytes key) rest1 ∧
    drop 1 rest1 = drop (S (String.length key)) rest ∧
    length rest1 = (length rest - String.length key)%nat ∧
    v_size f1 = v_size f - Z.of_nat (String.length key) ∧
    sess_rest (v_data f1) = sess_rest (v_data f) ∧
    v_mapping f1 = v_mapping f ∧ v_child_idx f1 = v_child_idx f.
Proof.
  intros Hty1 Hty2 Hflow [Hm Hp] key Hsize Hlen.
  unfold scalar_prefix.
  rewrite (proj2 (Z.eqb_neq _ _) Hty1), (proj2 (Z.eqb_neq _ _) Hty2). cbn [negb andb].
  rewrite Hflow. cbn [negb]. rewrite bind_Ok.
  subst key. destruct (has_flag (v_mapping f) LNKF_MAPPING).
  - rewrite (print_frontier e _ _ pre rest); [|split; assumption|assumption..].
    rewrite bind_Ok. cbn [v_len with_len].
    destruct (Z.ltb_spec (Z.of_nat (String.length (fmt_str (lkp_values k) +:+ ": "))) 0);
      [lia|].
    exists (advance (with_len (with_data f (set_mem (v_data f)
              (pre ++ bytes (fmt_str (lkp_values k) +:+ ": ") ++
               NUL :: drop (S (String.length (fmt_str (lkp_values k) +:+ ": "))) rest)))
              (Z.of_nat (String.length (fmt_str (lkp_values k) +:+ ": "))))
              (Z.of_nat (String.length (fmt_str (lkp_values k) +:+ ": ")))),
      (NUL :: drop (S (String.length (fmt_str (lkp_values k) +:+ ": "))) rest).
    split; [reflexivity|].
    destruct f as [mapping cidx len0 size d].
    destruct d as [pars m buf err comp ind0 cu ro hp fr].
    unfold at_frontier, sess_rest. simpl in *.
    repeat split.
    + now rewrite <- app_assoc.
    + rewrite length_app, length_bytes. lia.
    + rewrite length_drop. lia.
  - exists f, rest. split; [reflexivity|]. simpl.
    repeat split; try assumption.
    + now rewrite app_nil_r.
    + now rewrite app_nil_r.
    + lia.
    + lia.
Qed.

(** A scalar entry of a flow container: the key if the format asks for
    it, the value, and the separator ", " unless the value is empty. *)
Lemma flow_entry_slot e rec node parent attr_array i f n k a text pre rest :
  heap (v_data f) !! node = Some (Some n) ->
  attr_array !! i = Some (Some a) ->
  lkl_list (keys n) !! i = Some k ->
  lkp_data_type k ≠ NLA_NUL_STRING -> lkp_data_type k ≠ NLA_NESTED ->
  scalar_text (lkp_data_type k) a = Some text ->
  has_flag (v_mapping f) LNKF_FLOW = true ->
  at_frontier (v_data f) pre rest ->
  let key := if has_flag (v_mapping f) LNKF_MAPPING
             then fmt_str (lkp_values k) +:+ ": " else EmptyString in
  let sep := if (String.length text =? 0)%nat then EmptyString else ", " in
  let w := key +:+ text +:+ sep in
  Z.of_nat (String.length key + String.length text) < v_size f <= INT_MAX ->
  (S (String.length w) <= length rest)%nat ->
  exists f',
    value_slot e rec node parent attr_array i f = Ok f' ∧
    at_frontier (v_data f') (pre ++ bytes w) (NUL :: drop (S (String.length w)) rest) ∧
    sess_rest (v_data f') = sess_rest (v_data f) ∧
    v_mapping f' = v_mapping f.
Proof.
  intros Hn Hattr Hk Hty1 Hty2 Htext Hflow Hfr key sep w Hsize Hlen.
  pose proof (scalar_text_no_nul _ _ _ Htext) as Hnul.
  assert (String.length w
          = (String.length key + String.length text + String.length sep)%nat) as Hw.
  { subst w. rewrite !length_string_app. lia. }
  rewrite INT_MAX_eq in Hsize.
  destruct (flow_prefix e k a f pre rest Hty1 Hty2 Hflow Hfr)
    as (f1 & rest1 & Hpre & [Hm1 Hp1] & Hd1 & Hl1 & Hsz1 & Hrest1 & Hmap1 & _).
  { fold key. rewrite INT_MAX_eq. lia. }
  { fold key. lia. }
  fold key in Hpre, Hm1, Hp1, Hd1, Hl1, Hsz1.
  unfold value_slot.
  rewrite (deref_Some _ _ _ Hn), bind_Ok, (tb_get_Some _ _ _ Hattr), bind_Ok,
    (key_at_Some _ _ _ Hk), bind_Ok.
  rewrite bool_decide_false by discriminate. cbn [andb].
  rewrite Hpre, bind_Ok.
  rewrite (proj2 (Z.eqb_neq _ _) Hty1), (proj2 (Z.eqb_neq _ _) Hty2).
  unfold scalar_case. rewrite Htext.
  rewrite (print_frontier e _ _ (pre ++ bytes key) rest1);
    [|split; assumption | rewrite INT_MAX_eq; lia | lia].
  rewrite !bind_Ok.
  assert (drop (S (String.length text)) rest1
          = drop (S (String.length key + String.length text)) rest) as Hdrop.
  { replace (S (String.length text)) with (1 + String.length text)%nat by lia.
    rewrite <- drop_drop, Hd1, drop_drop. f_equal; lia. }
  rewrite Hdrop.
  destruct f1 as [mapping cidx len0 size d].
  destruct d as [pars m buf err comp ind0 cu ro hp fr].
  cbn [v_data v_mapping v_size v_child_idx v_len mem buffer heap indent] in *.
  subst m buf mapping.
  unfold separator, with_len, with_data, set_mem.
  cbn [v_data v_mapping v_size v_child_idx v_len mem buffer heap indent parser errmsg
       complete cur root freed].
  subst sep. destruct (Nat.eqb_spec (String.length text) 0) as [Hz|Hnz].
  - destruct (Z.eqb_spec (Z.of_nat (String.length text)) 0); [|lia]. cbn [negb].
    eexists. split; [reflexivity|].
    assert (text = EmptyString) as -> by (destruct text; [reflexivity|discriminate]).
    assert (w = key) as -> by (subst w; now rewrite !string_app_nil_r).
    unfold at_frontier. simpl in *. repeat split; try assumption.
    do 3 f_equal. lia.
  - destruct (Z.eqb_spec (Z.of_nat (String.length text)) 0); [lia|]. cbn [negb].
    rewrite Hflow.
    rewrite (strcat_frontier _ _ _ (pre ++ bytes key) text
               (drop (S (String.length key + String.length text)) rest)
               eq_refl eq_refl Hnul)
      by (rewrite length_drop; simpl in *; lia).
    rewrite bind_Ok. eexists. split; [reflexivity|].
    unfold at_frontier. simpl in *. repeat split; try assumption.
    + subst w. rewrite !bytes_app, <- !app_assoc. simpl. do 5 f_equal.
      f_equal. rewrite drop_drop. f_equal. rewrite !length_string_app. simpl. lia.
    + subst w. rewrite !bytes_app, !length_app, !length_bytes. simpl. lia.
Qed.

Lemma close_frontier m b (kept sfx closing pre R : list ascii) :
  m = pre ++ kept ++ sfx ++ NUL :: R ->
  b = Z.of_nat (length (pre ++ kept ++ sfx)) ->
  length sfx = 2%nat -> length closing = 3%nat ->
  store_bytes m (b - 2) closing = Ok (pre ++ kept ++ closing ++ R).
Proof.
  intros -> -> Hs Hc.
  rewrite (store_bytes_frontier _ _ _ (pre ++ kept) (sfx ++ NUL :: R)).
  - rewrite <- app_assoc. do 3 f_equal. rewrite Hc.
    destruct sfx as [|x [|y [|z sfx]]]; try discriminate. reflexivity.
  - now rewrite <- app_assoc.
  - rewrite !length_app, Hs. lia.
  - rewrite length_app, Hs, Hc. simpl. lia.
Qed.

(** The two shapes of [flow_line]: with a text the entry stands between
    the braces; without one the brace (or the ": " behind the name of the
    entry) is lost. *)
Lemma flow_line_text (seq named : bool) (label ename v : string) :
  v ≠ EmptyString ->
  flow_line seq named label ename v
  = label +:+ (if seq then "[" else "{") +:+ " "
      +:+ (if named then ename +:+ ": " else EmptyString) +:+ v
      +:+ (if seq then " ]" else " }") +:+ String LF EmptyString.
Proof.
  intros Hv. unfold flow_line. destruct v; [contradiction|]. simpl.
  now rewrite !string_app_assoc.
Qed.

Lemma flow_line_no_text (seq named : bool) (label ename : string) :
  flow_line seq named label ename EmptyString
  = (if named then label +:+ (if seq then "[" else "{") +:+ " " +:+ ename else label)
      +:+ (if seq then " ]" else " }") +:+ String LF EmptyString.
Proof. unfold flow_line. simpl. destruct named; now rewrite ?string_app_assoc. Qed.

Lemma flow_line_length (seq named : bool) (label ename v : string)
    (key := if named then ename +:+ ": " else EmptyString) :
  String.length (flow_line seq named label ename v)
  = (String.length label + 2 + String.length key
     + (if (String.length v =? 0)%nat then 0 else String.length v + 2) + 1)%nat.
Proof.
  unfold flow_line. subst key.
  destruct (String.length v =? 0)%nat, named, seq; rewrite !length_string_app;
    simpl; lia.
Qed.

(** A flow container with one scalar entry, as a slot of its node. *)
Lemma flow_container_slot
    e fuel node parent attr_array i f n k a cnt c nx k0 ke tb av v pre rest :
  heap (v_data f) !! node = Some (Some n) ->
  attr_array !! i = Some (Some a) ->
  lkl_list (keys n) !! i = Some k ->
  lkp_data_type k = NLA_NESTED ->
  has_flag (lkp_key_format k) LNKF_FLOW = true ->
  get_next_child n (v_child_idx f) = Some c ->
  heap (v_data f) !! c = Some (Some nx) ->
  keys nx = mk_key_list 2 [k0; ke] ->
  lkp_data_type ke ≠ NLA_NUL_STRING -> lkp_data_type ke ≠ NLA_NESTED ->
  nla_nested_attrs a = [cnt] ->
  nla_parse_nested 2 2 cnt [0; lkp_data_type ke] = Ok (Some tb) ->
  tb !! 1%nat = Some (Some av) ->
  scalar_text (lkp_data_type ke) av = Some v ->
  at_frontier (v_data f) pre rest ->
  0 <= indent (v_data f) ->
  let seq := has_flag (lkp_key_format k) LNKF_SEQUENCE in
  let named := has_flag (lkp_key_format k) LNKF_MAPPING in
  let label := fmt_pad (indent (v_data f)) +:+ fmt_str (lkp_values k) +:+ ": " in
  let ename := fmt_str (lkp_values ke) in
  let line := flow_line seq named label ename v in
  let longest := (String.length label + String.length ename + String.length v + 7)%nat in
  Z.of_nat longest < v_size f <= INT_MAX ->
  (longest <= length rest)%nat ->
  exists f',
    value_slot e (yaml_parse_value_list_fuel e (S fuel)) node parent attr_array i f
      = Ok f' ∧
    at_frontier (v_data f') (pre ++ bytes line) (drop (String.length line) rest) ∧
    sess_rest (v_data f') = sess_rest (v_data f).
Proof.
  intros Hn Hattr Hk Hty Hflow Hnext Hc Hkeys Hty1 Hty2 Hnest Hparse Htb
    Htext [Hm Hp] Hind seq named label ename line longest Hsize Hlen.
  set (head := label +:+ (if seq then "[" else "{") +:+ " ").
  set (key := if named then ename +:+ ": " else EmptyString).
  set (sep := if (String.length v =? 0)%nat then EmptyString else ", ").
  set (w := key +:+ v +:+ sep).
  assert (String.length head = (String.length label + 2)%nat) as Hhl.
  { subst head. rewrite !length_string_app. destruct seq; simpl; lia. }
  assert (String.length key <= String.length ename + 2)%nat as Hkl.
  { subst key. destruct named; [rewrite length_string_app|]; simpl; lia. }
  assert (String.length w = (String.length key + String.length v + String.length sep)%nat)
    as Hwl.
  { subst w. rewrite !length_string_app. lia. }
  assert (String.length sep <= 2)%nat as Hsl.
  { subst sep. destruct (String.length v =? 0)%nat; simpl; lia. }
  assert (Z.to_nat (indent (v_data f)) <= String.length label)%nat as Hpad.
  { subst label. rewrite length_string_app, length_fmt_pad. lia. }
  pose proof (flow_line_length seq named label ename v) as Hline.
  fold line key in Hline.
  assert (String.length line = (String.length head + String.length w + 1)%nat) as Hline'.
  { rewrite Hline, Hhl, Hwl. subst sep.
    destruct (Nat.eqb_spec (String.length v) 0); simpl; lia. }
  assert (exists kept sfx,
            bytes head ++ bytes w = kept ++ sfx ∧ length sfx = 2%nat ∧
            bytes line = kept ++ bytes ((if seq then " ]" else " }") +:+ String LF EmptyString))
    as (kept & sfx & Hsplit & Hsfx & Hkept).
  { subst line w sep key head. unfold flow_line.
    destruct (String.length v =? 0)%nat eqn:Hv.
    - assert (v = EmptyString) as -> by
        (destruct v; [reflexivity | discriminate]).
      destruct named.
      + exists (bytes (label +:+ (if seq then "[" else "{") +:+ " " +:+ ename)), (bytes ": ").
        rewrite !bytes_app. simpl. rewrite <- !app_assoc.
        repeat split; rewrite ?app_nil_r; try reflexivity.
      + exists (bytes label), (bytes ((if seq then "[" else "{") +:+ " ")).
        rewrite !bytes_app. simpl. rewrite ?app_nil_r.
        repeat split; try reflexivity; destruct seq; reflexivity.
    - exists (bytes (label +:+ (if seq then "[" else "{") +:+ " "
                     +:+ (if named then ename +:+ ": " else EmptyString) +:+ v)),
             (bytes ", ").
      rewrite !bytes_app, <- !app_assoc. repeat split. }
  clearbody line. subst longest.
  rewrite INT_MAX_eq in Hsize.
  assert (fmt_pad (indent (v_data f)) +:+ fmt_str (lkp_values k) +:+ ": "
            +:+ (if seq then "[" else "{") +:+ " "
          = head) as Hhead.
  { subst head label. now rewrite !string_app_assoc. }
  clearbody head.
  destruct f as [mapping cidx len0 size d].
  destruct d as [pars m buf err comp ind0 cu ro hp fr].
  cbn [v_data v_mapping v_size v_child_idx mem buffer heap indent] in *.
  subst m buf.
  unfold value_slot. cbn [v_data heap].
  rewrite (deref_Some _ _ _ Hn), bind_Ok, (tb_get_Some _ _ _ Hattr), bind_Ok,
    (key_at_Some _ _ _ Hk), bind_Ok.
  rewrite bool_decide_false by discriminate. cbn [andb].
  unfold scalar_prefix. rewrite Hty.
  vmc (NLA_NESTED =? NLA_NUL_STRING). vmc (NLA_NESTED =? NLA_NESTED).
  cbn [negb andb]. rewrite bind_Ok. cbv iota.
  unfold nested_case. cbn [v_child_idx with_child_idx v_data heap].
  rewrite Hnext, (deref_Some _ _ _ Hc), bind_Ok, Hkeys.
  cbn [lkl_maxattr lkl_list take drop fmap list_fmap].
  rewrite Hnest. cbn [nested_elems]. unfold nested_elem at 1.
  rewrite Hparse, bind_Ok. cbv iota.
  unfold with_data, with_child_idx, set_cur.
  cbn [v_data v_mapping v_size v_child_idx v_len mem buffer heap indent parser errmsg
       complete cur root freed].
  rewrite (deref_Some _ _ _ Hn), bind_Ok, (key_at_Some _ _ _ Hk), bind_Ok.
  rewrite Hflow. fold seq. rewrite Hhead.
  rewrite (print_frontier e _ _ pre rest);
    [| split; reflexivity | cbn [v_size]; rewrite INT_MAX_eq; lia | lia].
  rewrite bind_Ok.
  unfold with_len, advance, with_size, with_data, set_mem, set_buffer, set_indent.
  cbn [v_data v_mapping v_size v_child_idx v_len mem buffer heap indent parser errmsg
       complete cur root freed].
  destruct (Z.ltb_spec (Z.of_nat (String.length head)) 0); [lia|].
  rewrite Z.add_0_r, (u32_small ind0) by (rewrite INT_MAX_eq; lia).
  change (yaml_parse_value_list_fuel e (S fuel))
    with (yaml_parse_value_list_body e (yaml_parse_value_list_fuel e fuel)).
  unfold yaml_parse_value_list_body. cbn [cur heap fst snd].
  rewrite (deref_Some _ _ _ Hn), bind_Ok, (key_at_Some _ _ _ Hk), bind_Ok,
    (deref_Some _ _ _ Hc), bind_Ok, Hkeys.
  cbn [lkl_maxattr Nat.sub value_slots].
  match goal with |- context [value_slot e ?rec c ?par tb 1 ?f0] =>
    destruct (flow_entry_slot e rec c par tb 1 f0 nx ke av v
                (pre ++ bytes head) (NUL :: drop (S (String.length head)) rest))
      as (f1 & Hs1 & [Hm1 Hp1] & Hrest1 & Hmap1);
      try assumption
  end.
  { rewrite Hkeys. reflexivity. }
  { split; cbn [v_data mem buffer]; [now rewrite <- app_assoc|].
    rewrite length_app, length_bytes. lia. }
  { cbn [v_size v_mapping]. fold named ename key. rewrite INT_MAX_eq. lia. }
  { cbn [v_mapping]. fold named ename key sep w. cbn [length].
    rewrite length_drop. lia. }
  cbn [v_mapping] in Hm1, Hp1. fold named ename key sep w in Hm1, Hp1.
  rewrite Hs1, !bind_Ok.
  injection Hrest1 as Hpa1 Her1 Hco1 Hin1 Hcu1 Hro1 Hh1 Hfr1.
  cbn [v_data v_mapping v_size v_child_idx v_len mem buffer heap indent parser errmsg
       complete cur root freed] in *.
  rewrite Hin1, Z.sub_0_r, (u32_small ind0) by (rewrite INT_MAX_eq; lia).
  rewrite Hh1, (deref_Some _ _ _ Hn), bind_Ok, (key_at_Some _ _ _ Hk), bind_Ok.
  rewrite Hflow. fold seq.
  rewrite (close_frontier _ _ kept sfx _ pre
             (drop (S (String.length w)) (NUL :: drop (S (String.length head)) rest))).
  2:{ rewrite Hm1, <- !app_assoc. rewrite (app_assoc (bytes head)), Hsplit.
      now rewrite <- !app_assoc. }
  2:{ rewrite Hp1, <- !app_assoc, Hsplit. reflexivity. }
  2:{ exact Hsfx. }
  2:{ destruct seq; reflexivity. }
  rewrite !bind_Ok. cbv iota. try rewrite !bind_Ok. cbv iota.
  unfold separator.
  cbn [v_data v_mapping v_size v_child_idx v_len mem buffer heap indent parser errmsg
       complete cur root freed Z.eqb negb].
  eexists. split; [reflexivity|].
  unfold at_frontier, sess_rest.
  cbn [v_data v_mapping v_size v_child_idx v_len mem buffer heap indent parser errmsg
       complete cur root freed].
  assert (length kept + 2 = String.length head + String.length w)%nat as Hkl2.
  { rewrite <- Hsfx, <- length_app, <- Hsplit, length_app, !length_bytes. reflexivity. }
  repeat split; try congruence.
  - rewrite Hkept, <- !app_assoc. do 3 f_equal.
    cbn [drop]. rewrite drop_drop. f_equal. lia.
  - rewrite Hp1, Hkept, !length_app, !length_bytes.
    destruct seq; simpl; lia.
Qed.

(** C7: a flow container whose single element holds one scalar entry is
    written by value intake as the line [flow_line], for every entry type
    and every entry text, given room for the line.  When the text v of
    the entry is not empty the line is "k: { v }" and a newline
    ("k: [ v ]" for a sequence, "k: { e: v }" when the container names its
    entries): the entry is followed by ", ", and the closing brace and the
    newline are copied over that separator.  When v is empty no separator
    is written, and the closing brace is copied over the two bytes before
    the write pointer all the same: over the opening brace, which leaves
    "k:  }", or over the ": " behind the name of the entry, which leaves
    "k: { e }". *)
Theorem C7_flow_container_line
    e data size node n kz k a0 a cnt c nx k0 ke tb av v pre rest :
  cur data = Some node ->
  heap data !! node = Some (Some n) ->
  keys n = mk_key_list 2 [kz; k] ->
  lkp_data_type k = NLA_NESTED ->
  has_flag (lkp_key_format k) LNKF_FLOW = true ->
  get_next_child n 0 = Some c ->
  heap data !! c = Some (Some nx) ->
  keys nx = mk_key_list 2 [k0; ke] ->
  lkp_data_type ke ≠ NLA_NUL_STRING -> lkp_data_type ke ≠ NLA_NESTED ->
  nla_nested_attrs a = [cnt] ->
  nla_parse_nested 2 2 cnt [0; lkp_data_type ke] = Ok (Some tb) ->
  tb !! 1%nat = Some (Some av) ->
  scalar_text (lkp_data_type ke) av = Some v ->
  at_frontier data pre rest ->
  0 <= indent data ->
  let seq := has_flag (lkp_key_format k) LNKF_SEQUENCE in
  let named := has_flag (lkp_key_format k) LNKF_MAPPING in
  let label := fmt_pad (indent data) +:+ fmt_str (lkp_values k) +:+ ": " in
  let ename := fmt_str (lkp_values ke) in
  let line := flow_line seq named label ename v in
  let longest := (String.length label + String.length ename + String.length v + 7)%nat in
  Z.of_nat longest < size <= INT_MAX ->
  (longest <= length rest)%nat ->
  exists d' size',
    yaml_parse_value_list e data size [a0; Some a] (node, 1%nat) = Ok (d', size') ∧
    at_frontier d' (pre ++ bytes line) (drop (String.length line) rest) ∧
    sess_rest d' = sess_rest data.
Proof.
  intros Hcur Hn Hkeys Hty Hflow Hnext Hc Hkeysx Hty1 Hty2 Hnest Hparse Htb
    Htext Hfr Hind seq named label ename line longest Hsize Hlen.
  assert (lkl_list (keys n) !! 1%nat = Some k) as Hk by (rewrite Hkeys; reflexivity).
  unfold yaml_parse_value_list.
  destruct (tb_depth [a0; Some a]) as [|fuel] eqn:Hdepth.
  { exfalso. destruct a as [t p|t l]; [discriminate|].
    unfold tb_depth in Hdepth. simpl in Hdepth. lia. }
  change (yaml_parse_value_list_fuel e (S (S fuel)))
    with (yaml_parse_value_list_body e (yaml_parse_value_list_fuel e (S fuel))).
  unfold yaml_parse_value_list_body at 1.
  rewrite Hcur. cbn [fst snd].
  rewrite (deref_Some _ _ _ Hn), bind_Ok, (key_at_Some _ _ _ Hk), bind_Ok, bind_Ok.
  rewrite Hkeys. cbn [lkl_maxattr Nat.sub value_slots].
  destruct (flow_container_slot e fuel node (node, 1%nat) [a0; Some a] 1%nat
              (mk_frame (lkp_key_format k) 0 0 size data)
              n k a cnt c nx k0 ke tb av v pre rest)
    as (f' & Hslot & Hfr' & Hrest'); try assumption; try reflexivity.
  rewrite Hslot, !bind_Ok. eauto.
Qed.

Lemma C7_flow_container_line_witness :
  (exists d' size',
     yaml_parse_value_list false (v_data flow_frame) 30 [None; Some flow_attr]
       (0%nat, 1%nat) = Ok (d', size') ∧
     at_frontier d' (bytes ("k: { v }" +:+ String LF EmptyString))
                 (drop 9 (repeat "x"%char 30)) ∧
     sess_rest d' = sess_rest (v_data flow_frame)) ∧
  (exists d' size',
     yaml_parse_value_list false (v_data flow_frame) 30 [None; Some flow_attr_empty]
       (0%nat, 1%nat) = Ok (d', size') ∧
     at_frontier d' (bytes ("k:  }" +:+ String LF EmptyString))
                 (drop 6 (repeat "x"%char 30)) ∧
     sess_rest d' = sess_rest (v_data flow_frame)).
Proof.
  split.
  - apply (C7_flow_container_line false (v_data flow_frame) 30 0%nat flow_root
             zero_key (mk_key (Some "k") LNKF_FLOW NLA_NESTED) None
             flow_attr (NlaNested 0 [nla_put_string 1 "v"]) 1%nat flow_child
             zero_key (mk_key (Some "e") 0 NLA_STRING)
             [None; Some (nla_put_string 1 "v")] (nla_put_string 1 "v") "v"
             [] (repeat "x"%char 30));
      try reflexivity; try discriminate.
    + split; reflexivity.
    + vm_compute. split; [reflexivity | discriminate].
    + simpl. lia.
  - apply (C7_flow_container_line false (v_data flow_frame) 30 0%nat flow_root
             zero_key (mk_key (Some "k") LNKF_FLOW NLA_NESTED) None
             flow_attr_empty (NlaNested 0 [nla_put_string 1 EmptyString]) 1%nat
             flow_child zero_key (mk_key (Some "e") 0 NLA_STRING)
             [None; Some (nla_put_string 1 EmptyString)]
             (nla_put_string 1 EmptyString) EmptyString
             [] (repeat "x"%char 30));
      try reflexivity; try discriminate.
    + split; reflexivity.
    + vm_compute. split; [reflexivity | discriminate].
    + simpl. lia.
Defined.

(** The same through the read handler: the key table of the flow
    container, then the value batch. *)
Example read_flow_single_entry e :
  (r ← yaml_netlink_read_handler e true demo_syserr2nlerr demo_geterror
         (new_input fresh_parser)
         (mk_sock [CbValid flow_schema; CbValid flow_values] 0)
         (repeat "x"%char 30) 30 0;
   Ok (r.1, take 9 (mem r.2), heap r.2))
  = Ok ((1, 9), bytes ("k: { v }" +:+ String LF EmptyString),
        [Some flow_root; Some flow_child]).
Proof. destruct e; vm_compute; reflexivity. Qed.

(** An entry whose string is empty: the opening brace is lost. *)
Example read_flow_empty_entry e :
  (r ← yaml_netlink_read_handler e true demo_syserr2nlerr demo_geterror
         (new_input fresh_parser)
         (mk_sock [CbValid flow_schema; CbValid flow_values_empty] 0)
         (repeat "x"%char 30) 30 0;
   Ok (r.1, take 6 (mem r.2)))
  = Ok ((1, 6), bytes ("k:  }" +:+ String LF EmptyString)).
Proof. destruct e; vm_compute; reflexivity. Qed.

(** A container that names its entries. *)
Example read_flow_named_entry e :
  (r ← yaml_netlink_read_handler e true demo_syserr2nlerr demo_geterror
         (new_input fresh_parser)
         (mk_sock [CbValid flow_schema_named; CbValid flow_values] 0)
         (repeat "x"%char 30) 30 0;
   Ok (r.1, take 12 (mem r.2)))
  = Ok ((1, 12), bytes ("k: { e: v }" +:+ String LF EmptyString)).
Proof. destruct e; vm_compute; reflexivity. Qed.

Example read_flow_named_empty_entry e :
  (r ← yaml_netlink_read_handler e true demo_syserr2nlerr demo_geterror
         (new_input fresh_parser)
         (mk_sock [CbValid flow_schema_named; CbValid flow_values_empty] 0)
         (repeat "x"%char 30) 30 0;
   Ok (r.1, take 9 (mem r.2)))
  = Ok ((1, 9), bytes ("k: { e }" +:+ String LF EmptyString)).
Proof. destruct e; vm_compute; reflexivity. Qed.

(* ------------------------------------------------------------------ *)
(** ** The write handler *)

Ltac inv_bind H :=
  match type of H with
  | (?m ≫= _) = Ok _ =>
      let E := fresh "E" in
      destruct m eqn:E;
      [rewrite bind_Ok in H
      | rewrite bind_Fault in H; discriminate H
      | rewrite bind_Timeout in H; discriminate H]
  end.

Lemma nla_reserve_calls nm_size msg len c m' :
  nla_reserve nm_size msg len c = Some m' -> nm_calls m' = nm_calls msg ++ [c].
Proof.
  unfold nla_reserve. destruct (_ <? _); [discriminate|].
  intros [= <-]. reflexivity.
Qed.

Lemma nla_reserve_body nm_size msg len c m' :
  nla_reserve nm_size msg len c = Some m' -> nm_calls m' ≠ [].
Proof.
  intros H. rewrite (nla_reserve_calls _ _ _ _ _ H). now destruct (nm_calls msg).
Qed.

Lemma nla_nest_end_body msg : nm_calls (nla_nest_end msg) ≠ [].
Proof. simpl. now destruct (nm_calls msg). Qed.

Lemma flow_entries_body nm_size fuel : forall buf msg hdr buf' msg' hdr' ok,
  flow_entries nm_size fuel buf msg hdr = Ok (buf', msg', hdr', ok) ->
  nm_calls msg ≠ [] -> nm_calls msg' ≠ [].
Proof.
  induction fuel as [|fuel IH]; intros buf msg hdr buf' msg' hdr' ok H Hm;
    [discriminate|].
  cbn [flow_entries] in H.
  inv_bind H. destruct a as [[b h] l]. destruct l as [line|].
  2:{ injection H as <- <- <- <-. assumption. }
  do 3 inv_bind H. cbv zeta in H. do 2 inv_bind H.
  inv_bind H. inv_bind H.
  destruct (NLA_PUT_STRING _ _ _ _) as [m1|] eqn:Hput.
  - apply IH in H; [assumption|]. eapply nla_reserve_body, Hput.
  - injection H as <- <- <- <-. assumption.
Qed.

Lemma same_session_refl st : same_session st st.
Proof. now repeat split. Qed.

Lemma same_session_trans st1 st2 st3 :
  same_session st1 st2 -> same_session st2 st3 -> same_session st1 st3.
Proof. unfold same_session. intros (?&?&?) (?&?&?). repeat split; congruence. Qed.

Ltac same_tac :=
  unfold same_session in *;
  cbn [w_out w_log w_nogroups wh_msg wh_buf wh_entry wh_indent wh_fmt] in *;
  intuition congruence.

Lemma nested_list_post nm_size fuel :
  (forall st hdr fmt rc st' hdr',
     yaml_create_nested_list nm_size fuel st hdr fmt = Ok (rc, st', hdr') ->
     rc = 0 -> same_session st st' ∧ built st') ∧
  (forall st fmt pc x,
     built st -> nested_lines nm_size fuel st fmt pc = Ok x -> nested_post st x).
Proof.
  induction fuel as [|fuel [IHl IHn]]; [split; intros; discriminate|].
  split.
  - intros st hdr fmt rc st' hdr' H Hrc.
    cbn [yaml_create_nested_list] in H.
    destruct (w_msg st) as [msg|] eqn:Hmsg; [|discriminate].
    destruct (nla_nest_start nm_size msg LN_SCALAR_ATTR_LIST) as [m1|] eqn:Hstart.
    2:{ injection H as <- <- <-. discriminate Hrc. }
    assert (nm_calls m1 ≠ []) as Hm1 by (eapply nla_reserve_body, Hstart).
    destruct (has_flag fmt LNKF_FLOW).
    + inv_bind H. destruct a as [[[b m2] h] ok].
      injection H as <- <- <-.
      apply flow_entries_body in E; [|assumption].
      split; [same_tac|].
      eexists. split; [reflexivity|].
      destruct ok; [apply nla_nest_end_body | assumption].
    + destruct hdr as [h|]; [|discriminate].
      inv_bind H.
      destruct (NLA_PUT_STRING _ _ _ _) as [m2|] eqn:Hput.
      * inv_bind H.
        apply IHn in E0.
        2:{ eexists. split; [reflexivity|]. eapply nla_reserve_body, Hput. }
        destruct a0 as [st1 line|rc1 st1]; injection H as <- <- <-.
        -- destruct E0 as [Hs (m3 & Hm3 & Hb3)].
           split; [same_tac|]. eexists. split.
           ++ cbn. rewrite Hm3. reflexivity.
           ++ apply nla_nest_end_body.
        -- destruct (E0 Hrc) as [Hs Hb]. split; assumption.
      * injection H as <- <- <-. split; [same_tac|].
        eexists. split; [reflexivity | assumption].
  - intros st fmt pc x Hb H.
    cbn [nested_lines] in H.
    inv_bind H. destruct a as [st1 line].
    assert (same_session st st1 ∧ built st1) as [Hs1 Hb1].
    { destruct pc as [l|].
      - injection E as <- <-. split; [same_tac | assumption].
      - inv_bind E. destruct a as [[b e] l]. injection E as <- <-.
        split; [same_tac | exact Hb]. }
    clear E.
    destruct line as [l|].
    2:{ injection H as <-. split; assumption. }
    inv_bind H.
    destruct (_ || _).
    { injection H as <-. split; assumption. }
    destruct (yaml_format_type _ _ _ _) as [fmt1 ind1].
    destruct (fmt1 =? LNKF_END).
    { injection H as <-. split; assumption. }
    destruct (negb (fmt1 =? 0)).
    + inv_bind H. destruct a0 as [[rc st2] line2].
      destruct (Z.eqb_spec rc 0) as [->|Hne]; cbn [negb] in H.
      * apply IHl in E0; [|reflexivity]. destruct E0 as [Hs2 Hb2].
        apply IHn in H; [|assumption].
        assert (same_session st st2) as Hs by same_tac.
        destruct x; simpl in *.
        -- destruct H. split; [same_tac | assumption].
        -- intros Hz. destruct (H Hz).
           split; [same_tac | assumption].
      * injection H as <-. simpl. intros; contradiction.
    + inv_bind H.
      destruct Hb1 as (m1 & Hm1 & Hc1).
      cbn [w_msg wh_indent] in H. rewrite Hm1 in H.
      destruct (NLA_PUT_STRING _ _ _ _) as [m2|] eqn:Hput.
      * inv_bind H.
        assert (built (wh_msg (wh_indent st1 ind1) (Some m2))) as Hb2.
        { eexists. split; [reflexivity|]. eapply nla_reserve_body, Hput. }
        destruct a1.
        -- injection H as <-. split; assumption.
        -- apply IHn in H; [|assumption].
           destruct x; simpl in *.
           ++ destruct H. split; [same_tac | assumption].
           ++ intros Hz. destruct (H Hz).
              split; [same_tac | assumption].
      * injection H as <-. simpl. intros _. split; [assumption|].
        eexists. split; [exact Hm1 | assumption].
Qed.

Section loop_invariant.
Variable nm_size : Z.
Variable nlmsg_alloc_ok : bool.
Variable resolve_grp : string -> string -> Z.
Variable add_membership : Z -> Z.
Variable geterror : Z -> string.
Variable out : yaml_netlink_output.
Variable fuel : nat.
Variable loop : wh_state -> option Z -> result loop_exit.
Hypothesis loop_ok : forall st pc st',
  loop_inv resolve_grp add_membership out st ->
  loop st pc = Ok (LoopDone st') ->
  loop_inv resolve_grp add_membership out st'.

Lemma complicated_inv st line st' :
  loop_inv resolve_grp add_membership out st ->
  complicated nm_size nlmsg_alloc_ok geterror fuel loop st line
    = Ok (LoopDone st') ->
  loop_inv resolve_grp add_membership out st'.
Proof.
  intros Hinv H. unfold complicated in H.
  match type of H with
  | match ?a with _ => _ end = _ => destruct a as [st1|st1] eqn:Ha
  end; [|discriminate].
  assert (w_out st1 = w_out st ∧ w_log st1 = w_log st ∧
          w_nogroups st1 = w_nogroups st ∧ w_out st1 = out ∧
          is_Some (w_msg st1)) as (Ho & Hl & Hg & Hout & Hsome).
  { destruct Hinv as (Hio & _).
    destruct (w_msg st) as [m|] eqn:Hm.
    - injection Ha as <-. rewrite Hm. repeat split; eauto.
    - destruct (nlmsg_alloc nlmsg_alloc_ok) as [m0|]; [|discriminate].
      destruct (genlmsg_put _ _ _ _ _ _ _) as [m1|]; [|discriminate].
      injection Ha as <-. cbn. repeat split; eauto. }
  clear Ha.
  inv_bind H.
  try rewrite Ho in H.
  destruct (yaml_format_type _ _ _ _) as [fmt1 ind1].
  destruct (negb (fmt1 =? 0)).
  - inv_bind H. destruct a0 as [[rc st2] line2].
    destruct (Z.eqb_spec rc 0) as [->|Hne]; cbn [negb] in H; [|discriminate].
    apply (proj1 (nested_list_post nm_size fuel)) in E0; [|reflexivity].
    destruct E0 as [Hs (m2 & Hm2 & Hb2)].
    apply loop_ok in H; [assumption|].
    destruct Hinv as (_ & Hn & Hf & _).
    unfold same_session in Hs.
    cbn [w_out w_log w_nogroups wh_indent wh_fmt] in Hs.
    destruct Hs as (Hs1 & Hs2 & Hs3).
    repeat split.
    + congruence.
    + rewrite Hs3, Hs2, Hg, Hl. apply Hn.
    + rewrite Hs3, Hs2, Hg, Hl. apply Hn.
    + rewrite Hs2, Hl. assumption.
    + intros m Hm. rewrite Hm2 in Hm. injection Hm as <-. assumption.
  - inv_bind H.
    cbn [w_msg wh_indent wh_fmt] in H.
    destruct (w_msg st1) as [m1|]; [|discriminate].
    destruct (NLA_PUT_STRING _ _ _ _) as [m2|] eqn:Hput; [|discriminate].
    apply loop_ok in H; [assumption|].
    destruct Hinv as (_ & Hn & Hf & _).
    repeat split; cbn.
    + assumption.
    + rewrite Hg, Hl. apply Hn.
    + rewrite Hg, Hl. apply Hn.
    + rewrite Hl. assumption.
    + intros m [= <-]. eapply nla_reserve_body, Hput.
Qed.

Lemma write_line_inv st line st' :
  loop_inv resolve_grp add_membership out st ->
  write_line nm_size nlmsg_alloc_ok resolve_grp add_membership geterror fuel loop st line
    = Ok (LoopDone st') ->
  loop_inv resolve_grp add_membership out st'.
Proof.
  intros Hinv H. unfold write_line in H.
  do 2 inv_bind H.
  destruct (_ || _); [eapply loop_ok; eassumption|].
  inv_bind H.
  destruct (_ && _); [|eapply complicated_inv; eassumption].
  inv_bind H. destruct a2 as [tmp|]; [|eapply loop_ok; eassumption].
  do 2 inv_bind H.
  cbn [w_out wh_buf wh_log_call] in H.
  destruct (Z.ltb_spec (lustre_netlink_add_group resolve_grp add_membership
                          (family (w_out st)) a3) 0) as [Hlt|Hge];
    [discriminate|].
  assert (loop_inv resolve_grp add_membership out
            (wh_nogroups
               (wh_log_call (wh_buf st a2) (AddGroup (family (w_out st)) a3))
               false)) as Hinv'.
  { destruct Hinv as (Hio & Hn & Hf & Hm).
    repeat split; cbn.
    - assumption.
    - discriminate.
    - intros Hnil. now apply app_eq_nil in Hnil as [_ ?].
    - apply Forall_app. split; [assumption|].
      constructor; [|constructor].
      exists a3. rewrite <- Hio. split; [reflexivity | assumption].
    - assumption. }
  do 2 inv_bind H.
  destruct (_ || _); [eapply complicated_inv | eapply loop_ok]; eassumption.
Qed.
End loop_invariant.

Lemma write_loop_inv nm_size alloc_ok resolve_grp add_membership geterror out fuel :
  forall st pc st',
    loop_inv resolve_grp add_membership out st ->
    write_loop nm_size alloc_ok resolve_grp add_membership geterror fuel st pc = Ok (LoopDone st') ->
    loop_inv resolve_grp add_membership out st'.
Proof.
  induction fuel as [|fuel IH]; intros st pc st' Hinv H; [discriminate|].
  cbn [write_loop] in H.
  destruct pc as [line|].
  - eapply write_line_inv; eassumption.
  - destruct (w_entry st) as [e|] eqn:He.
    2:{ injection H as <-. assumption. }
    inv_bind H. destruct a as [[b e'] l]. destruct l as [line|]; [|discriminate].
    assert (loop_inv resolve_grp add_membership out
              (wh_entry (wh_buf st b) e')) as Hinv'.
    { destruct Hinv as (?&?&?&?). repeat split; cbn; tauto. }
    inv_bind H. destruct a.
    + injection H as <-. assumption.
    + eapply write_line_inv; eassumption.
Qed.

Lemma write_lines_inv nm_size alloc_ok resolve_grp add_membership geterror out buffer size st :
  write_lines nm_size alloc_ok resolve_grp add_membership geterror out buffer size
    = Ok (LoopDone st) ->
  loop_inv resolve_grp add_membership out st.
Proof.
  unfold write_lines. intros H. do 2 inv_bind H.
  eapply write_loop_inv; [|exact H].
  repeat split; cbn; try tauto; try constructor; discriminate.
Qed.

(** C9: when the line loop of the write handler runs to its end, the calls
    logged so far are the groups the text named.  With none, the emitter
    gets the writer error "Emitter contains no valid Netlink groups",
    nothing is sent and the handler returns 0.  With a group and no message
    allocated, genl_send_simple sends the bare command; with a message,
    which then has a body, nl_send_auto sends it. *)
Theorem C9_terminal_write
    nm_size alloc_ok resolve_grp add_membership send_auto send_simple geterror out buffer size st :
  write_lines nm_size alloc_ok resolve_grp add_membership geterror out buffer size
    = Ok (LoopDone st) ->
  exists ret out' log,
    yaml_netlink_write_handler nm_size alloc_ok resolve_grp add_membership send_auto send_simple
      geterror out buffer size = Ok (ret, out', log) ∧
    Forall (group_added resolve_grp add_membership out) (w_log st) ∧
    (w_log st = [] ->
       ret = 0 ∧ log = [] ∧
       emitter out' = yaml_emitter_set_writer_error (emitter out)
                        "Emitter contains no valid Netlink groups") ∧
    (w_log st ≠ [] -> w_msg st = None ->
       log = w_log st ++ [SendSimple (family_id out) (cmd out) (version out)
                                     (flags out)]) ∧
    (w_log st ≠ [] -> forall m, w_msg st = Some m ->
       nm_calls m ≠ [] ∧ log = w_log st ++ [SendAuto m]).
Proof.
  intros H.
  destruct (write_lines_inv _ _ _ _ _ _ _ _ _ H) as (Hout & Hn & Hf & Hm).
  unfold yaml_netlink_write_handler. rewrite H, bind_Ok.
  do 3 eexists. split; [reflexivity|]. split; [assumption|].
  unfold write_tail.
  destruct (w_nogroups st) eqn:Hg.
  - assert (w_log st = []) as Hnil by now apply Hn.
    repeat split; try (intros; contradiction).
    + cbn. rewrite Hnil. reflexivity.
    + cbn. rewrite Hout. reflexivity.
  - assert (w_log st ≠ []) as Hne.
    { intros Hnil. apply Hn in Hnil. discriminate. }
    repeat split; try (intros; contradiction).
    + intros _ Hnone. rewrite Hnone, Hout.
      destruct (_ <? 0); reflexivity.
    + apply (Hm m H1).
    + rewrite H1. destruct (_ <? 0); reflexivity.
Qed.

Lemma C9_terminal_write_witness :
  exists ret out' log,
    yaml_netlink_write_handler 4096 true (fun _ _ => 1) (fun _ => 0) (fun _ => 0)
      (fun _ _ _ _ => 0) demo_geterror demo_out (bytes net_only) 5
      = Ok (ret, out', log) ∧
    Forall (group_added (fun _ _ => 1) (fun _ => 0) demo_out) (w_log net_only_done) ∧
    (w_log net_only_done = [] ->
       ret = 0 ∧ log = [] ∧
       emitter out' = yaml_emitter_set_writer_error (emitter demo_out)
                        "Emitter contains no valid Netlink groups") ∧
    (w_log net_only_done ≠ [] -> w_msg net_only_done = None ->
       log = w_log net_only_done
             ++ [SendSimple (family_id demo_out) (cmd demo_out)
                            (version demo_out) (flags demo_out)]) ∧
    (w_log net_only_done ≠ [] -> forall m, w_msg net_only_done = Some m ->
       nm_calls m ≠ [] ∧ log = w_log net_only_done ++ [SendAuto m]).
Proof.
  apply (C9_terminal_write 4096 true (fun _ _ => 1) (fun _ => 0) (fun _ => 0)
           (fun _ _ _ _ => 0) demo_geterror demo_out (bytes net_only) 5
           net_only_done).
  vm_compute. reflexivity.
Defined.

(** A text that names no group: the writer error, and nothing sent. *)
Example write_no_group :
  yaml_netlink_write_handler 4096 true (fun _ _ => 1) (fun _ => 0) (fun _ => 0)
    (fun _ _ _ _ => 0) demo_geterror demo_out
    (bytes ("  a: b" +:+ String LF EmptyString)) 7
  = Ok (0, set_emitter demo_out
             (mk_emitter YAML_WRITER_ERROR
                (Some "Emitter contains no valid Netlink groups") 2), []).
Proof. vm_compute. reflexivity. Qed.

(** A group and nothing else: the bare command. *)
Example write_group_only :
  yaml_netlink_write_handler 4096 true (fun _ _ => 1) (fun _ => 0) (fun _ => 0)
    (fun _ _ _ _ => 0) demo_geterror demo_out (bytes net_only) 5
  = Ok (1, demo_out, [AddGroup "lnet" "net"; SendSimple 7 3 1 0]).
Proof. vm_compute. reflexivity. Qed.

(** A group and a body: the message with its attributes. *)
Example write_group_and_body :
  yaml_netlink_write_handler 4096 true (fun _ _ => 1) (fun _ => 0) (fun _ => 0)
    (fun _ _ _ _ => 0) demo_geterror demo_out
    (bytes (net_only +:+ "  a: b" +:+ String LF EmptyString)) 12
  = Ok (1, demo_out,
        [AddGroup "lnet" "net";
         SendAuto (mk_out_msg 100 7 0 3 1 36
                     [NestStart 1; PutString 5 "a: b"; NestEnd])]).
Proof. vm_compute. reflexivity. Qed.

(** The loop can also be left before its end: where an attribute does not
    fit the message, the handler jumps to nla_put_failure, sets no error
    and sends nothing. *)
Example write_put_failure :
  yaml_netlink_write_handler 24 true (fun _ _ => 1) (fun _ => 0) (fun _ => 0)
    (fun _ _ _ _ => 0) demo_geterror demo_out
    (bytes ("  a: b" +:+ String LF EmptyString)) 7
  = Ok (1, demo_out, []).
Proof. vm_compute. reflexivity. Qed.


(* ------------------------------------------------------------------ *)
(** ** The loops of the write handler terminate *)

Ltac inv_bind_as H x E :=
  match type of H with
  | (?m ≫= _) = Ok _ =>
      destruct m as [x| |] eqn:E;
      [rewrite bind_Ok in H
      | rewrite bind_Fault in H; discriminate H
      | rewrite bind_Timeout in H; discriminate H]
  end.

Lemma strlen_bound l n : strlen l = Some n -> (n < length l)%nat.
Proof.
  revert n. induction l as [|c l IH]; intros n H; [discriminate|].
  simpl in H. destruct (Ascii.eqb c NUL).
  - injection H as <-. simpl. lia.
  - destruct (strlen l) as [k|]; [|discriminate].
    injection H as <-. specialize (IH k eq_refl). simpl. lia.
Qed.

Lemma strlen_at_bound m p n :
  strlen_at m p = Ok n -> 0 <= p ∧ 0 <= n ∧ p + n < Z.of_nat (length m).
Proof.
  unfold strlen_at, in_buffer. intros H.
  destruct (Z.leb_spec 0 p); [|discriminate].
  destruct (Z.leb_spec (p + Z.of_nat 0) (Z.of_nat (length m))); [|discriminate].
  simpl in H. destruct (strlen _) as [k|] eqn:E; [|discriminate].
  injection H as <-. apply strlen_bound in E. rewrite length_drop in E. lia.
Qed.

Lemma string_at_bound m p s :
  string_at m p = Ok s ->
  0 <= p ∧ p + Z.of_nat (String.length s) < Z.of_nat (length m).
Proof.
  unfold string_at. intros H. inv_bind H. injection H as <-.
  apply strlen_at_bound in E. destruct E as (Hp & Hn & Hlt).
  split; [assumption|].
  assert (String.length (string_of_list_ascii (take (Z.to_nat a) (drop (Z.to_nat p) m)))
          <= Z.to_nat a)%nat.
  { rewrite <- (length_bytes (string_of_list_ascii _)), bytes_string_of_list,
      length_take. lia. }
  lia.
Qed.

Lemma string_index_bound s c i :
  string_index s c = Some i -> (i < String.length s)%nat.
Proof.
  revert i. induction s as [|a s IH]; intros i H; [discriminate|].
  simpl in H. destruct (Ascii.eqb a c).
  - injection H as <-. simpl. lia.
  - destruct (string_index s c) as [k|]; [|discriminate].
    injection H as <-. specialize (IH k eq_refl). simpl. lia.
Qed.

Lemma strchr_bound m p c q :
  strchr m p c = Ok (Some q) -> 0 <= p <= q ∧ q + 1 < Z.of_nat (length m).
Proof.
  unfold strchr. intros H. inv_bind H.
  apply string_at_bound in E.
  destruct (string_index a c) as [i|] eqn:Hi; [|discriminate].
  injection H as <-. apply string_index_bound in Hi. lia.
Qed.

Lemma store_bytes_length m p bs m' :
  store_bytes m p bs = Ok m' -> length m' = length m.
Proof.
  unfold store_bytes, in_buffer. intros H.
  destruct (Z.leb_spec 0 p); [|discriminate].
  destruct (Z.leb_spec (p + Z.of_nat (length bs)) (Z.of_nat (length m)));
    [|discriminate].
  injection H as <-. rewrite !length_app, length_take, length_drop. lia.
Qed.

(** strsep consumes text: the buffer keeps its length, the token is the
    old pointer, and the new pointer is NULL or further on. *)
Lemma strsep_spec m p d m' e l :
  strsep m (Some p) d = Ok (m', e, l) ->
  length m' = length m ∧ l = Some p ∧ 0 <= p < Z.of_nat (length m) ∧
  match e with
  | Some q => p < q <= Z.of_nat (length m)
  | None => True
  end.
Proof.
  unfold strsep. intros H. inv_bind H.
  destruct a as [q|].
  - apply strchr_bound in E. inv_bind H. injection H as <- <- <-.
    apply store_bytes_length in E0. repeat split; try assumption; lia.
  - injection H as <- <- <-.
    unfold strchr in E. inv_bind E. apply string_at_bound in E0.
    repeat split; lia.
Qed.

Lemma nl_align_le n : n <= nl_align n.
Proof.
  unfold nl_align. pose proof (Z.div_mod (n + 3) 4 ltac:(lia)).
  pose proof (Z.mod_pos_bound (n + 3) 4 ltac:(lia)). lia.
Qed.

Lemma nla_reserve_room nm_size msg len c m' :
  0 <= len ->
  nla_reserve nm_size msg len c = Some m' ->
  nm_len msg + 4 <= nm_len m' <= nm_size.
Proof.
  unfold nla_reserve. intros Hlen H.
  destruct (Z.ltb_spec nm_size (nl_align (nm_len msg) + nl_align (NLA_HDRLEN + len)));
    [discriminate|].
  injection H as <-. cbn [nm_len].
  pose proof (nl_align_le (nm_len msg)).
  pose proof (nl_align_le (NLA_HDRLEN + len)). unfold NLA_HDRLEN in *. lia.
Qed.

Lemma nla_nest_start_room nm_size msg t m' :
  nla_nest_start nm_size msg t = Some m' -> nm_len msg + 4 <= nm_len m' <= nm_size.
Proof. apply nla_reserve_room. lia. Qed.

Lemma put_string_room nm_size msg t s m' :
  NLA_PUT_STRING nm_size msg t s = Some m' -> nm_len msg + 4 <= nm_len m' <= nm_size.
Proof. apply nla_reserve_room. lia. Qed.

Lemma flow_entries_measure nm_size fuel : forall buf msg hdr buf' msg' hdr' ok,
  flow_entries nm_size fuel buf msg hdr = Ok (buf', msg', hdr', ok) ->
  length buf' = length buf ∧ nm_len msg <= nm_len msg'.
Proof.
  induction fuel as [|fuel IH]; intros buf msg hdr buf' msg' hdr' ok H;
    [discriminate|].
  cbn [flow_entries] in H.
  inv_bind H. destruct a as [[b h] l].
  assert (length b = length buf) as Hb.
  { destruct hdr as [p|].
    - now apply strsep_spec in E.
    - now injection E as <- <- <-. }
  destruct l as [line|].
  2:{ injection H as <- <- <- <-. split; [assumption | lia]. }
  do 3 inv_bind H. cbv zeta in H. do 2 inv_bind H.
  inv_bind_as H b' Hst.
  assert (length b' = length buf) as Hb'.
  { match type of Hst with
    | match ?t with _ => _ end = _ => destruct t
    end; [apply store_bytes_length in Hst | injection Hst as <-]; congruence. }
  inv_bind H.
  destruct (NLA_PUT_STRING _ _ _ _) as [m1|] eqn:Hput.
  - apply IH in H. apply put_string_room in Hput. destruct H. split; [congruence | lia].
  - injection H as <- <- <- <-. split; [assumption | lia].
Qed.

Lemma strsep_entry_left st b e l :
  strsep (w_buf st) (w_entry st) LF = Ok (b, e, l) ->
  (entry_left (wh_entry (wh_buf st b) e) <= entry_left st)%nat ∧
  (is_Some l -> entry_left (wh_entry (wh_buf st b) e) < entry_left st)%nat.
Proof.
  unfold entry_left. cbn [w_entry w_buf wh_entry wh_buf].
  destruct (w_entry st) as [p|] eqn:Hp.
  - intros H. apply strsep_spec in H as (Hlen & _ & Hp' & He).
    rewrite Hlen. destruct e as [q|]; split; intros; lia.
  - intros [= <- <- <-]. split; [lia|]. intros [? ?]. discriminate.
Qed.

(** What the nested list, when it reports no error, has consumed. *)
Lemma nested_list_measure nm_size fuel :
  (forall st hdr fmt rc st' hdr',
     yaml_create_nested_list nm_size fuel st hdr fmt = Ok (rc, st', hdr') ->
     rc = 0 ->
     (entry_left st' <= entry_left st)%nat ∧
     (room_left nm_size st' + 4 <= room_left nm_size st)%nat) ∧
  (forall st fmt pc x,
     nested_lines nm_size fuel st fmt pc = Ok x ->
     match x with
     | NestedEnd st' _ =>
         (entry_left st' <= entry_left st)%nat ∧
         (room_left nm_size st' <= room_left nm_size st)%nat
     | NestedFailure rc st' =>
         rc = 0 ->
         (entry_left st' <= entry_left st)%nat ∧
         (room_left nm_size st' <= room_left nm_size st)%nat
     end).
Proof.
  induction fuel as [|fuel [IHl IHn]]; [split; intros; discriminate|].
  split.
  - intros st hdr fmt rc st' hdr' H Hrc.
    cbn [yaml_create_nested_list] in H.
    destruct (w_msg st) as [msg|] eqn:Hmsg; [|discriminate].
    destruct (nla_nest_start nm_size msg LN_SCALAR_ATTR_LIST) as [m1|] eqn:Hstart.
    2:{ injection H as <- <- <-. discriminate Hrc. }
    apply nla_nest_start_room in Hstart.
    destruct (has_flag fmt LNKF_FLOW).
    + inv_bind H. destruct a as [[[b m2] h] ok].
      injection H as <- <- <-.
      apply flow_entries_measure in E as [Hb Hm].
      unfold entry_left, room_left.
      cbn [w_entry w_buf w_msg wh_msg wh_buf]. rewrite Hb, Hmsg.
      split; [lia|]. destruct ok; cbn [nla_nest_end nm_len]; lia.
    + destruct hdr as [h|]; [|discriminate].
      inv_bind H.
      destruct (NLA_PUT_STRING _ _ _ _) as [m2|] eqn:Hput.
      * apply put_string_room in Hput.
        inv_bind_as H x Hx.
        apply IHn in Hx.
        assert (room_left nm_size (wh_msg st (Some m2)) + 4
                <= room_left nm_size st)%nat as Hroom.
        { unfold room_left. cbn [w_msg wh_msg]. rewrite Hmsg. lia. }
        destruct x as [st1 line|rc1 st1]; injection H as <- <- <-.
        -- destruct Hx as [He Hr]. split; [exact He|].
           unfold room_left in *. cbn [w_msg wh_msg] in *.
           destruct (w_msg st1) as [m3|]; cbn [fmap option_fmap option_map nla_nest_end nm_len];
             lia.
        -- destruct (Hx Hrc) as [He Hr]. split; [exact He | lia].
      * injection H as <- <- <-. unfold entry_left, room_left.
        cbn [w_entry w_buf w_msg wh_msg]. rewrite Hmsg. split; lia.
  - intros st fmt pc x H.
    cbn [nested_lines] in H.
    inv_bind_as H y Hy. destruct y as [st1 line].
    assert ((entry_left st1 <= entry_left st)%nat ∧
            room_left nm_size st1 = room_left nm_size st) as [He1 Hr1].
    { destruct pc as [l|].
      - injection Hy as <- <-. split; [lia | reflexivity].
      - inv_bind_as Hy z Hz. destruct z as [[b e] l]. injection Hy as <- <-.
        apply strsep_entry_left in Hz as [Hz _]. split; [exact Hz | reflexivity]. }
    clear Hy.
    destruct line as [l|].
    2:{ injection H as <-. split; lia. }
    inv_bind H.
    destruct (_ || _).
    { injection H as <-. split; lia. }
    destruct (yaml_format_type _ _ _ _) as [fmt1 ind1].
    destruct (fmt1 =? LNKF_END).
    { injection H as <-. unfold entry_left, room_left in *. cbn in *. split; lia. }
    destruct (negb (fmt1 =? 0)).
    + inv_bind_as H y Hy. destruct y as [[rc st2] line2].
      destruct (Z.eqb_spec rc 0) as [->|Hne]; cbn [negb] in H.
      * apply IHl in Hy; [|reflexivity]. destruct Hy as [He2 Hr2].
        apply IHn in H.
        change (entry_left (wh_indent st1 ind1)) with (entry_left st1) in He2.
        change (room_left nm_size (wh_indent st1 ind1))
          with (room_left nm_size st1) in Hr2.
        destruct x; [destruct H | intros Hz; destruct (H Hz)]; split; lia.
      * injection H as <-. intros; contradiction.
    + inv_bind H.
      cbn [w_msg wh_indent] in H.
      destruct (w_msg st1) as [m1|] eqn:Hm1; [|discriminate].
      destruct (NLA_PUT_STRING _ _ _ _) as [m2|] eqn:Hput.
      * apply put_string_room in Hput.
        inv_bind_as H e He.
        assert ((entry_left (wh_msg (wh_indent st1 ind1) (Some m2))
                 <= entry_left st)%nat ∧
                (room_left nm_size (wh_msg (wh_indent st1 ind1) (Some m2))
                 <= room_left nm_size st)%nat) as [He2 Hr2].
        { unfold entry_left, room_left in *.
          cbn [w_entry w_buf w_msg wh_msg wh_indent] in *.
          rewrite Hm1 in Hr1. split; lia. }
        destruct e.
        -- injection H as <-. split; assumption.
        -- apply IHn in H.
           destruct x; [destruct H | intros Hz; destruct (H Hz)]; split; lia.
      * injection H as <-. intros _.
        unfold entry_left, room_left in *.
        cbn [w_entry w_buf w_msg wh_indent] in *. split; lia.
Qed.

Lemma bind_returns {A B} (m : result A) (k : A -> result B) :
  m ≠ Timeout -> (forall a, m = Ok a -> k a ≠ Timeout) -> m ≫= k ≠ Timeout.
Proof. destruct m; intros Hm Hk; [now apply Hk | discriminate | contradiction]. Qed.

Lemma strlen_at_returns m p : strlen_at m p ≠ Timeout.
Proof. unfold strlen_at. repeat case_match; discriminate. Qed.

Lemma string_at_returns m p : string_at m p ≠ Timeout.
Proof.
  unfold string_at. apply bind_returns; [apply strlen_at_returns | discriminate].
Qed.

Lemma strchr_returns m p c : strchr m p c ≠ Timeout.
Proof.
  unfold strchr. apply bind_returns; [apply string_at_returns | discriminate].
Qed.

Lemma store_bytes_returns m p bs : store_bytes m p bs ≠ Timeout.
Proof. unfold store_bytes. repeat case_match; discriminate. Qed.

Lemma strsep_returns m sp d : strsep m sp d ≠ Timeout.
Proof.
  unfold strsep. destruct sp as [p|]; [|discriminate].
  apply bind_returns; [apply strchr_returns|]. intros [q|] _; [|discriminate].
  apply bind_returns; [apply store_bytes_returns | discriminate].
Qed.

Lemma strcmp_eq_returns m p lit : strcmp_eq m p lit ≠ Timeout.
Proof.
  unfold strcmp_eq. apply bind_returns; [apply string_at_returns | discriminate].
Qed.

Lemma load_byte_returns m p : load_byte m p ≠ Timeout.
Proof. unfold load_byte. repeat case_match; discriminate. Qed.

#[local] Hint Resolve strlen_at_returns string_at_returns strchr_returns
  store_bytes_returns strsep_returns strcmp_eq_returns load_byte_returns : returns.

(** The loop over the entries of a flow container ends: every turn takes
    a token off [*hdr]. *)
Lemma flow_entries_returns nm_size fuel : forall buf msg hdr,
  (match hdr with
   | Some p => Z.to_nat (Z.of_nat (length buf) - p)
   | None => O
   end < fuel)%nat ->
  flow_entries nm_size fuel buf msg hdr ≠ Timeout.
Proof.
  induction fuel as [|fuel IH]; intros buf msg hdr Hfuel; [lia|].
  cbn [flow_entries].
  apply bind_returns; [auto with returns|]. intros [[b h] l] Hsep.
  destruct hdr as [p|].
  2:{ injection Hsep as <- <- <-. discriminate. }
  apply strsep_spec in Hsep as (Hlen & -> & Hp & Hh).
  do 3 (apply bind_returns; [auto with returns|]; intros ? _).
  cbv zeta.
  apply bind_returns; [auto with returns|]; intros t1 _.
  apply bind_returns; [destruct t1; [discriminate | auto with returns]|].
  intros t2 _.
  apply bind_returns; [destruct t2; [auto with returns | discriminate]|].
  intros b' Hb'.
  assert (length b' = length buf) as Hlen'.
  { destruct t2; [apply store_bytes_length in Hb' | injection Hb' as <-]; congruence. }
  apply bind_returns; [auto with returns|]; intros s _.
  destruct (NLA_PUT_STRING _ _ _ _); [|discriminate].
  apply IH. rewrite Hlen'. destruct h as [q|]; lia.
Qed.

Lemma flow_entries_returns_buf nm_size buf msg hdr :
  flow_entries nm_size (S (length buf)) buf msg hdr ≠ Timeout.
Proof.
  destruct hdr as [p|]; [|apply flow_entries_returns; lia].
  destruct (Z.le_gt_cases 0 p); [apply flow_entries_returns; lia|].
  cbn [flow_entries]. unfold strsep, strchr, string_at, strlen_at, in_buffer.
  destruct (Z.leb_spec 0 p); [lia|]. discriminate.
Qed.

Lemma potential_indent nm_size st i :
  potential nm_size (wh_indent st i) = potential nm_size st.
Proof. reflexivity. Qed.

Lemma potential_put nm_size st m1 m2 :
  w_msg st = Some m1 -> nm_len m1 + 4 <= nm_len m2 <= nm_size ->
  (potential nm_size (wh_msg st (Some m2)) + 4 <= potential nm_size st)%nat.
Proof.
  intros Hm Hlen. unfold potential, entry_left, room_left.
  cbn [w_entry w_buf w_msg wh_msg]. rewrite Hm. lia.
Qed.

(** With fuel above the measure, the nested list returns. *)
Lemma nested_list_returns nm_size fuel :
  (forall st hdr fmt,
     (potential nm_size st + 3 <= fuel)%nat ->
     yaml_create_nested_list nm_size fuel st hdr fmt ≠ Timeout) ∧
  (forall st fmt pc,
     (potential nm_size st + 3 + (if pc is Some _ then 1 else 0) <= fuel)%nat ->
     nested_lines nm_size fuel st fmt pc ≠ Timeout).
Proof.
  induction fuel as [|fuel [IHl IHn]]; [split; intros; lia|].
  split.
  - intros st hdr fmt Hfuel.
    cbn [yaml_create_nested_list].
    destruct (w_msg st) as [msg|] eqn:Hmsg; [|discriminate].
    destruct (nla_nest_start nm_size msg LN_SCALAR_ATTR_LIST) as [m1|] eqn:Hstart;
      [|discriminate].
    apply nla_nest_start_room in Hstart.
    destruct (has_flag fmt LNKF_FLOW).
    + apply bind_returns; [apply flow_entries_returns_buf|].
      intros [[[b m2] h] ok] _. discriminate.
    + destruct hdr as [h|]; [|discriminate].
      apply bind_returns; [auto with returns|]. intros s _.
      destruct (NLA_PUT_STRING _ _ _ _) as [m2|] eqn:Hput; [|discriminate].
      apply put_string_room in Hput.
      apply bind_returns.
      * apply IHn.
        pose proof (potential_put nm_size st msg m2 Hmsg ltac:(lia)). lia.
      * intros [st1 line|rc1 st1] _; discriminate.
  - intros st fmt pc Hfuel.
    cbn [nested_lines].
    apply bind_returns.
    { destruct pc; [discriminate|].
      apply bind_returns; [auto with returns|]. intros [[b e] l] _. discriminate. }
    intros [st1 line] Hstep.
    destruct line as [l|]; [|discriminate].
    assert (potential nm_size st1 + 3 <= fuel)%nat as Hfuel1.
    { destruct pc as [l0|].
      - injection Hstep as <- _. lia.
      - destruct (strsep (w_buf st) (w_entry st) LF) as [[[b e] l1]| |] eqn:Hsep;
          try discriminate.
        rewrite bind_Ok in Hstep. injection Hstep as <- ->.
        apply strsep_entry_left in Hsep as [_ Hlt].
        specialize (Hlt ltac:(eauto)).
        unfold potential in *.
        change (room_left nm_size (wh_entry (wh_buf st b) e))
          with (room_left nm_size st). lia. }
    clear Hstep.
    apply bind_returns; [auto with returns|]. intros s _.
    destruct (_ || _); [discriminate|].
    destruct (yaml_format_type _ _ _ _) as [fmt1 ind1].
    destruct (fmt1 =? LNKF_END); [discriminate|].
    destruct (negb (fmt1 =? 0)).
    + apply bind_returns; [apply IHl; rewrite potential_indent; lia|].
      intros [[rc st2] line2] Hrec.
      destruct (Z.eqb_spec rc 0) as [->|Hne]; cbn [negb]; [|discriminate].
      apply (proj1 (nested_list_measure nm_size fuel)) in Hrec; [|reflexivity].
      apply IHn. unfold potential in *.
      change (entry_left (wh_indent st1 ind1)) with (entry_left st1) in Hrec.
      change (room_left nm_size (wh_indent st1 ind1))
        with (room_left nm_size st1) in Hrec.
      lia.
    + apply bind_returns; [auto with returns|]. intros v _.
      cbn [w_msg wh_indent].
      destruct (w_msg st1) as [m1|] eqn:Hm1; [|discriminate].
      destruct (NLA_PUT_STRING _ _ _ _) as [m2|] eqn:Hput; [|discriminate].
      apply put_string_room in Hput.
      apply bind_returns; [auto with returns|]. intros e _.
      destruct e; [discriminate|].
      apply IHn.
      pose proof (potential_put nm_size (wh_indent st1 ind1) m1 m2 Hm1 ltac:(lia)).
      rewrite potential_indent in *. lia.
Qed.

Section loop_returns.
Variable nm_size : Z.
Variable nlmsg_alloc_ok : bool.
Variable resolve_grp : string -> string -> Z.
Variable add_membership : Z -> Z.
Variable geterror : Z -> string.
Variable fuel : nat.
Variable loop : wh_state -> option Z -> result loop_exit.
Hypothesis loop_returns : forall st pc,
  (potential nm_size st + 3 + (if pc is Some _ then 1 else 0) <= fuel)%nat ->
  loop st pc ≠ Timeout.

Lemma complicated_returns st line :
  (potential nm_size st + 3 <= fuel)%nat ->
  complicated nm_size nlmsg_alloc_ok geterror fuel loop st line ≠ Timeout.
Proof.
  intros Hfuel. unfold complicated.
  match goal with
  | |- match ?a with _ => _ end ≠ _ => destruct a as [st1|st1] eqn:Ha
  end; [|discriminate].
  assert (potential nm_size st1 <= potential nm_size st)%nat as Hpot.
  { destruct (w_msg st) as [m|] eqn:Hm.
    - injection Ha as <-. lia.
    - destruct (nlmsg_alloc nlmsg_alloc_ok) as [m0|] eqn:Hm0; [|discriminate].
      destruct (genlmsg_put _ _ _ _ _ _ _) as [m1|] eqn:Hm1; [|discriminate].
      injection Ha as <-.
      unfold potential, entry_left, room_left. cbn [w_entry w_buf w_msg wh_msg].
      rewrite Hm.
      unfold nlmsg_alloc in Hm0. destruct nlmsg_alloc_ok; [|discriminate].
      injection Hm0 as <-. unfold genlmsg_put in Hm1. cbn [nm_len] in Hm1.
      destruct (_ <? _); [discriminate|]. injection Hm1 as <-. cbn [nm_len].
      unfold NLMSG_HDRLEN, GENL_HDRLEN. lia. }
  clear Ha.
  apply bind_returns; [auto with returns|]. intros s _.
  destruct (yaml_format_type _ _ _ _) as [fmt1 ind1].
  destruct (negb (fmt1 =? 0)).
  - apply bind_returns.
    { apply (proj1 (nested_list_returns nm_size fuel)).
      change (potential nm_size (wh_indent (wh_fmt st1 fmt1) ind1))
        with (potential nm_size st1). lia. }
    intros [[rc st2] line2] Hrec.
    destruct (Z.eqb_spec rc 0) as [->|Hne]; cbn [negb]; [|discriminate].
    apply (proj1 (nested_list_measure nm_size fuel)) in Hrec; [|reflexivity].
    change (entry_left (wh_indent (wh_fmt st1 fmt1) ind1))
      with (entry_left st1) in Hrec.
    change (room_left nm_size (wh_indent (wh_fmt st1 fmt1) ind1))
      with (room_left nm_size st1) in Hrec.
    apply loop_returns. unfold potential in *. destruct line2; lia.
  - apply bind_returns; [auto with returns|]. intros v _.
    cbn [w_msg wh_indent wh_fmt].
    destruct (w_msg st1) as [m1|] eqn:Hm1; [|discriminate].
    destruct (NLA_PUT_STRING _ _ _ _) as [m2|] eqn:Hput; [|discriminate].
    apply put_string_room in Hput.
    apply loop_returns.
    pose proof (potential_put nm_size (wh_indent (wh_fmt st1 fmt1) ind1) m1 m2
                  Hm1 ltac:(lia)) as Hp.
    change (potential nm_size (wh_indent (wh_fmt st1 fmt1) ind1))
      with (potential nm_size st1) in Hp. lia.
Qed.

Lemma write_line_returns st line :
  (potential nm_size st + 3 <= fuel)%nat ->
  write_line nm_size nlmsg_alloc_ok resolve_grp add_membership geterror fuel loop st line
    ≠ Timeout.
Proof.
  intros Hfuel. unfold write_line.
  do 2 (apply bind_returns; [auto with returns|]; intros ? _).
  destruct (_ || _); [apply loop_returns; lia|].
  apply bind_returns; [auto with returns|]. intros c _.
  destruct (_ && _); [|now apply complicated_returns].
  apply bind_returns; [auto with returns|]. intros [tmp|] _;
    [|apply loop_returns; lia].
  apply bind_returns; [auto with returns|]. intros buf Hbuf.
  apply store_bytes_length in Hbuf.
  apply bind_returns; [auto with returns|]. intros group _.
  cbn [w_out wh_buf wh_log_call].
  destruct (_ <? 0); [discriminate|].
  match goal with
  | |- context [complicated _ _ _ _ _ ?s _] =>
      assert (potential nm_size s = potential nm_size st) as Hpot
  end.
  { unfold potential, entry_left, room_left.
    cbn [w_entry w_buf w_msg wh_nogroups wh_log_call wh_buf]. now rewrite Hbuf. }
  do 2 (apply bind_returns; [auto with returns|]; intros ? _).
  destruct (_ || _); [apply complicated_returns | apply loop_returns]; lia.
Qed.
End loop_returns.

Lemma write_loop_returns nm_size alloc_ok resolve_grp add_membership geterror fuel :
  forall st pc,
    (potential nm_size st + 3 + (if pc is Some _ then 1 else 0) <= fuel)%nat ->
    write_loop nm_size alloc_ok resolve_grp add_membership geterror fuel st pc ≠ Timeout.
Proof.
  induction fuel as [|fuel IH]; intros st pc Hfuel; [lia|].
  cbn [write_loop].
  destruct pc as [line|].
  - apply write_line_returns; [exact IH | lia].
  - destruct (w_entry st) as [p|] eqn:Hp; [|discriminate].
    apply bind_returns; [auto with returns|]. intros [[b e] l] Hsep.
    rewrite <- Hp in Hsep.
    apply strsep_entry_left in Hsep as [_ Hlt].
    destruct l as [line|]; [|discriminate].
    specialize (Hlt ltac:(eauto)).
    apply bind_returns; [auto with returns|]. intros [] _; [discriminate|].
    apply write_line_returns; [exact IH|].
    unfold potential in *.
    change (room_left nm_size (wh_entry (wh_buf st b) e))
      with (room_left nm_size st). lia.
Qed.

Lemma string_index_char s c i :
  string_index s c = Some i -> bytes s !! i = Some c.
Proof.
  revert i. induction s as [|a s IH]; intros i H; [discriminate|].
  simpl in H. destruct (Ascii.eqb_spec a c) as [->|Hne].
  - injection H as <-. reflexivity.
  - destruct (string_index s c) as [k|]; [|discriminate].
    injection H as <-. simpl. now apply IH.
Qed.

Lemma strchr_char m p c q :
  strchr m p c = Ok (Some q) -> m !! Z.to_nat q = Some c.
Proof.
  unfold strchr, string_at. intros H. inv_bind_as H s Hs. inv_bind_as Hs n Hn.
  injection Hs as <-.
  apply strlen_at_bound in Hn.
  destruct (string_index _ c) as [i|] eqn:Hi; [|discriminate].
  injection H as <-.
  apply string_index_char in Hi. rewrite bytes_string_of_list in Hi.
  apply lookup_take_Some in Hi as [Hi _]. rewrite lookup_drop in Hi.
  rewrite <- Hi. f_equal. lia.
Qed.

Lemma store_byte_same m p x m' :
  store_bytes m p [x] = Ok m' -> m' !! Z.to_nat p = Some x.
Proof.
  unfold store_bytes, in_buffer. intros H.
  destruct (Z.leb_spec 0 p); [|discriminate].
  destruct (Z.leb_spec (p + Z.of_nat (length [x])) (Z.of_nat (length m)));
    [|discriminate].
  injection H as <-. simpl in *.
  rewrite lookup_app_r by (rewrite length_take; lia).
  rewrite length_take. replace (Z.to_nat p - _)%nat with O by lia. reflexivity.
Qed.

Lemma store_byte_other m p x m' i :
  store_bytes m p [x] = Ok m' -> i ≠ Z.to_nat p -> m' !! i = m !! i.
Proof.
  unfold store_bytes, in_buffer. intros H Hi.
  destruct (Z.leb_spec 0 p); [|discriminate].
  destruct (Z.leb_spec (p + Z.of_nat (length [x])) (Z.of_nat (length m)));
    [|discriminate].
  injection H as <-. simpl in *.
  destruct (Nat.lt_ge_cases i (Z.to_nat p)).
  - rewrite lookup_app_l by (rewrite length_take; lia).
    now rewrite lookup_take_lt.
  - rewrite lookup_app_r by (rewrite length_take; lia).
    rewrite length_take.
    replace (i - _)%nat with (S (i - Z.to_nat p - 1)) by lia. simpl.
    rewrite lookup_drop. f_equal. lia.
Qed.

Lemma store_bytes_pos m p bs m' : store_bytes m p bs = Ok m' -> 0 <= p.
Proof.
  unfold store_bytes, in_buffer. intros H.
  destruct (Z.leb_spec 0 p); [assumption | discriminate].
Qed.

(** A turn of a loop of yaml_quotation_handling moves [tmp] forward. *)
Lemma quotation_loop_spec fuel q : forall buf tmp buf' tmp',
  quotation_loop fuel q buf tmp = Ok (buf', tmp') ->
  q ≠ "%"%char -> q ≠ SP ->
  length buf' = length buf ∧ (0 <= tmp -> 0 <= tmp').
Proof.
  induction fuel as [|fuel IH]; intros buf tmp buf' tmp' H Hq1 Hq2; [discriminate|].
  cbn [quotation_loop] in H.
  inv_bind_as H line Hline. destruct line as [line|].
  2:{ injection H as <- <-. split; [reflexivity | auto]. }
  inv_bind_as H b1 Hb1. inv_bind_as H b2 Hb2. inv_bind_as H t Ht.
  destruct t as [t|]; [|discriminate].
  inv_bind_as H b3 Hb3. inv_bind_as H b4 Hb4.
  apply IH in H; [|assumption..]. destruct H as [Hlen Hpos].
  pose proof (store_bytes_pos _ _ _ _ Hb3) as Hp3.
  apply store_bytes_length in Hb1, Hb2, Hb3, Hb4.
  split; [congruence|]. intros Htmp. apply Hpos. exact Hp3.
Qed.

Lemma quotation_loop_returns fuel q : forall buf tmp,
  q ≠ "%"%char -> q ≠ SP ->
  (Z.to_nat (Z.of_nat (length buf) - tmp) < fuel)%nat ->
  quotation_loop fuel q buf tmp ≠ Timeout.
Proof.
  induction fuel as [|fuel IH]; intros buf tmp Hq1 Hq2 Hfuel; [lia|].
  cbn [quotation_loop].
  apply bind_returns; [auto with returns|]. intros [line|] Hline; [|discriminate].
  apply bind_returns; [auto with returns|]. intros b1 Hb1.
  apply bind_returns; [auto with returns|]. intros b2 Hb2.
  apply bind_returns; [auto with returns|]. intros [t|] Ht; [|discriminate].
  apply bind_returns; [auto with returns|]. intros b3 Hb3.
  apply bind_returns; [auto with returns|]. intros b4 Hb4.
  apply IH; [assumption..|].
  pose proof (strchr_bound _ _ _ _ Hline) as Hl.
  pose proof (strchr_bound _ _ _ _ Ht) as Hlt.
  pose proof (strchr_char _ _ _ _ Ht) as Hc.
  assert (t ≠ line) as Hne1.
  { intros ->. rewrite (store_byte_other _ _ _ _ _ Hb2) in Hc by lia.
    rewrite (store_byte_same _ _ _ _ Hb1) in Hc. congruence. }
  assert (t ≠ line + 1) as Hne2.
  { intros ->. rewrite (store_byte_same _ _ _ _ Hb2) in Hc. congruence. }
  apply store_bytes_length in Hb1, Hb2, Hb3, Hb4.
  rewrite Hb4, Hb3, Hb2, Hb1. lia.
Qed.

Lemma yaml_quotation_handling_returns buf :
  yaml_quotation_handling buf ≠ Timeout.
Proof.
  unfold yaml_quotation_handling.
  apply bind_returns.
  { apply quotation_loop_returns; [discriminate..|]. lia. }
  intros [b tmp] H1.
  apply quotation_loop_spec in H1 as [Hlen Hpos]; [|discriminate..].
  apply bind_returns.
  { apply quotation_loop_returns; [discriminate..|]. rewrite Hlen.
    specialize (Hpos ltac:(lia)). lia. }
  intros [b' ?] _. discriminate.
Qed.

Lemma yaml_quotation_handling_length buf buf' :
  yaml_quotation_handling buf = Ok buf' -> length buf' = length buf.
Proof.
  unfold yaml_quotation_handling. intros H.
  inv_bind_as H x Hx. destruct x as [b tmp].
  inv_bind_as H y Hy. destruct y as [b2 tmp2]. injection H as <-.
  apply quotation_loop_spec in Hx as [Hx _]; [|discriminate..].
  apply quotation_loop_spec in Hy as [Hy _]; [|discriminate..].
  congruence.
Qed.

(** The write handler returns on every text, whatever libnl answers. *)
Lemma write_lines_returns nm_size alloc_ok resolve_grp add_membership geterror out buffer size :
  write_lines nm_size alloc_ok resolve_grp add_membership geterror out buffer size ≠ Timeout.
Proof.
  unfold write_lines.
  apply bind_returns.
  { unfold strndup. repeat case_match; discriminate. }
  intros b _.
  apply bind_returns; [apply yaml_quotation_handling_returns|].
  intros b' _.
  apply write_loop_returns.
  unfold potential, entry_left, room_left, write_fuel, write_start.
  cbn [w_entry w_buf w_msg]. lia.
Qed.


(* ------------------------------------------------------------------ *)
(** ** Integer attributes *)

Lemma le_uint_le_bytes w v : le_uint w (le_bytes w v) = v mod 256 ^ Z.of_nat w.
Proof.
  revert v. induction w as [|w IH]; intros v.
  - simpl. now rewrite Z.mod_1_r.
  - cbn [le_bytes le_uint]. rewrite IH.
    assert (0 <= v mod 256 < 256) as Hb by (apply Z.mod_pos_bound; lia).
    rewrite N_ascii_embedding
      by (change 256%N with (Z.to_N 256); apply Z2N.inj_lt; lia).
    rewrite Z2N.id by lia.
    rewrite Nat2Z.inj_succ, Z.pow_succ_r by lia.
    assert (0 < 256 ^ Z.of_nat w) by (apply Z.pow_pos_nonneg; lia).
    rewrite Z.rem_mul_r by lia. reflexivity.
Qed.

Lemma length_le_bytes w v : length (le_bytes w v) = w.
Proof. revert v. induction w as [|w IH]; intros v; simpl; [|rewrite IH]; reflexivity. Qed.

Lemma wrap_signed_id w v :
  0 < w -> - 2 ^ (w - 1) <= v < 2 ^ (w - 1) -> wrap_signed w (v mod 2 ^ w) = v.
Proof.
  intros Hw Hv. unfold wrap_signed. rewrite Z.mod_mod by lia.
  assert (2 ^ w = 2 * 2 ^ (w - 1)) as E.
  { rewrite <- Z.pow_succ_r by lia. f_equal. lia. }
  destruct (Z.le_gt_cases 0 v).
  - rewrite Z.mod_small by lia.
    destruct (Z.ltb_spec v (2 ^ (w - 1))); lia.
  - replace (v mod 2 ^ w) with (v + 2 ^ w).
    2:{ apply Z.mod_unique with (q := -1); lia. }
    destruct (Z.ltb_spec (v + 2 ^ w) (2 ^ (w - 1))); lia.
Qed.

Lemma nla_get_put_int t w v :
  le_uint w (bytes (nla_data (nla_put_int t w v))) = v mod 256 ^ Z.of_nat w.
Proof.
  unfold nla_put_int. cbn [nla_data].
  now rewrite bytes_string_of_list, le_uint_le_bytes.
Qed.

Lemma nla_get_s64_put t v :
  - 2 ^ 63 <= v < 2 ^ 63 -> nla_get_s64 (Some (nla_put_int t 8 v)) = v.
Proof.
  intros Hv. unfold nla_get_s64, nla_len.
  assert (String.length (nla_data (nla_put_int t 8 v)) = 8%nat) as ->.
  { unfold nla_put_int. cbn [nla_data].
    now rewrite <- length_bytes, bytes_string_of_list, length_le_bytes. }
  cbn [Nat.leb]. rewrite nla_get_put_int.
  change (256 ^ Z.of_nat 8) with (2 ^ 64). apply wrap_signed_id; lia.
Qed.



(** X2: the text value intake prints for an integer attribute is the
    decimal form of the value the sender encoded: unsigned types as they
    are, signed types with their sign (a signed 16-bit value is fetched
    with nla_get_u16 and converted by "%hd"). *)
Theorem X2_integer_text (t : nat) (v : Z) :
  (0 <= v < 2 ^ 16 ->
     scalar_text NLA_U16 (nla_put_int t 2 v) = Some (fmt_unsigned v)) ∧
  (0 <= v < 2 ^ 32 ->
     scalar_text NLA_U32 (nla_put_int t 4 v) = Some (fmt_unsigned v)) ∧
  (0 <= v < 2 ^ 64 ->
     scalar_text NLA_U64 (nla_put_int t 8 v) = Some (fmt_unsigned v)) ∧
  (- 2 ^ 15 <= v < 2 ^ 15 ->
     scalar_text NLA_S16 (nla_put_int t 2 v) = Some (fmt_signed v)) ∧
  (- 2 ^ 31 <= v < 2 ^ 31 ->
     scalar_text NLA_S32 (nla_put_int t 4 v) = Some (fmt_signed v)) ∧
  (- 2 ^ 63 <= v < 2 ^ 63 ->
     scalar_text NLA_S64 (nla_put_int t 8 v) = Some (fmt_signed v)).
Proof.
  repeat split; intros Hv.
  - change (scalar_text NLA_U16 (nla_put_int t 2 v))
      with (Some (fmt_unsigned (u16 (nla_get_u16 (nla_put_int t 2 v))))).
    unfold nla_get_u16. rewrite nla_get_put_int.
    unfold u16, wrap_unsigned. change (256 ^ Z.of_nat 2) with (2 ^ 16).
    now rewrite Z.mod_mod, Z.mod_small by lia.
  - change (scalar_text NLA_U32 (nla_put_int t 4 v))
      with (Some (fmt_unsigned (nla_get_u32 (nla_put_int t 4 v)))).
    unfold nla_get_u32. rewrite nla_get_put_int.
    change (256 ^ Z.of_nat 4) with (2 ^ 32). now rewrite Z.mod_small by lia.
  - change (scalar_text NLA_U64 (nla_put_int t 8 v))
      with (Some (fmt_unsigned (nla_get_u64 (nla_put_int t 8 v)))).
    unfold nla_get_u64. rewrite nla_get_put_int.
    change (256 ^ Z.of_nat 8) with (2 ^ 64). now rewrite Z.mod_small by lia.
  - change (scalar_text NLA_S16 (nla_put_int t 2 v))
      with (Some (fmt_signed (wrap_signed 16 (nla_get_u16 (nla_put_int t 2 v))))).
    unfold nla_get_u16. rewrite nla_get_put_int.
    change (256 ^ Z.of_nat 2) with (2 ^ 16). now rewrite wrap_signed_id by lia.
  - change (scalar_text NLA_S32 (nla_put_int t 4 v))
      with (Some (fmt_signed (nla_get_s32 (nla_put_int t 4 v)))).
    unfold nla_get_s32. rewrite nla_get_put_int.
    change (256 ^ Z.of_nat 4) with (2 ^ 32). now rewrite wrap_signed_id by lia.
  - change (scalar_text NLA_S64 (nla_put_int t 8 v))
      with (Some (fmt_signed (nla_get_s64 (Some (nla_put_int t 8 v))))).
    now rewrite nla_get_s64_put.
Qed.

Lemma X2_integer_text_witness :
  scalar_text NLA_U16 (nla_put_int 2 2 9000) = Some "9000" ∧
  scalar_text NLA_S32 (nla_put_int 2 4 (-42)) = Some "-42" ∧
  scalar_text NLA_S64 (nla_put_int 2 8 (-42)) = Some "-42".
Proof.
  pose proof (X2_integer_text 2 9000) as (H16 & _).
  pose proof (X2_integer_text 2 (-42)) as (_ & _ & _ & _ & H32 & H64).
  split; [apply H16; lia|]. split; [apply H32; lia | apply H64; lia].
Defined.

(* ------------------------------------------------------------------ *)
(** ** The names of the root *)

Lemma key_strings_node p l i :
  Forall (fun e => event_node e = p) (free_key_strings p l i).
Proof.
  revert i. induction l as [|k l IH]; intros i; simpl; [constructor|].
  apply Forall_app. split; [|apply IH].
  destruct (lkp_values k); repeat constructor.
Qed.

Lemma node_strings_node h p : Forall (fun e => event_node e = p) (node_strings h p).
Proof.
  unfold node_strings. destruct (h !! p) as [[n|]|]; try constructor.
  apply key_strings_node.
Qed.

Lemma kids_log_nodes h t :
  Forall (fun e => event_node e ∈ descendants t) (kids_log h t).
Proof.
  induction t as [p kids IH] using ptree_ind'.
  unfold descendants. cbn [kids_log pt_kids].
  induction IH as [|k kids Hk _ IHk]; [constructor|].
  cbn [foldr]. rewrite Forall_app. split.
  - rewrite !Forall_app. repeat split.
    + eapply Forall_impl; [exact Hk|]. intros e He. cbn beta in *.
      apply elem_of_app. left. destruct k as [q kk]. cbn [pt_nodes].
      right. exact He.
    + eapply Forall_impl; [apply node_strings_node|]. intros e ->.
      apply elem_of_app. left. apply pt_root_in_nodes.
    + repeat constructor. cbn [event_node]. apply elem_of_app. left.
      apply pt_root_in_nodes.
  - eapply Forall_impl; [exact IHk|]. intros e He. cbn beta in *.
    apply elem_of_app. now right.
Qed.

Lemma msg_complete_teardown_log have_usrspc s2n ge msg data t :
  ¬ kernel_error msg ->
  root data = Some (pt_root t) ->
  tree_at (heap data) t ->
  exists d',
    yaml_netlink_msg_complete have_usrspc s2n ge msg data = Ok (NL_STOP, d') ∧
    freed d' = freed data ++ (cleanup_result (heap data) [] [] t).2
                 ++ [FreeNode (pt_root t)].
Proof.
  intros Hnoerr Hroot [Hsh Hnd]. unfold yaml_netlink_msg_complete.
  destruct (_ && _) eqn:Htest.
  { apply kernel_error_test in Htest. contradiction. }
  unfold cleanup_children. rewrite Hroot.
  pose proof (cleanup_children_tree t (heap data) [] [] (2 * length (heap data) + 2)%nat
                Hsh Hnd) as Hc.
  rewrite wipe_nil in Hc. rewrite Hc.
  2:{ intros q _. split; apply not_elem_of_nil. }
  2:{ pose proof (cleanup_need_bound t).
      pose proof (nodes_length_bound _ _ (conj Hsh Hnd)). lia. }
  destruct (shaped_root _ _ Hsh) as (n & Hn & Hch).
  assert (pt_nodes t = pt_root t :: descendants t) as Hnodes by now destruct t.
  rewrite bind_Ok. unfold cleanup_result.
  destruct (pt_kids t) as [|k kids] eqn:Hkids.
  - rewrite (free_wipe [] _ _ _ n (not_elem_of_nil _) Hn). rewrite !bind_Ok.
    eexists. split; reflexivity.
  - assert (pt_root t ∉ [] ++ descendants t) as Hr.
    { rewrite Hnodes in Hnd. apply NoDup_cons in Hnd as [Hr _]. exact Hr. }
    rewrite (free_wipe _ _ _ _ n Hr Hn). rewrite !bind_Ok.
    eexists. split; reflexivity.
Qed.


Lemma deep_session_intake : session_after false [deep_schema] 32 = Ok deep_session.
Proof. vm_compute. reflexivity. Qed.


(** The names the root of the three-level schema holds, and the calls of
    free() of its teardown: none is on a name of the root. *)
Example deep_root_names_lost :
  key_strings 0 deep_root = [FreeString 0 1; FreeString 0 2; FreeString 0 3] ∧
  (r ← yaml_netlink_msg_complete true demo_syserr2nlerr demo_geterror
         done_msg deep_session;
   Ok (freed r.2))
  = Ok [FreeString 2 1; FreeNode 2; FreeString 1 1; FreeNode 1;
        FreeString 3 1; FreeNode 3; FreeNode 0].
Proof. split; vm_compute; reflexivity. Qed.

(* ------------------------------------------------------------------ *)
(** ** The index of a key record *)

Lemma nla_get_u16_put t v : 0 <= v < 65536 -> nla_get_u16 (nla_put_u16 t v) = v.
Proof.
  intros Hv. unfold nla_get_u16, nla_put_u16. cbn [nla_data].
  rewrite bytes_string_of_list, le_uint_le_bytes.
  change (256 ^ Z.of_nat 2) with 65536. now apply Z.mod_small.
Qed.

Lemma c_str_put s : strchr_found s NUL = false -> c_str (s +:+ String NUL EmptyString) = s.
Proof.
  induction s as [|c s IH]; [reflexivity|].
  intros H. simpl in H. apply orb_false_iff in H as [Hc Hs].
  change (c_str (String c (s +:+ String NUL EmptyString)) = String c s).
  simpl. rewrite Hc. now rewrite IH.
Qed.

Lemma last_bytes_put s : last (bytes (s +:+ String NUL EmptyString)) = Some NUL.
Proof. rewrite bytes_app. simpl. apply last_snoc. Qed.

Lemma validate_put_string t s : validate_nla NLA_STRING (nla_put_string t s) = true.
Proof.
  unfold validate_nla, nla_put_string. rewrite last_bytes_put.
  rewrite length_string_app.
  apply andb_true_iff. split; [|reflexivity].
  apply Nat.leb_le. unfold nla_attr_minlen. simpl. lia.
Qed.

Lemma nla_parse_attrs_store maxtype policy tb a l :
  (nla_type a <= maxtype)%nat -> (nla_type a < length tb)%nat ->
  validate_nla (default 0 (policy !! nla_type a)) a = true ->
  nla_parse_attrs maxtype policy tb (a :: l)
  = nla_parse_attrs maxtype policy (<[nla_type a := Some a]> tb) l.
Proof.
  intros H1 H2 H3. cbn [nla_parse_attrs].
  destruct (Nat.ltb_spec maxtype (nla_type a)); [lia|].
  destruct (Nat.leb_spec (length tb) (nla_type a)); [lia|].
  now rewrite H3.
Qed.

Lemma parse_key_record n i type name format :
  nla_parse_nested (S LN_SCALAR_CNT) LN_SCALAR_CNT
    (key_record_attr (Some n) i type name format None) scalar_attr_policy
  = Ok (Some [None; None;
              Some (nla_put_u16 LN_SCALAR_ATTR_LIST_SIZE n);
              Some (nla_put_u16 LN_SCALAR_ATTR_INDEX i);
              Some (nla_put_u16 LN_SCALAR_ATTR_NLA_TYPE type);
              Some (nla_put_string LN_SCALAR_ATTR_VALUE name);
              Some (nla_put_u16 LN_SCALAR_ATTR_KEY_FORMAT format)]).
Proof.
  unfold nla_parse_nested, nla_parse, key_record_attr.
  cbn [nla_nested_attrs app].
  rewrite nla_parse_attrs_store; [|vm_compute; lia|vm_compute; lia|reflexivity].
  rewrite nla_parse_attrs_store; [|vm_compute; lia|vm_compute; lia|reflexivity].
  rewrite nla_parse_attrs_store; [|vm_compute; lia|vm_compute; lia|reflexivity].
  rewrite nla_parse_attrs_store; [|vm_compute; lia|vm_compute; lia|apply validate_put_string].
  rewrite nla_parse_attrs_store; [|vm_compute; lia|vm_compute; lia|reflexivity].
  reflexivity.
Qed.

Lemma store_key_last h nd j f :
  store_key (h ++ [Some nd]) (length h) j f
  = match lkl_list (keys nd) !! j with
    | Some k => Ok (h ++ [Some (set_key nd j (f k))])
    | None => Fault OutOfBounds
    end.
Proof.
  unfold store_key, deref, key_at.
  rewrite list_lookup_middle by reflexivity. simpl.
  destruct (lkl_list (keys nd) !! j); [|reflexivity]. simpl.
  f_equal. rewrite insert_app_r_alt by lia. now rewrite Nat.sub_diag.
Qed.



(* ------------------------------------------------------------------ *)
(** ** Entries of a block sequence *)

Lemma land_clear_sequence m :
  has_flag (Z.land m (Z.lnot LNKF_SEQUENCE)) LNKF_SEQUENCE = false ∧
  has_flag (Z.land m (Z.lnot LNKF_SEQUENCE)) LNKF_MAPPING = has_flag m LNKF_MAPPING ∧
  has_flag (Z.land m (Z.lnot LNKF_SEQUENCE)) LNKF_FLOW = has_flag m LNKF_FLOW.
Proof.
  unfold has_flag. rewrite <- !Z.land_assoc.
  change (Z.land (Z.lnot LNKF_SEQUENCE) LNKF_SEQUENCE) with 0.
  change (Z.land (Z.lnot LNKF_SEQUENCE) LNKF_MAPPING) with LNKF_MAPPING.
  change (Z.land (Z.lnot LNKF_SEQUENCE) LNKF_FLOW) with LNKF_FLOW.
  now rewrite Z.land_0_r.
Qed.



(* ------------------------------------------------------------------ *)
(** ** Setting up the socket and the parser *)

(** X6: yaml_parser_set_input_netlink returns true exactly when the
    session is allocated and the registration and both callback
    installations succeed; the session the parser refers to is then live.
    When the registration fails the parser has no handler data.  When a
    callback installation fails the session has already been handed to
    the parser and is freed all the same: the parser is left with a reader
    error and with handler data that point to the freed session, which
    is what yaml_parser_get_reader_error goes on to read. *)
Theorem X6_set_input_failure
    (genl_connect nl_socket_get_fd : Z) (setsockopt : Z -> Z * Z)
    (nl_syserr2nlerr : Z -> Z) (modify_cb_valid modify_cb_finish : Z)
    (calloc_ok stream : bool) (reply : yaml_parser_t) :
  let register_rc :=
    (lustre_netlink_register genl_connect nl_socket_get_fd setsockopt
       nl_syserr2nlerr stream).1 in
  let r := yaml_parser_set_input_netlink genl_connect nl_socket_get_fd setsockopt
             nl_syserr2nlerr modify_cb_valid modify_cb_finish calloc_ok reply stream in
  (si_return r = true <->
     calloc_ok = true ∧ 0 <= register_rc ∧ 0 <= modify_cb_valid ∧
     0 <= modify_cb_finish) ∧
  (si_return r = true ->
     si_parser r = reply ∧ si_handler_data r = Some (new_input reply) ∧
     si_freed r = false) ∧
  (calloc_ok = true -> register_rc < 0 ->
     si_handler_data r = None ∧ error (si_parser r) = YAML_READER_ERROR ∧
     problem_value (si_parser r) = - register_rc) ∧
  (calloc_ok = true -> 0 <= register_rc ->
   modify_cb_valid < 0 ∨ modify_cb_finish < 0 ->
     si_return r = false ∧ error (si_parser r) = YAML_READER_ERROR ∧
     si_handler_data r = Some (new_input reply) ∧ si_freed r = true).
Proof.
  intros register_rc r. subst r. unfold yaml_parser_set_input_netlink.
  fold register_rc.
  destruct calloc_ok; cbn [negb];
    destruct (Z.ltb_spec register_rc 0), (Z.ltb_spec modify_cb_valid 0),
      (Z.ltb_spec modify_cb_finish 0); cbn;
    repeat split; intros; try discriminate; try lia; try reflexivity;
    try (match goal with H : _ ∧ _ |- _ => destruct H as (? & ? & ? & ?) end;
         first [discriminate | lia]);
    try (match goal with H : _ ∨ _ |- _ => destruct H end; lia).
Qed.

Lemma X6_set_input_failure_witness :
  let r := yaml_parser_set_input_netlink 0 3 (fun _ => (0, 0)) Z.abs 0 (-5) true
             fresh_parser false in
  si_return r = false ∧ error (si_parser r) = YAML_READER_ERROR ∧
  si_handler_data r = Some (new_input fresh_parser) ∧ si_freed r = true.
Proof.
  apply (proj2 (proj2 (proj2
           (X6_set_input_failure 0 3 (fun _ => (0, 0)) Z.abs 0 (-5) true false
              fresh_parser))));
    first [reflexivity | vm_compute; discriminate | right; lia].
Defined.

(** A kernel without extended acks does not make the registration fail:
    setsockopt(NETLINK_EXT_ACK) failing with ENOPROTOOPT is accepted. *)
Example register_without_ext_ack :
  lustre_netlink_register 0 3
    (fun name => if name =? NETLINK_EXT_ACK then (-1, ENOPROTOOPT) else (0, 0))
    Z.abs true
  = (0, [DisableSeqCheck; DisableAutoAck]).
Proof. reflexivity. Qed.
